(** * yamlot/token: the tokenizer, embedded and verified

    The development follows [token/token.go] (the revision with the
    indentation stack, the token buffer and the debug flag).  Go's [int]
    is a 64-bit integer with wrap-around, a [rune] is a code point, and
    the [bufio.Reader] the tokenizer owns is modelled by the rune sequence
    it still has to deliver together with what the underlying source
    answers once that sequence is exhausted. *)

From Stdlib Require Import ZArith String Ascii List Bool Lia.
Import ListNotations.
Local Open Scope Z_scope.

(** ** Go primitives *)

(** Arithmetic on Go's [int] (64 bits, two's complement). *)
Definition int_wrap (z : Z) : Z := (z + 2 ^ 63) mod 2 ^ 64 - 2 ^ 63.

Definition rune := Z.

Definition r_tab : rune := 9.
Definition r_nl : rune := 10.
Definition r_space : rune := 32.
Definition r_hash : rune := 35.
Definition r_dash : rune := 45.
Definition r_dot : rune := 46.

(** A Go string literal of ASCII characters, as its runes. *)
Definition str (s : string) : list rune :=
  map (fun a => Z.of_nat (nat_of_ascii a)) (list_ascii_of_string s).

(** [string(r)] replaces a code point outside the Unicode range, or a
    surrogate, by U+FFFD. *)
Definition valid_rune (c : rune) : bool :=
  ((0 <=? c) && (c <? 0xD800)) || ((0xE000 <=? c) && (c <=? 0x10FFFF)).

Definition sanitize (c : rune) : rune := if valid_rune c then c else 0xFFFD.

(** [utf8.RuneLen] after the replacement above. *)
Definition RuneLen (c : rune) : Z :=
  let c := sanitize c in
  if c <? 0x80 then 1 else if c <? 0x800 then 2 else if c <? 0x10000 then 3 else 4.

(** The first byte of the UTF-8 encoding of a rune: what [Peek(1)] shows. *)
Definition lead_byte (c : rune) : Z :=
  let c := sanitize c in
  if c <? 0x80 then c
  else if c <? 0x800 then Z.lor 0xC0 (Z.shiftr c 6)
  else if c <? 0x10000 then Z.lor 0xE0 (Z.shiftr c 12)
  else Z.lor 0xF0 (Z.shiftr c 18).

(** [string(scalar)] for [scalar []rune], kept as the runes of the string. *)
Definition string_of_runes (scalar : list rune) : list rune := map sanitize scalar.

(** [len(s)]: the number of bytes of the UTF-8 encoding. *)
Definition len (s : list rune) : Z := fold_right (fun c n => RuneLen c + n) 0 s.

(** ** Errors *)

Inductive error : Type :=
| io_EOF                        (* io.EOF *)
| ErrInvalidUnreadRune          (* bufio.ErrInvalidUnreadRune *)
| ErrSource (msg : string).     (* a failure of the underlying io.Reader *)

(** ** The buffered reader *)

(** What the underlying source answers when its data is exhausted. *)
Inductive source_end : Type :=
| EndEOF
| EndFail (msg : string).

Record Reader : Type := mkReader {
  lastRune : option rune;   (* [Some c]: the last operation was a ReadRune that gave [c] *)
  pending : list rune;      (* the runes still to be delivered *)
  tail : source_end;
  faults : list error       (* ghost: the non-EOF read errors handed out so far *)
}.

Definition readErr (r : Reader) : error * list error :=
  match tail r with
  | EndEOF => (io_EOF, faults r)
  | EndFail msg => (ErrSource msg, faults r ++ [ErrSource msg])
  end.

Definition ReadRune (r : Reader) : rune * option error * Reader :=
  match pending r with
  | c :: rest => (c, None, mkReader (Some c) rest (tail r) (faults r))
  | [] => let '(e, fs) := readErr r in (0, Some e, mkReader None [] (tail r) fs)
  end.

Definition UnreadRune (r : Reader) : option error * Reader :=
  match lastRune r with
  | Some c => (None, mkReader None (c :: pending r) (tail r) (faults r))
  | None => (Some ErrInvalidUnreadRune, r)
  end.

(** [Peek(1)]: the next byte (0 when there is none) and the error. *)
Definition Peek1 (r : Reader) : Z * option error * Reader :=
  match pending r with
  | c :: _ => (lead_byte c, None, mkReader None (pending r) (tail r) (faults r))
  | [] => let '(e, fs) := readErr r in (0, Some e, mkReader None [] (tail r) fs)
  end.

(** ** Tokens *)

Inductive TokenType : Type :=
| TokenEOF
| TokenError
| TokenDash
| TokenPlainScalar
| TokenNewLine
| TokenDocStart
| TokenDocEnd
| TokenIndent
| TokenDedent.

Record Token : Type := mkToken {
  Typ : TokenType;
  Value : list rune;
  Line : Z;
  Column : Z
}.

Definition TokenType_eqb (a b : TokenType) : bool :=
  match a, b with
  | TokenEOF, TokenEOF | TokenError, TokenError | TokenDash, TokenDash
  | TokenPlainScalar, TokenPlainScalar | TokenNewLine, TokenNewLine
  | TokenDocStart, TokenDocStart | TokenDocEnd, TokenDocEnd
  | TokenIndent, TokenIndent | TokenDedent, TokenDedent => true
  | _, _ => false
  end.

Fixpoint runes_eqb (a b : list rune) : bool :=
  match a, b with
  | [], [] => true
  | x :: a', y :: b' => (x =? y) && runes_eqb a' b'
  | _, _ => false
  end.

(** [TokenEqual]: the type, and the value of a plain scalar. *)
Definition TokenEqual (t1 t2 : Token) : bool :=
  if negb (TokenType_eqb (Typ t1) (Typ t2)) then false
  else match Typ t1 with
       | TokenPlainScalar => runes_eqb (Value t1) (Value t2)
       | _ => true
       end.

(** ** The tokenizer *)

Inductive tokenStatus : Type :=
| statusBlank
| statusOneDot
| statusTwoDots
| statusThreeDots
| statusOneDash
| statusTwoDashes
| statusThreeDashes
| statusAfterDash
| statusScalar.

Definition statusName (s : tokenStatus) : string :=
  match s with
  | statusBlank => "StatusBlank"
  | statusOneDot => "StatusOneDot"
  | statusTwoDots => "StatusTwoDots"
  | statusThreeDots => "StatusThreeDots"
  | statusOneDash => "StatusOneDash"
  | statusTwoDashes => "StatusTwoDashes"
  | statusThreeDashes => "StatusThreeDashes"
  | statusAfterDash => "StatusAfterDash"
  | statusScalar => "StatusScalar"
  end.

(** One line of the debug trace: caller, status name, rune, error. *)
Record DebugLine : Type := mkDebugLine {
  dbg_caller : string;
  dbg_status : string;
  dbg_rune : rune;
  dbg_err : option error
}.

Record Tokenizer : Type := mkTokenizer {
  reader : Reader;
  line : Z;
  column : Z;
  status : tokenStatus;
  debug : bool;
  indentationLevelStack : list Z;   (* the top is the last element *)
  tokenBuffer : list Token;
  stdout : list DebugLine           (* ghost: what fmt.Printf has written *)
}.

Definition set_reader (r : Reader) (t : Tokenizer) : Tokenizer :=
  mkTokenizer r (line t) (column t) (status t) (debug t)
    (indentationLevelStack t) (tokenBuffer t) (stdout t).
Definition set_line (l : Z) (t : Tokenizer) : Tokenizer :=
  mkTokenizer (reader t) l (column t) (status t) (debug t)
    (indentationLevelStack t) (tokenBuffer t) (stdout t).
Definition set_column (c : Z) (t : Tokenizer) : Tokenizer :=
  mkTokenizer (reader t) (line t) c (status t) (debug t)
    (indentationLevelStack t) (tokenBuffer t) (stdout t).
Definition set_status (s : tokenStatus) (t : Tokenizer) : Tokenizer :=
  mkTokenizer (reader t) (line t) (column t) s (debug t)
    (indentationLevelStack t) (tokenBuffer t) (stdout t).
Definition set_debug (d : bool) (t : Tokenizer) : Tokenizer :=
  mkTokenizer (reader t) (line t) (column t) (status t) d
    (indentationLevelStack t) (tokenBuffer t) (stdout t).
Definition set_stack (s : list Z) (t : Tokenizer) : Tokenizer :=
  mkTokenizer (reader t) (line t) (column t) (status t) (debug t)
    s (tokenBuffer t) (stdout t).
Definition set_buffer (b : list Token) (t : Tokenizer) : Tokenizer :=
  mkTokenizer (reader t) (line t) (column t) (status t) (debug t)
    (indentationLevelStack t) b (stdout t).
Definition set_stdout (o : list DebugLine) (t : Tokenizer) : Tokenizer :=
  mkTokenizer (reader t) (line t) (column t) (status t) (debug t)
    (indentationLevelStack t) (tokenBuffer t) o.

(** [bufio.NewReader(input)] over a source that delivers [input] and then
    answers [fin]. *)
Definition NewReader (input : list rune) (fin : source_end) : Reader :=
  mkReader None input fin [].

Definition NewTokenizer (input : list rune) (fin : source_end) (debug : bool)
  : Tokenizer :=
  mkTokenizer (NewReader input fin) 1 0 statusBlank debug [0] [] [].

(** ** Methods as state transformers

    A method either returns a value and the updated tokenizer, or panics.
    [Spin] marks a loop of the model that used up its iteration bound; the
    bounds are taken from the length of the pending input and are shown
    below never to be reached. *)

Inductive Res (A : Type) : Type :=
| Val (a : A) (t : Tokenizer)
| Panic (msg : string)
| Spin.
Arguments Val {A} a t.
Arguments Panic {A} msg.
Arguments Spin {A}.

Definition M (A : Type) : Type := Tokenizer -> Res A.

Definition ret {A} (a : A) : M A := fun t => Val a t.

Definition bind {A B} (m : M A) (f : A -> M B) : M B :=
  fun t => match m t with
           | Val a t' => f a t'
           | Panic msg => Panic msg
           | Spin => Spin
           end.

Definition gets {A} (f : Tokenizer -> A) : M A := fun t => Val (f t) t.
Definition modify (f : Tokenizer -> Tokenizer) : M unit := fun t => Val tt (f t).
Definition panic {A} (msg : string) : M A := fun _ => Panic msg.
Definition spin {A} : M A := fun _ => Spin.

Notation "x <- m ;; k" := (bind m (fun x => k))
  (at level 61, m at next level, right associativity).
Notation "' pat <- m ;; k" := (bind m (fun x => match x with pat => k end))
  (at level 61, pat pattern, m at next level, right associativity).
Notation "m ;; k" := (bind m (fun _ => k))
  (at level 61, right associativity).

(** The pair [(Token, error)] the methods return; [None] is [nil]. *)
Definition TokErr : Type := Token * option error.

Definition indentPush (level : Z) : M unit :=
  modify (fun t => set_stack (indentationLevelStack t ++ [level]) t).

Definition indentPop : M Z :=
  stack <- gets indentationLevelStack ;;
  if (length stack <=? 1)%nat then panic "cannot pop indentation level"
  else
    modify (set_stack (removelast stack)) ;;
    ret (last stack 0).

Definition tokenBufferPush (token : Token) : M unit :=
  modify (fun t => set_buffer (tokenBuffer t ++ [token]) t).

(** [tk, t.tokenBuffer = t.tokenBuffer[0], t.tokenBuffer[1:]].  On an
    empty buffer the slice expression on the right is evaluated before the
    element is fetched, so the crash is the runtime's bounds error of
    [t.tokenBuffer[1:]]. *)
Definition tokenBufferShift : M Token :=
  buf <- gets tokenBuffer ;;
  match buf with
  | [] => panic "slice bounds out of range [1:0]"
  | tk :: rest => modify (set_buffer rest) ;; ret tk
  end.

Definition returnError (err : error) : M TokErr :=
  l <- gets line ;; c <- gets column ;;
  ret (mkToken TokenError [] l c, Some err).

Definition returnEOF : M TokErr :=
  l <- gets line ;; c <- gets column ;;
  ret (mkToken TokenEOF [] l c, Some io_EOF).

Definition returnNewLine : M TokErr :=
  l <- gets line ;; c <- gets column ;;
  modify (set_line (int_wrap (l + 1))) ;;
  modify (set_column 0) ;;
  ret (mkToken TokenNewLine (str "\n") l c, None).

Definition returnDash : M TokErr :=
  l <- gets line ;; c <- gets column ;;
  ret (mkToken TokenDash (str "-") l c, None).

Definition returnDocStart : M TokErr :=
  l <- gets line ;; c <- gets column ;;
  ret (mkToken TokenDocStart (str "---") l (int_wrap (c - 3)), None).

Definition returnDocEnd : M TokErr :=
  l <- gets line ;; c <- gets column ;;
  ret (mkToken TokenDocEnd (str "...") l (int_wrap (c - 3)), None).

Definition readRune (caller : string) : M (rune * option error) :=
  fun t =>
    let '(ch, err, r) := ReadRune (reader t) in
    let t1 := set_reader r t in
    let t2 :=
      if debug t1
      then set_stdout
             (stdout t1 ++ [mkDebugLine caller (statusName (status t1)) ch err]) t1
      else t1 in
    match err with
    | Some e => Val (0, Some e) t2
    | None => Val (ch, None) (set_column (int_wrap (column t2 + 1)) t2)
    end.

Definition unreadRune : M (option error) :=
  fun t =>
    let '(err, r) := UnreadRune (reader t) in
    match err with
    | Some e => Val (Some e) (set_reader r t)
    | None =>
        let t1 := set_reader r t in
        Val None (set_column (int_wrap (column t1 - 1)) t1)
    end.

Definition peek : M (Z * option error) :=
  fun t => let '(b, err, r) := Peek1 (reader t) in Val (b, err) (set_reader r t).

Definition unreadAndReturnDash : M TokErr :=
  err <- unreadRune ;;
  match err with
  | Some e => returnError e
  | None => returnDash
  end.

(** The [for] loop of [collectPlainScalar]: [inl scalar] when it breaks,
    [inr r] when the method returns [r] from inside the loop. *)
Fixpoint collectLoop (bound : nat) (scalar : list rune) : M (list rune + TokErr) :=
  match bound with
  | O => spin
  | S bound' =>
      ' (pk, err) <- peek ;;
      match err with
      | Some io_EOF => ret (inl scalar)
      | Some e => r <- returnError e ;; ret (inr r)
      | None =>
          if (pk =? r_nl) || (pk =? r_hash) then ret (inl scalar)
          else
            ' (ch, err) <- readRune "collectPlainScalar" ;;
            match err with
            | Some e => r <- returnError e ;; ret (inr r)
            | None => collectLoop bound' (scalar ++ [ch])
            end
      end
  end.

Definition collectPlainScalar (scalar : list rune) : M TokErr :=
  n <- gets (fun t => length (pending (reader t))) ;;
  res <- collectLoop (S n) scalar ;;
  match res with
  | inr r => ret r
  | inl scalar =>
      let value := string_of_runes scalar in
      l <- gets line ;; c <- gets column ;;
      ret (mkToken TokenPlainScalar value l (int_wrap (c - len value)), None)
  end.

(** The [for len(stack) > 1] loop of [pushPerStateEOF]. *)
Fixpoint dedentLoop (bound : nat) : M unit :=
  match bound with
  | O => spin
  | S bound' =>
      n <- gets (fun t => length (indentationLevelStack t)) ;;
      if (1 <? n)%nat then
        indentPop ;;
        l <- gets line ;; c <- gets column ;;
        tokenBufferPush (mkToken TokenDedent [] l c) ;;
        dedentLoop bound'
      else ret tt
  end.

Definition pushPerStateEOF : M unit :=
  st <- gets status ;; l <- gets line ;; c <- gets column ;;
  match st with
  | statusOneDash =>
      tokenBufferPush (mkToken TokenDash (str "-") l (int_wrap (c - 1)))
  | statusTwoDashes =>
      tokenBufferPush (mkToken TokenPlainScalar (str "--") l (int_wrap (c - 2)))
  | statusThreeDashes =>
      tokenBufferPush (mkToken TokenDocStart (str "---") l (int_wrap (c - 3)))
  | statusOneDot =>
      tokenBufferPush (mkToken TokenPlainScalar (str ".") l (int_wrap (c - 1)))
  | statusTwoDots =>
      tokenBufferPush (mkToken TokenPlainScalar (str "..") l (int_wrap (c - 2)))
  | statusThreeDots =>
      tokenBufferPush (mkToken TokenDocEnd (str "...") l (int_wrap (c - 3)))
  | _ => ret tt
  end ;;
  n <- gets (fun t => length (indentationLevelStack t)) ;;
  dedentLoop (S n) ;;
  l <- gets line ;; c <- gets column ;;
  tokenBufferPush (mkToken TokenEOF [] l c).

(** One pass through the body of the [NEXT_RUNE] loop either goes round
    again or returns from [NextToken]. *)
Inductive Flow : Type :=
| Continue
| Return (r : TokErr).

Definition returning (m : M TokErr) : M Flow := r <- m ;; ret (Return r).

Definition set (f : Tokenizer -> Tokenizer) : M unit := modify f.

(** The "skip blanks" loop of [statusAfterDash]: [inl scalar] on [break]. *)
Fixpoint skipBlanks (bound : nat) (ch : rune) : M (list rune + TokErr) :=
  match bound with
  | O => spin
  | S bound' =>
      if ch =? r_nl then r <- returnNewLine ;; ret (inr r)
      else if negb (ch =? r_space) then ret (inl [ch])
      else
        ' (ch', err) <- readRune "NextToken: statusAfterDash" ;;
        match err with
        | Some io_EOF => r <- returnEOF ;; ret (inr r)
        | Some e => r <- returnError e ;; ret (inr r)
        | None => skipBlanks bound' ch'
        end
  end.

Definition unreadThen (m : M TokErr) : M Flow :=
  err <- unreadRune ;;
  match err with
  | Some e => returning (returnError e)
  | None => returning m
  end.

Definition scalarToken (v : string) (back : Z) : M TokErr :=
  l <- gets line ;; c <- gets column ;;
  ret (mkToken TokenPlainScalar (str v) l (int_wrap (c - back)), None).

(** The body of the [NEXT_RUNE] loop.  [tokenStatus] has the nine values
    of the switch, so its [default] branch has no counterpart here. *)
Definition NextTokenBody : M Flow :=
  n <- gets (fun t => length (tokenBuffer t)) ;;
  if (0 <? n)%nat then
    tk <- tokenBufferShift ;;
    match Typ tk with
    | TokenEOF => ret (Return (tk, Some io_EOF))
    | _ => ret (Return (tk, None))
    end
  else
    ' (ch, err) <- readRune "NextToken" ;;
    match err with
    | Some io_EOF => pushPerStateEOF ;; ret Continue
    | Some e => returning (returnError e)
    | None =>
        st <- gets status ;;
        match st with
        | statusBlank =>
            if ch =? r_space then ret Continue
            else if ch =? r_nl then returning returnNewLine
            else if ch =? r_dash then
              c <- gets column ;;
              if c =? 1 then set (set_status statusOneDash) ;; ret Continue
              else returning (collectPlainScalar [ch])
            else if ch =? r_dot then
              c <- gets column ;;
              if c =? 1 then set (set_status statusOneDot) ;; ret Continue
              else returning (collectPlainScalar [ch])
            else returning (collectPlainScalar [ch])
        | statusOneDot =>
            if ch =? r_dot then set (set_status statusTwoDots) ;; ret Continue
            else if ch =? r_nl then
              set (set_status statusBlank) ;;
              unreadThen (scalarToken "." 1)
            else
              set (set_status statusScalar) ;;
              returning (collectPlainScalar [r_dot; ch])
        | statusTwoDots =>
            if ch =? r_dot then set (set_status statusThreeDots) ;; ret Continue
            else if ch =? r_nl then
              set (set_status statusBlank) ;;
              unreadThen (scalarToken ".." 2)
            else
              set (set_status statusScalar) ;;
              returning (collectPlainScalar [r_dot; r_dot; ch])
        | statusThreeDots =>
            if ch =? r_space then
              set (set_status statusScalar) ;; returning returnDocEnd
            else if ch =? r_nl then
              set (set_status statusBlank) ;;
              unreadThen returnDocEnd
            else
              set (set_status statusScalar) ;;
              returning (collectPlainScalar [r_dot; r_dot; r_dot; ch])
        | statusOneDash =>
            if ch =? r_space then
              set (set_status statusScalar) ;; returning returnDash
            else if ch =? r_tab then
              set (set_status statusAfterDash) ;; returning unreadAndReturnDash
            else if ch =? r_nl then
              set (set_status statusBlank) ;; returning unreadAndReturnDash
            else if ch =? r_dash then
              set (set_status statusTwoDashes) ;; ret Continue
            else
              set (set_status statusBlank) ;;
              returning (collectPlainScalar [r_dash; ch])
        | statusTwoDashes =>
            if ch =? r_space then
              set (set_status statusBlank) ;; returning (scalarToken "--" 2)
            else if ch =? r_nl then
              set (set_status statusBlank) ;;
              unreadThen (scalarToken "--" 2)
            else if ch =? r_dash then
              set (set_status statusThreeDashes) ;; ret Continue
            else
              set (set_status statusBlank) ;;
              returning (collectPlainScalar [r_dash; r_dash; ch])
        | statusThreeDashes =>
            if ch =? r_space then
              set (set_status statusScalar) ;; returning returnDocStart
            else if ch =? r_nl then
              set (set_status statusBlank) ;;
              unreadThen returnDocStart
            else
              set (set_status statusBlank) ;;
              returning (collectPlainScalar [r_dash; r_dash; r_dash; ch])
        | statusAfterDash =>
            set (set_status statusBlank) ;;
            n <- gets (fun t => length (pending (reader t))) ;;
            res <- skipBlanks (S n) ch ;;
            match res with
            | inr r => ret (Return r)
            | inl scalar => returning (collectPlainScalar scalar)
            end
        | statusScalar =>
            set (set_status statusBlank) ;;
            if ch =? r_nl then unreadThen (collectPlainScalar [])
            else returning (collectPlainScalar [ch])
        end
    end.

Fixpoint NextTokenLoop (bound : nat) : M TokErr :=
  match bound with
  | O => spin
  | S bound' =>
      f <- NextTokenBody ;;
      match f with
      | Continue => NextTokenLoop bound'
      | Return r => ret r
      end
  end.

(** [NextToken] gets the next token. *)
Definition NextToken : M TokErr :=
  n <- gets (fun t => length (pending (reader t))) ;;
  NextTokenLoop (S (S n)).

(** ** Callers *)

(** The results of the first [n] calls of [NextToken]; the list is cut
    short where a call does not return. *)
Fixpoint calls (n : nat) (t : Tokenizer) : list TokErr :=
  match n with
  | O => []
  | S n' =>
      match NextToken t with
      | Val r t' => r :: calls n' t'
      | _ => []
      end
  end.

(** The tokenizer after [n] calls. *)
Fixpoint after (n : nat) (t : Tokenizer) : Tokenizer :=
  match n with
  | O => t
  | S n' =>
      match NextToken t with
      | Val _ t' => after n' t'
      | _ => t
      end
  end.

(** How the loop of [main] (and of the tests) ends. *)
Inductive Stop : Type :=
| AtEOF                       (* err == io.EOF && t.Type == TokenEOF *)
| Failed (err : error)        (* err != nil *)
| Crashed (msg : string)
| Unfinished.

(** The loop of [main]: the tokens handed to the consumer before the loop
    breaks, at most [n] of them. *)
Fixpoint drain (n : nat) (t : Tokenizer) : list Token * Stop :=
  match n with
  | O => ([], Unfinished)
  | S n' =>
      match NextToken t with
      | Val (tk, err) t' =>
          match err, Typ tk with
          | Some io_EOF, TokenEOF => ([], AtEOF)
          | Some e, _ => ([], Failed e)
          | None, _ => let '(tks, s) := drain n' t' in (tk :: tks, s)
          end
      | Panic msg => ([], Crashed msg)
      | Spin => ([], Unfinished)
      end
  end.

(** ** The test tables of the package

    [lit] reads a Go interpreted string literal with the escapes the
    tables use; [expect] is a table entry's token, of which [TokenEqual]
    looks at the type and value only. *)

Fixpoint lit_runes (s : list ascii) : list rune :=
  match s with
  | [] => []
  | "\"%char :: "n"%char :: s' => r_nl :: lit_runes s'
  | "\"%char :: "t"%char :: s' => r_tab :: lit_runes s'
  | a :: s' => Z.of_nat (nat_of_ascii a) :: lit_runes s'
  end.

Definition lit (s : string) : list rune := lit_runes (list_ascii_of_string s).

Definition expect (ty : TokenType) (v : string) : Token := mkToken ty (lit v) 0 0.

(** [slices.EqualFunc]. *)
Fixpoint EqualFunc {A B} (eq : A -> B -> bool) (s1 : list A) (s2 : list B) : bool :=
  match s1, s2 with
  | [], [] => true
  | x :: s1', y :: s2' => eq x y && EqualFunc eq s1' s2'
  | _, _ => false
  end.

(** The body of [TestTokenizer] and [TestIndent] for one table entry:
    collect the tokens up to EOF, fail on an error, compare. *)
Definition runTest (data : string * list Token) : bool :=
  let '(input, expected) := data in
  match drain (S (List.length (lit input) + 2)) (NewTokenizer (lit input) EndEOF false) with
  | (tokens, AtEOF) => EqualFunc TokenEqual expected tokens
  | _ => false
  end.

Definition tokenizerTestTable : list (string * list Token) :=
  let NL := expect TokenNewLine "" in
  let DASH := expect TokenDash "" in
  let START := expect TokenDocStart "" in
  let STOP := expect TokenDocEnd "" in
  let PS := expect TokenPlainScalar in
  [ ("\n-\n", [NL; DASH; NL]);
    ("\n- apple\n- banana\n- cherry\n",
     [NL; DASH; PS "apple"; NL; DASH; PS "banana"; NL; DASH; PS "cherry"; NL]);
    ("- - value\n", [DASH; PS "- value"; NL]);
    ("--", [PS "--"]);
    ("--a", [PS "--a"]);
    ("--a\n", [PS "--a"; NL]);
    ("-", [DASH]);
    ("-a", [PS "-a"]);
    ("--\n", [PS "--"; NL]);
    ("-\n", [DASH; NL]);
    ("-a\n", [PS "-a"; NL]);
    ("---", [START]);
    ("---\n", [START; NL]);
    ("--- hello\n", [START; PS "hello"; NL]);
    ("---  hello\n", [START; PS " hello"; NL]);
    ("----", [PS "----"]);
    ("  ---", [PS "---"]);
    ("---value", [PS "---value"]);
    ("-\tvalue\n", [DASH; PS "\tvalue"; NL]);
    ("-  \n", [DASH; PS " "; NL]);
    ("- \n", [DASH; PS ""; NL]);
    ("-  hello world  \n", [DASH; PS " hello world  "; NL]);
    ("-  hello world  ", [DASH; PS " hello world  "]);
    ("-\t\t\n", [DASH; PS "\t\t"; NL]);
    ("- \t foo\t \n", [DASH; PS "\t foo\t "; NL]);
    ("\n\n\n", [NL; NL; NL]);
    ("- hello\n\n\n", [DASH; PS "hello"; NL; NL; NL]);
    ("...", [STOP]);
    ("...\n", [STOP; NL]);
    ("... goodbye\n", [STOP; PS "goodbye"; NL]);
    ("....", [PS "...."]);
    ("  ...", [PS "..."]);
    (" ...", [PS "..."]);
    ("\t...", [PS "\t..."]);
    ("...value", [PS "...value"]);
    ("..", [PS ".."]);
    (".", [PS "."]);
    ("..\n", [PS ".."; NL]);
    (".\n", [PS "."; NL]) ]%string.

Definition indentTestTable : list (string * list Token) :=
  [ (" -", [expect TokenIndent ""; expect TokenDash ""; expect TokenDedent ""]) ]%string.

(** * Notions used in the statements *)

(** [wp m t Q]: from [t] the method [m] returns, and its result and the
    tokenizer it leaves satisfy [Q]. *)
Definition wp {A} (m : M A) (t : Tokenizer) (Q : A -> Tokenizer -> Prop) : Prop :=
  match m t with
  | Val a t' => Q a t'
  | _ => False
  end.

(** The read failures seen so far, and the input still unread. *)
Definition faultsOf (t : Tokenizer) : list error := faults (reader t).
Definition rest (t : Tokenizer) : list rune := pending (reader t).

(** A plain scalar is clean when its value holds no newline. *)
Definition clean (tk : Token) : Prop :=
  Typ tk = TokenPlainScalar -> ~ In r_nl (Value tk).

Definition cleanB (t : Tokenizer) : Prop := Forall clean (tokenBuffer t).

(** Either no read failed, or exactly one did and the result reports it. *)
Definition settled (t : Tokenizer) (r : TokErr) (t' : Tokenizer) : Prop :=
  faultsOf t' = faultsOf t \/
  exists msg, faultsOf t' = faultsOf t ++ [ErrSource msg] /\
              Typ (fst r) = TokenError /\ snd r = Some (ErrSource msg).

(** The iterations [NextToken] still needs from a state. *)
Definition fuelOf (t : Tokenizer) : nat :=
  match tokenBuffer t with
  | [] => List.length (rest t) + 2
  | _ => 1
  end.

(** What one pass through the loop body guarantees. *)
Definition body_post (t : Tokenizer) (f : Flow) (t' : Tokenizer) : Prop :=
  match f with
  | Continue =>
      faultsOf t' = faultsOf t /\ (cleanB t -> cleanB t') /\
      (fuelOf t' < fuelOf t)%nat
  | Return r => (cleanB t -> cleanB t' /\ clean (fst r)) /\ settled t r t'
  end.

(** Forget the debug flag and what was printed. *)
Definition erase (t : Tokenizer) : Tokenizer := set_stdout [] (set_debug false t).

Definition erase_res {A} (r : Res A) : Res A :=
  match r with
  | Val a t => Val a (erase t)
  | Panic msg => Panic msg
  | Spin => Spin
  end.

(** A method is blind to the debug flag when, the flag and the printed
    trace apart, it does the same from two states that agree apart from
    them. *)
Definition blind {A} (m : M A) : Prop :=
  forall t, erase_res (m t) = erase_res (m (erase t)).

(** The error a read returns at the end of the data. *)
Definition endError (r : Reader) : error :=
  match tail r with
  | EndEOF => io_EOF
  | EndFail msg => ErrSource msg
  end.

(** Everything but the reader, the column and the printed trace. *)
Definition same_frame (t t' : Tokenizer) : Prop :=
  line t' = line t /\ status t' = status t /\ debug t' = debug t /\
  indentationLevelStack t' = indentationLevelStack t /\
  tokenBuffer t' = tokenBuffer t /\ tail (reader t') = tail (reader t).

(** A buffered token as [NextToken] returns it: EOF comes with io.EOF. *)
Definition tagEOF (tk : Token) : TokErr :=
  (tk, match Typ tk with TokenEOF => Some io_EOF | _ => None end).

(** The token [pushPerStateEOF] queues for a partial marker. *)
Definition marker (st : tokenStatus) (l c : Z) : list Token :=
  match st with
  | statusOneDash => [mkToken TokenDash (str "-") l (int_wrap (c - 1))]
  | statusTwoDashes => [mkToken TokenPlainScalar (str "--") l (int_wrap (c - 2))]
  | statusThreeDashes => [mkToken TokenDocStart (str "---") l (int_wrap (c - 3))]
  | statusOneDot => [mkToken TokenPlainScalar (str ".") l (int_wrap (c - 1))]
  | statusTwoDots => [mkToken TokenPlainScalar (str "..") l (int_wrap (c - 2))]
  | statusThreeDots => [mkToken TokenDocEnd (str "...") l (int_wrap (c - 3))]
  | _ => []
  end.

(** Everything [pushPerStateEOF] queues, in order. *)
Definition eofQueue (t : Tokenizer) : list Token :=
  marker (status t) (line t) (column t)
  ++ repeat (mkToken TokenDedent [] (line t) (column t))
       (List.length (indentationLevelStack t) - 1)
  ++ [mkToken TokenEOF [] (line t) (column t)].

(** The six states in which a marker is only partly recognised. *)
Definition partial_marker (st : tokenStatus) : bool :=
  match st with
  | statusOneDash | statusTwoDashes | statusThreeDashes
  | statusOneDot | statusTwoDots | statusThreeDots => true
  | _ => false
  end.

(** The tokenizer [t] with a single newline left to read. *)
Definition before_newline (t : Tokenizer) : Tokenizer :=
  set_reader
    (mkReader (lastRune (reader t)) [r_nl] (tail (reader t)) (faults (reader t))) t.

(** Kind, value and line of a token. *)
Definition face (tk : Token) : TokenType * list rune * Z :=
  (Typ tk, Value tk, Line tk).

(** A tokenizer at the start of a line, with [N] newlines and then the
    end of the input ahead. *)
Definition at_newlines (N : nat) (t : Tokenizer) : Prop :=
  status t = statusBlank /\ tokenBuffer t = [] /\ column t = 0 /\
  (List.length (indentationLevelStack t) <= 1)%nat /\
  rest t = repeat r_nl N /\ tail (reader t) = EndEOF.

(** The input has ended outside a partial marker, with nothing buffered
    and no indentation level above the base. *)
Definition at_end (t : Tokenizer) : Prop :=
  partial_marker (status t) = false /\ tokenBuffer t = [] /\
  (List.length (indentationLevelStack t) <= 1)%nat /\
  rest t = [] /\ tail (reader t) = EndEOF.

(** The characters at which collection stops. *)
Definition stops (c : rune) : bool := (c =? r_nl) || (c =? r_hash).

(** The raw run: the characters before the first newline or '#'. *)
Fixpoint raw_run (input : list rune) : list rune :=
  match input with
  | [] => []
  | c :: rs => if stops c then [] else c :: raw_run rs
  end.

(** The run reaches the end of the data. *)
Fixpoint unterminated (input : list rune) : bool :=
  match input with
  | [] => true
  | c :: rs => if stops c then false else unterminated rs
  end.

(** The column counter after [n] more runes. *)
Fixpoint advance (n : nat) (col : Z) : Z :=
  match n with
  | O => col
  | S n' => advance n' (int_wrap (col + 1))
  end.

(** What the specification calls trimming: leading and trailing
    whitespace removed, as Go's [strings.TrimSpace] does (Unicode's
    White_Space).  The tokenizer does not call it; it is here to be
    compared with what the tokenizer emits. *)
Definition is_space (c : rune) : bool :=
  ((9 <=? c) && (c <=? 13)) || (c =? 32) || (c =? 0x85) || (c =? 0xA0)
  || (c =? 0x1680) || ((0x2000 <=? c) && (c <=? 0x200A))
  || (c =? 0x2028) || (c =? 0x2029) || (c =? 0x202F) || (c =? 0x205F)
  || (c =? 0x3000).

Fixpoint trim_left (s : list rune) : list rune :=
  match s with
  | [] => []
  | c :: s' => if is_space c then trim_left s' else s
  end.

Definition TrimSpace (s : list rune) : list rune :=
  rev (trim_left (rev (trim_left s))).

(** ** Further notions: printing of tokens, runs of stack and buffer
    operations, and what the properties of whole inputs are stated with *)

Definition tokenTypeName (ty : TokenType) : list rune :=
  match ty with
  | TokenEOF => str "EOF"
  | TokenError => str "ERROR"
  | TokenDash => str "DASH"
  | TokenPlainScalar => str "PLAIN-SCALAR"
  | TokenNewLine => str "NEWLINE"
  | TokenDocStart => str "DOC-START"
  | TokenDocEnd => str "DOC-END"
  | TokenIndent => str "INDENT"
  | TokenDedent => str "DEDENT"
  end.

(** The method [String] of [Token]: [KIND(value)] for a plain scalar,
    [KIND] otherwise. *)
Definition Token_String (t : Token) : list rune :=
  match Typ t with
  | TokenPlainScalar => tokenTypeName (Typ t) ++ str "(" ++ Value t ++ str ")"
  | _ => tokenTypeName (Typ t)
  end.

(** Push the tokens of a list, first to last. *)
Fixpoint pushAll (ts : list Token) : M unit :=
  match ts with
  | [] => ret tt
  | tk :: ts' => tokenBufferPush tk ;; pushAll ts'
  end.

(** Shift [n] tokens, collecting them in the order they come out. *)
Fixpoint shiftN (n : nat) : M (list Token) :=
  match n with
  | O => ret []
  | S n' => tk <- tokenBufferShift ;; tks <- shiftN n' ;; ret (tk :: tks)
  end.

(** Push the levels of a list, first to last. *)
Fixpoint pushLevels (ls : list Z) : M unit :=
  match ls with
  | [] => ret tt
  | l :: ls' => indentPush l ;; pushLevels ls'
  end.

(** Pop [n] levels, collecting them in the order they come out. *)
Fixpoint popN (n : nat) : M (list Z) :=
  match n with
  | O => ret []
  | S n' => l <- indentPop ;; ls <- popN n' ;; ret (l :: ls)
  end.

(** What was printed while the flag is off (nothing is looked at while
    it is on). *)
Definition printed (t : Tokenizer) : list DebugLine :=
  if debug t then [] else stdout t.

(** What no method but [pushPerStateEOF] and the buffer shift touches:
    the flag, the source's ending, the stack and the buffer; and nothing
    is printed when the flag is off. *)
Definition quiet (t t' : Tokenizer) : Prop :=
  debug t' = debug t /\ tail (reader t') = tail (reader t) /\
  printed t' = printed t /\
  indentationLevelStack t' = indentationLevelStack t /\
  tokenBuffer t' = tokenBuffer t.

(** How much a state weighs on the work still to do. *)
Definition weight (st : tokenStatus) : nat :=
  match st with
  | statusBlank => 0
  | statusAfterDash | statusScalar => 1
  | _ => 2
  end.

(** The work left in the input: three units a rune, and the weight of
    the state. *)
Definition nu (t : Tokenizer) : nat := 3 * List.length (rest t) + weight (status t).

(** The result of a method that stops on a failure of the source. *)
Definition source_failed (t : Tokenizer) (r : TokErr) : Prop :=
  Typ (fst r) = TokenError /\ Line (fst r) = line t /\
  exists msg, snd r = Some (ErrSource msg) /\ tail (reader t) = EndFail msg.

(** The queue of [pushPerStateEOF] for a state, a position and a number
    of levels above the base. *)
Definition queueOf (st : tokenStatus) (l c : Z) (levels : nat) : list Token :=
  marker st l c ++ repeat (mkToken TokenDedent [] l c) levels
  ++ [mkToken TokenEOF [] l c].

(** A token made from the input by one call. *)
Definition progress (t : Tokenizer) (r : TokErr) (t' : Tokenizer) : Prop :=
  tokenBuffer t = [] /\ quiet t t' /\ Line (fst r) = line t /\
  ((snd r = None /\ Typ (fst r) = TokenNewLine /\
    line t' = int_wrap (line t + 1) /\ (nu t' < nu t)%nat)
   \/ (snd r = None /\
       In (Typ (fst r)) [TokenDash; TokenPlainScalar; TokenDocStart; TokenDocEnd] /\
       line t' = line t /\ (nu t' < nu t)%nat)
   \/ (snd r = Some io_EOF /\ Typ (fst r) = TokenEOF /\ line t' = line t /\
       tail (reader t) = EndEOF)
   \/ (source_failed t r /\ line t' = line t)).

(** A token handed out from the buffer. *)
Definition from_buffer (t : Tokenizer) (r : TokErr) (t' : Tokenizer) : Prop :=
  exists buf, tokenBuffer t = fst r :: buf /\ t' = set_buffer buf t /\
              r = tagEOF (fst r).

(** The end of the input was met and its queue started. *)
Definition queue_started (t : Tokenizer) (r : TokErr) (t' : Tokenizer) : Prop :=
  tokenBuffer t = [] /\ tail (reader t) = EndEOF /\
  tail (reader t') = EndEOF /\ rest t' = [] /\
  line t' = line t /\ debug t' = debug t /\ printed t' = printed t /\
  indentationLevelStack t' = firstn 1 (indentationLevelStack t) /\
  r = tagEOF (fst r) /\
  exists st c,
    fst r :: tokenBuffer t'
    = queueOf st (line t) c (List.length (indentationLevelStack t) - 1).

Definition NextToken_does (t : Tokenizer) (r : TokErr) (t' : Tokenizer) : Prop :=
  from_buffer t r t' \/ progress t r t' \/ queue_started t r t'.

Definition body_full (t : Tokenizer) (f : Flow) (t' : Tokenizer) : Prop :=
  match f with
  | Continue =>
      tokenBuffer t = [] /\ line t' = line t /\
      ((quiet t t' /\ (nu t' < nu t)%nat /\
        (List.length (rest t') < List.length (rest t))%nat)
       \/ (tail (reader t) = EndEOF /\ tail (reader t') = EndEOF /\
           rest t' = [] /\ debug t' = debug t /\ printed t' = printed t /\
           indentationLevelStack t' = firstn 1 (indentationLevelStack t) /\
           exists c, tokenBuffer t'
                     = queueOf (status t) (line t) c
                         (List.length (indentationLevelStack t) - 1)))
  | Return r => from_buffer t r t' \/ progress t r t'
  end.

(** The place of the first EOF token in a buffer. *)
Fixpoint eofIndex (buf : list Token) : option nat :=
  match buf with
  | [] => None
  | tk :: buf' =>
      match Typ tk with
      | TokenEOF => Some O
      | _ => option_map S (eofIndex buf')
      end
  end.

(** A bound on the calls of [NextToken] before it returns an error or
    EOF. *)
Definition mu (t : Tokenizer) : nat :=
  match eofIndex (tokenBuffer t) with
  | Some i => i
  | None =>
      List.length (tokenBuffer t) + nu t
      + List.length (indentationLevelStack t) + 2
  end.

Definition isNewLine (r : TokErr) : bool := TokenType_eqb (Typ (fst r)) TokenNewLine.

(** The NewLine tokens among some results. *)
Definition newlines (rs : list TokErr) : nat := List.length (filter isNewLine rs).

(** A buffered token of the line [l] that is no NewLine. *)
Definition on_line (l : Z) (tk : Token) : Prop :=
  Line tk = l /\ Typ tk <> TokenNewLine.

(** A token that is neither Indent nor Dedent. *)
Definition flat (tk : Token) : Prop :=
  Typ tk <> TokenIndent /\ Typ tk <> TokenDedent.

(** What is left of the input after its raw run. *)
Fixpoint run_rest (input : list rune) : list rune :=
  match input with
  | [] => []
  | c :: rs => if stops c then input else run_rest rs
  end.

(** No character of a text stops the collection. *)
Definition plain (text : list rune) : Prop := Forall (fun c => stops c = false) text.

(** A tokenizer at the start of a line, with nothing buffered and the
    input [more], ended by io.EOF, ahead. *)
Definition at_line_start (more : list rune) (t : Tokenizer) : Prop :=
  status t = statusBlank /\ tokenBuffer t = [] /\ column t = 0 /\
  (List.length (indentationLevelStack t) <= 1)%nat /\
  rest t = more /\ tail (reader t) = EndEOF.

(** The line of a block sequence for an item. *)
Definition sequence_line (item : list rune) : list rune :=
  str "- " ++ item ++ [r_nl].

(** Type and value of a result. *)
Definition kind_value (r : TokErr) : TokenType * list rune :=
  (Typ (fst r), Value (fst r)).

(** The tokens of the lines of a block sequence. *)
Definition sequence_tokens (item : list rune)
  : list (TokenType * list rune * option error) :=
  [((TokenDash, str "-"), None);
   ((TokenPlainScalar, string_of_runes item), None);
   ((TokenNewLine, str "\n"), None)].

(** The text read so far in a partial-marker state. *)
Definition marker_text (st : tokenStatus) : list rune :=
  match st with
  | statusOneDash => str "-"
  | statusTwoDashes => str "--"
  | statusThreeDashes => str "---"
  | statusOneDot => str "."
  | statusTwoDots => str ".."
  | statusThreeDots => str "..."
  | _ => []
  end.

(** The characters that have a case of their own in the switch of a
    partial-marker state: they lengthen the marker or end it. *)
Definition continues (st : tokenStatus) (ch : rune) : bool :=
  match st with
  | statusOneDash =>
      (ch =? r_space) || (ch =? r_tab) || (ch =? r_nl) || (ch =? r_dash)
  | statusTwoDashes => (ch =? r_space) || (ch =? r_nl) || (ch =? r_dash)
  | statusThreeDashes => (ch =? r_space) || (ch =? r_nl)
  | statusOneDot | statusTwoDots => (ch =? r_dot) || (ch =? r_nl)
  | statusThreeDots => (ch =? r_space) || (ch =? r_nl)
  | _ => true
  end.

(** The state in which the scalar made of a broken marker leaves the
    tokenizer. *)
Definition after_text (st : tokenStatus) : tokenStatus :=
  match st with
  | statusOneDot | statusTwoDots | statusThreeDots => statusScalar
  | _ => statusBlank
  end.

(** The token of a document marker and the state that stands for its
    text. *)
Definition doc_marker (st : tokenStatus) : TokenType :=
  match st with
  | statusThreeDashes => TokenDocStart
  | _ => TokenDocEnd
  end.

(** A line that opens with a document marker: the marker alone, or the
    marker, one blank and a text. *)
Definition marker_line (st : tokenStatus) (body : option (list rune)) : list rune :=
  marker_text st
  ++ match body with Some text => r_space :: text | None => [] end
  ++ [r_nl].

(** The tokens of such a line. *)
Definition marker_line_tokens (st : tokenStatus) (body : option (list rune))
  : list (TokenType * list rune * option error) :=
  ((doc_marker st, marker_text st), None)
  :: match body with
     | Some text => [((TokenPlainScalar, string_of_runes text), None)]
     | None => []
     end
  ++ [((TokenNewLine, str "\n"), None)].

(** In the AfterDash state the next character is a tab. *)
Definition tab_ahead (t : Tokenizer) : Prop :=
  status t = statusAfterDash -> exists more, rest t = r_tab :: more.

(** A line that opens with a dash not followed by a blank: the dash
    alone, or the dash, a tab and a text. *)
Definition dash_line (body : option (list rune)) : list rune :=
  r_dash
  :: match body with Some text => r_tab :: text | None => [] end
  ++ [r_nl].

(** The tokens of such a line: the tab belongs to the scalar. *)
Definition dash_line_tokens (body : option (list rune))
  : list (TokenType * list rune * option error) :=
  ((TokenDash, str "-"), None)
  :: match body with
     | Some text => [((TokenPlainScalar, string_of_runes (r_tab :: text)), None)]
     | None => []
     end
  ++ [((TokenNewLine, str "\n"), None)].

(** A rune whose UTF-8 encoding is one byte. *)
Definition one_byte (c : rune) : Prop := 0 <= c < 128.

(** * Properties *)

(** ** The package's own tests

    The table of [TestTokenizer] passes on the embedding. *)

Lemma TestTokenizer_passes : forallb runTest tokenizerTestTable = true.
Proof. vm_compute. reflexivity. Qed.

(** ** Arithmetic and encoding facts *)

Lemma int_wrap_small (z : Z) :
  - 2 ^ 63 <= z < 2 ^ 63 -> int_wrap z = z.
Proof.
  intros H. unfold int_wrap.
  rewrite Z.mod_small; lia.
Qed.

Lemma sanitize_ascii (c k : rune) :
  0 <= k < 0x80 -> (sanitize c = k <-> c = k).
Proof.
  intros Hk. unfold sanitize, valid_rune.
  destruct (0 <=? c) eqn:E1; destruct (c <? 0xD800) eqn:E2;
    destruct (0xE000 <=? c) eqn:E3; destruct (c <=? 0x10FFFF) eqn:E4;
    simpl; split; intros; subst; try reflexivity; lia.
Qed.

Lemma sanitize_newline (c : rune) : sanitize c = r_nl <-> c = r_nl.
Proof. apply sanitize_ascii. unfold r_nl. lia. Qed.

Lemma lor_high_bit (k x a : Z) :
  Z.testbit k 7 = true -> Z.testbit a 7 = false -> Z.lor k x <> a.
Proof.
  intros Hk Ha E.
  assert (B : Z.testbit (Z.lor k x) 7 = true)
    by (rewrite Z.lor_spec, Hk; reflexivity).
  rewrite E, Ha in B. discriminate.
Qed.

(** A byte of [Peek] is an ASCII character exactly when the rune is. *)
Lemma lead_byte_ascii (c k : rune) :
  0 <= k < 0x80 -> (lead_byte c =? k) = (c =? k).
Proof.
  intros Hk.
  assert (Hb : Z.testbit k 7 = false).
  { apply Z.bits_above_log2; [lia|].
    destruct (Z.eq_dec k 0) as [->|]; [simpl; lia|].
    apply Z.log2_lt_pow2; lia. }
  unfold lead_byte.
  pose proof (sanitize_ascii c k Hk) as Hs.
  destruct (sanitize c <? 0x80) eqn:E1.
  - destruct (Z.eqb_spec (sanitize c) k), (Z.eqb_spec c k); tauto.
  - assert (c <> k).
    { intros ->. assert (sanitize k = k) by (apply Hs; reflexivity). lia. }
    assert (Hc : (c =? k) = false) by (apply Z.eqb_neq; assumption).
    rewrite Hc.
    destruct (sanitize c <? 0x800); [|destruct (sanitize c <? 0x10000)];
      apply Z.eqb_neq, lor_high_bit; auto.
Qed.

Lemma peek_stops (c : rune) :
  ((lead_byte c =? r_nl) || (lead_byte c =? r_hash))
  = ((c =? r_nl) || (c =? r_hash)).
Proof.
  rewrite !lead_byte_ascii by (unfold r_nl, r_hash; lia). reflexivity.
Qed.

(** ** Total-correctness assertions for the methods *)

Lemma wp_ret {A} (a : A) t (Q : A -> Tokenizer -> Prop) :
  Q a t -> wp (ret a) t Q.
Proof. exact (fun H => H). Qed.

Lemma wp_bind {A B} (m : M A) (f : A -> M B) t (Q : B -> Tokenizer -> Prop) :
  wp m t (fun a t' => wp (f a) t' Q) -> wp (bind m f) t Q.
Proof.
  unfold wp, bind. destruct (m t); auto.
Qed.

Lemma wp_gets {A} (f : Tokenizer -> A) t (Q : A -> Tokenizer -> Prop) :
  Q (f t) t -> wp (gets f) t Q.
Proof. exact (fun H => H). Qed.

Lemma wp_modify (f : Tokenizer -> Tokenizer) t (Q : unit -> Tokenizer -> Prop) :
  Q tt (f t) -> wp (modify f) t Q.
Proof. exact (fun H => H). Qed.

Lemma wp_mono {A} (m : M A) t (Q Q' : A -> Tokenizer -> Prop) :
  wp m t Q -> (forall a t', Q a t' -> Q' a t') -> wp m t Q'.
Proof.
  unfold wp. destruct (m t); auto.
Qed.

Lemma wp_val {A} (m : M A) t (Q : A -> Tokenizer -> Prop) :
  wp m t Q -> exists a t', m t = Val a t' /\ Q a t'.
Proof.
  unfold wp. destruct (m t) as [a t'| |]; try tauto. eauto.
Qed.

Lemma val_wp {A} (m : M A) t a t' (Q : A -> Tokenizer -> Prop) :
  m t = Val a t' -> wp m t Q -> Q a t'.
Proof.
  unfold wp. intros ->. auto.
Qed.

(** ** What one call may do to the reader and the buffer *)

Lemma settled_from t1 t r t' :
  faultsOf t1 = faultsOf t -> settled t1 r t' -> settled t r t'.
Proof. unfold settled. intros <-. auto. Qed.

Lemma clean_other (ty : TokenType) v l c :
  ty <> TokenPlainScalar -> clean (mkToken ty v l c).
Proof. intros H E. simpl in E. contradiction. Qed.

Lemma cleanB_push t tk :
  clean tk -> Forall clean (tokenBuffer t) -> Forall clean (tokenBuffer t ++ [tk]).
Proof. intros. apply Forall_app. auto. Qed.

Lemma readRune_spec caller t :
  wp (readRune caller) t (fun r t' =>
    tokenBuffer t' = tokenBuffer t /\
    ((snd r = None /\ rest t = fst r :: rest t' /\ faultsOf t' = faultsOf t)
     \/ (snd r = Some io_EOF /\ rest t = [] /\ rest t' = []
         /\ faultsOf t' = faultsOf t)
     \/ (exists msg, snd r = Some (ErrSource msg) /\ rest t = [] /\ rest t' = []
         /\ faultsOf t' = faultsOf t ++ [ErrSource msg]))).
Proof.
  unfold wp, readRune, ReadRune, readErr, rest, faultsOf.
  destruct t as [[lr pd tl fs] l c s d st b o]; simpl.
  destruct pd as [|x pd]; [destruct tl|]; destruct d; simpl;
    (split; [reflexivity|]); eauto 10.
Qed.

Lemma peek_spec t :
  wp peek t (fun r t' =>
    tokenBuffer t' = tokenBuffer t /\ rest t' = rest t /\
    ((exists c rs, rest t = c :: rs /\ fst r = lead_byte c /\ snd r = None
                   /\ faultsOf t' = faultsOf t)
     \/ (snd r = Some io_EOF /\ rest t = [] /\ faultsOf t' = faultsOf t)
     \/ (exists msg, snd r = Some (ErrSource msg) /\ rest t = []
         /\ faultsOf t' = faultsOf t ++ [ErrSource msg]))).
Proof.
  unfold wp, peek, Peek1, readErr, rest, faultsOf.
  destruct t as [[lr pd tl fs] l c s d st b o]; simpl.
  destruct pd as [|x pd]; [destruct tl|]; simpl;
    (split; [reflexivity|]); (split; [reflexivity|]); eauto 10.
Qed.

Lemma unreadRune_spec t :
  wp unreadRune t (fun err t' =>
    tokenBuffer t' = tokenBuffer t /\ faultsOf t' = faultsOf t /\
    (err = None \/ err = Some ErrInvalidUnreadRune)).
Proof.
  unfold wp, unreadRune, UnreadRune, faultsOf.
  destruct t as [[lr pd tl fs] l c s d st b o]; simpl.
  destruct lr; simpl; auto.
Qed.

Ltac wp_simpl :=
  unfold returning, set, returnError, returnEOF, returnNewLine, returnDash,
    returnDocStart, returnDocEnd, scalarToken, unreadAndReturnDash, unreadThen,
    tokenBufferPush, indentPush.

Ltac wp_step :=
  lazymatch goal with
  | |- wp (bind _ _) _ _ => apply wp_bind
  | |- wp (ret _) _ _ => apply wp_ret
  | |- wp (gets _) _ _ => apply wp_gets
  | |- wp (modify _) _ _ => apply wp_modify
  end.

Ltac wp_go := wp_simpl; repeat wp_step.

Lemma collectLoop_spec bound : forall scalar t,
  (List.length (rest t) < bound)%nat -> ~ In r_nl scalar ->
  wp (collectLoop bound scalar) t (fun res t' =>
    tokenBuffer t' = tokenBuffer t /\
    match res with
    | inl s => ~ In r_nl s /\ faultsOf t' = faultsOf t
    | inr r => clean (fst r) /\ settled t r t'
    end).
Proof.
  induction bound as [|bound IH]; intros scalar t Hb Hs; [lia|].
  simpl. wp_step.
  eapply wp_mono; [apply peek_spec|].
  intros [pk err] t1 (Hbuf & Hrest & H). simpl in H.
  destruct H as [(c & rs & Hr & -> & -> & Hf)|[(-> & Hr & Hf)|(msg & -> & Hr & Hf)]].
  - rewrite peek_stops.
    destruct ((c =? r_nl) || (c =? r_hash)) eqn:Estop.
    + wp_go. auto.
    + wp_step. eapply wp_mono; [apply readRune_spec|].
      intros [ch err] t2 (Hbuf2 & H2). simpl in H2.
      rewrite Hrest, Hr in H2.
      destruct H2 as [(-> & Hr2 & Hf2)|[(_ & Hr2 & _)|(msg & _ & Hr2 & _)]];
        try discriminate.
      injection Hr2 as <- Hrs.
      eapply wp_mono.
      * apply IH.
        -- rewrite Hr in Hb. rewrite <- Hrs. simpl in Hb. lia.
        -- rewrite in_app_iff. simpl. intros [?|[E|[]]]; [tauto|].
           apply orb_false_iff in Estop. destruct Estop as [E1 _].
           apply Z.eqb_neq in E1. congruence.
      * intros res t3 (Hbuf3 & H3). split; [congruence|].
        destruct res as [s|r].
        -- destruct H3. split; [assumption|congruence].
        -- destruct H3. split; [assumption|].
           eapply settled_from; [|eassumption]. congruence.
  - wp_go. auto.
  - wp_go. simpl. split; [assumption|].
    split; [apply clean_other; discriminate|].
    right. exists msg. simpl. auto.
Qed.

Lemma collectPlainScalar_spec scalar t :
  ~ In r_nl scalar ->
  wp (collectPlainScalar scalar) t (fun r t' =>
    tokenBuffer t' = tokenBuffer t /\ clean (fst r) /\ settled t r t').
Proof.
  intros Hs. unfold collectPlainScalar. wp_go.
  eapply wp_mono; [apply collectLoop_spec; [unfold rest; lia|exact Hs]|].
  intros [s|r] t1 (Hbuf & H).
  - destruct H as [Hc Hf]. wp_go. simpl. split; [assumption|]. split.
    + intros _. simpl. unfold string_of_runes. rewrite in_map_iff.
      intros (c & E & Hin). apply -> sanitize_newline in E. subst c. contradiction.
    + left. assumption.
  - wp_go. tauto.
Qed.

Lemma skipBlanks_spec bound : forall ch t,
  (List.length (rest t) < bound)%nat ->
  wp (skipBlanks bound ch) t (fun res t' =>
    tokenBuffer t' = tokenBuffer t /\
    match res with
    | inl s => ~ In r_nl s /\ faultsOf t' = faultsOf t
    | inr r => clean (fst r) /\ settled t r t'
    end).
Proof.
  induction bound as [|bound IH]; intros ch t Hb; [lia|].
  simpl. destruct (ch =? r_nl) eqn:Enl.
  - wp_go. simpl. split; [reflexivity|].
    split; [apply clean_other; discriminate|left; reflexivity].
  - destruct (ch =? r_space) eqn:Esp; simpl.
    + wp_step. eapply wp_mono; [apply readRune_spec|].
      intros [ch' err] t1 (Hbuf & H). simpl in H.
      destruct H as [(-> & Hr & Hf)|[(-> & Hr & _ & Hf)|(msg & -> & Hr & _ & Hf)]].
      * eapply wp_mono.
        -- apply (IH ch' t1). rewrite Hr in Hb. simpl in Hb. lia.
        -- intros res t2 (Hbuf2 & H2). split; [congruence|].
           destruct res as [s|r]; destruct H2; (split; [assumption|]).
           ++ congruence.
           ++ eapply settled_from; eassumption.
      * wp_go. simpl. split; [assumption|].
        split; [apply clean_other; discriminate|left; assumption].
      * wp_go. simpl. split; [assumption|].
        split; [apply clean_other; discriminate|].
        right. exists msg. simpl. auto.
    + wp_go. split; [reflexivity|]. split; [|reflexivity].
      simpl. apply Z.eqb_neq in Enl. intros [E|[]]. congruence.
Qed.

Lemma removelast_shorter {A} (l : list A) :
  l <> [] -> S (List.length (removelast l)) = List.length l.
Proof.
  destruct l as [|a l]; [contradiction|]. intros H.
  rewrite (app_removelast_last a H) at 2.
  rewrite length_app. simpl. lia.
Qed.

Lemma dedentLoop_spec bound : forall t,
  (List.length (indentationLevelStack t) < bound)%nat ->
  wp (dedentLoop bound) t (fun _ t' =>
    faultsOf t' = faultsOf t /\ rest t' = rest t /\ (cleanB t -> cleanB t')).
Proof.
  induction bound as [|bound IH]; intros t Hb; [lia|].
  simpl. wp_go.
  destruct (1 <? List.length (indentationLevelStack t))%nat eqn:E.
  - apply Nat.ltb_lt in E.
    unfold indentPop. wp_go.
    assert (E' : (List.length (indentationLevelStack t) <=? 1)%nat = false)
      by (apply Nat.leb_gt; assumption).
    rewrite E'. wp_go.
    eapply wp_mono.
    + apply IH. simpl.
      assert (Hne : indentationLevelStack t <> [])
        by (intros Z0; rewrite Z0 in E; simpl in E; lia).
      pose proof (removelast_shorter _ Hne). lia.
    + intros [] t1 (Hf & Hr & Hc). simpl in *.
      repeat split; try assumption.
      intros Hcl. apply Hc. unfold cleanB. simpl.
      apply cleanB_push; [apply clean_other; discriminate|exact Hcl].
  - wp_go. auto.
Qed.

Lemma pushPerStateEOF_spec t :
  wp pushPerStateEOF t (fun _ t' =>
    faultsOf t' = faultsOf t /\ rest t' = rest t /\
    (cleanB t -> cleanB t') /\ tokenBuffer t' <> []).
Proof.
  unfold pushPerStateEOF. wp_go.
  assert (Hpush : forall tk, clean tk ->
    wp (tokenBufferPush tk) t (fun _ t' =>
      faultsOf t' = faultsOf t /\ rest t' = rest t /\ (cleanB t -> cleanB t'))).
  { intros tk Hc. wp_go. repeat split. intros H. unfold cleanB. simpl.
    apply cleanB_push; assumption. }
  assert (Hfirst : wp
    (match status t with
     | statusOneDash =>
         tokenBufferPush (mkToken TokenDash (str "-") (line t) (int_wrap (column t - 1)))
     | statusTwoDashes =>
         tokenBufferPush (mkToken TokenPlainScalar (str "--") (line t) (int_wrap (column t - 2)))
     | statusThreeDashes =>
         tokenBufferPush (mkToken TokenDocStart (str "---") (line t) (int_wrap (column t - 3)))
     | statusOneDot =>
         tokenBufferPush (mkToken TokenPlainScalar (str ".") (line t) (int_wrap (column t - 1)))
     | statusTwoDots =>
         tokenBufferPush (mkToken TokenPlainScalar (str "..") (line t) (int_wrap (column t - 2)))
     | statusThreeDots =>
         tokenBufferPush (mkToken TokenDocEnd (str "...") (line t) (int_wrap (column t - 3)))
     | _ => ret tt
     end) t (fun _ t' =>
      faultsOf t' = faultsOf t /\ rest t' = rest t /\ (cleanB t -> cleanB t'))).
  { destruct (status t);
      try (apply Hpush; first [apply clean_other; discriminate
                              | intros _; simpl; intuition discriminate]);
      wp_go; auto. }
  eapply wp_mono; [exact Hfirst|].
  intros [] t1 (Hf1 & Hr1 & Hc1). wp_go.
  eapply wp_mono; [apply dedentLoop_spec; lia|].
  intros [] t2 (Hf2 & Hr2 & Hc2). wp_go.
  unfold faultsOf, rest in *. simpl.
  split; [congruence|]. split; [congruence|]. split.
  - intros H. unfold cleanB. simpl.
    apply cleanB_push; [apply clean_other; discriminate|]. apply Hc2, Hc1, H.
  - destruct (tokenBuffer t2); discriminate.
Qed.

Ltac wp_auto :=
  repeat first
    [ wp_step
    | lazymatch goal with
      | |- wp (if ?b then _ else _) _ _ => destruct b eqn:?
      | |- wp (collectPlainScalar _) _ _ =>
          eapply wp_mono;
          [apply collectPlainScalar_spec | intros ? ? (? & ? & ?)]
      | |- wp (skipBlanks _ _) _ _ =>
          eapply wp_mono;
          [apply skipBlanks_spec; unfold rest; simpl; lia
          | intros [?|?] ? (? & ? & ?)]
      | |- wp unreadRune _ _ =>
          eapply wp_mono;
          [apply unreadRune_spec | intros ? ? (? & ? & [-> | ->])]
      end ].

Ltac norm_tests :=
  repeat match goal with
    | H : (_ =? _) = false |- _ => apply Z.eqb_neq in H
    | H : (_ =? _) = true |- _ => apply Z.eqb_eq in H
    end.

Ltac solve_settled :=
  first
    [ left; unfold faultsOf; simpl; congruence
    | eapply settled_from; [|eassumption]; unfold faultsOf; simpl; congruence
    | right; eexists; unfold faultsOf; simpl;
      repeat split; try reflexivity; congruence ].

Ltac solve_clean :=
  first
    [ assumption
    | apply clean_other; discriminate
    | intros _; cbv; intuition discriminate ].

Ltac leaf :=
  norm_tests; unfold faultsOf, rest in *; simpl in * |-;
  lazymatch goal with
  | |- ~ In _ _ =>
      simpl; unfold r_nl, r_dash, r_dot in *;
      intuition (try discriminate; try congruence)
  | |- body_post _ Continue _ =>
      unfold body_post, fuelOf, cleanB, faultsOf, rest; simpl;
      split; [congruence|];
      split; [congruence|];
      repeat match goal with
        | H : tokenBuffer ?x = _ |- context [tokenBuffer ?x] => rewrite H
        | H : pending (reader ?x) = _ |- context [pending (reader ?x)] => rewrite H
        end;
      simpl; lia
  | |- body_post _ (Return _) _ =>
      unfold body_post;
      split;
      [intros ?; split; [unfold cleanB in *; simpl; congruence|solve_clean]
      |solve_settled]
  end.

Lemma NextTokenBody_spec t : wp NextTokenBody t (body_post t).
Proof.
  unfold NextTokenBody. wp_go.
  destruct (tokenBuffer t) as [|tk buf] eqn:Ebuf; cbn [List.length Nat.ltb Nat.leb].
  - wp_step. eapply wp_mono; [apply readRune_spec|].
    intros [ch err] t1 (Hbuf & H). simpl in H.
    destruct H as [(-> & Hr & Hf)|[(-> & Hr & Hr1 & Hf)|(msg & -> & Hr & _ & Hf)]].
    + wp_step. wp_step.
      destruct (status t1) eqn:Est; wp_simpl; wp_auto; try leaf.
    + wp_step. eapply wp_mono; [apply pushPerStateEOF_spec|].
      intros [] t2 (Hf2 & Hr2 & Hc2 & Hne). wp_step.
      unfold body_post, fuelOf, cleanB, faultsOf, rest in *.
      split; [congruence|]. split.
      * intros Hc. apply Hc2. rewrite Hbuf. exact Hc.
      * rewrite Ebuf. destruct (tokenBuffer t2); [contradiction|]. lia.
    + wp_go. leaf.
  - unfold tokenBufferShift. wp_go. rewrite Ebuf. wp_go.
    assert (Hpost : forall e,
      body_post t (Return (tk, e)) (set_buffer buf t)).
    { intros e. unfold body_post, cleanB. rewrite Ebuf. simpl. split.
      - intros Hc. inversion Hc; subst. auto.
      - left. reflexivity. }
    destruct (Typ tk); wp_go; apply Hpost.
Qed.

Lemma NextTokenLoop_spec bound : forall t,
  (fuelOf t <= bound)%nat ->
  wp (NextTokenLoop bound) t (fun r t' =>
    (cleanB t -> cleanB t' /\ clean (fst r)) /\ settled t r t').
Proof.
  induction bound as [|bound IH]; intros t Hb.
  - unfold fuelOf in Hb. destruct (tokenBuffer t); lia.
  - simpl. wp_step. eapply wp_mono; [apply NextTokenBody_spec|].
    intros [|r] t1 H; simpl in H.
    + destruct H as (Hf & Hc & Hm).
      eapply wp_mono; [apply IH; lia|].
      intros r t2 (Hc2 & Hs). split.
      * intros H. apply Hc2, Hc, H.
      * eapply settled_from; eassumption.
    + wp_go. exact H.
Qed.

Lemma NextToken_spec t :
  wp NextToken t (fun r t' =>
    (cleanB t -> cleanB t' /\ clean (fst r)) /\ settled t r t').
Proof.
  unfold NextToken. wp_go. apply NextTokenLoop_spec.
  unfold fuelOf, rest. destruct (tokenBuffer t); lia.
Qed.

(** [NextToken] returns from every state: no loop bound of the model is
    reached and no panic is raised. *)
Lemma NextToken_returns t : exists r t', NextToken t = Val r t'.
Proof.
  destruct (wp_val _ _ _ (NextToken_spec t)) as (r & t' & E & _). eauto.
Qed.

(** ** The debug flag *)

Lemma Val_inj {A} (a a' : A) (t t' : Tokenizer) :
  Val a t = Val a' t' -> a = a' /\ t = t'.
Proof. intros H. injection H. auto. Qed.

Lemma erase_idem t : erase (erase t) = erase t.
Proof. reflexivity. Qed.

Lemma blind_ret {A} (a : A) : blind (ret a).
Proof. intros t. reflexivity. Qed.

Lemma blind_panic {A} msg : blind (@panic A msg).
Proof. intros t. reflexivity. Qed.

Lemma blind_spin {A} : blind (@spin A).
Proof. intros t. reflexivity. Qed.

Lemma blind_same {A} (m : M A) t1 t2 :
  blind m -> erase t1 = erase t2 -> erase_res (m t1) = erase_res (m t2).
Proof.
  intros Hm E. rewrite (Hm t1), (Hm t2), E. reflexivity.
Qed.

Lemma blind_bind {A B} (m : M A) (f : A -> M B) :
  blind m -> (forall a, blind (f a)) -> blind (bind m f).
Proof.
  intros Hm Hf t. unfold bind.
  specialize (Hm t).
  destruct (m t) as [a t1| |], (m (erase t)) as [a' t1'| |];
    simpl in Hm; try discriminate; try reflexivity.
  - apply Val_inj in Hm. destruct Hm as [<- E].
    apply blind_same; [apply Hf|exact E].
  - simpl. injection Hm as ->. reflexivity.
Qed.

Lemma blind_gets {A} (f : Tokenizer -> A) :
  (forall t, f (erase t) = f t) -> blind (gets f).
Proof. intros H t. unfold gets. rewrite H. reflexivity. Qed.

Lemma blind_modify (f : Tokenizer -> Tokenizer) :
  (forall t, erase (f (erase t)) = erase (f t)) -> blind (modify f).
Proof. intros H t. unfold modify. simpl. rewrite H. reflexivity. Qed.

Lemma blind_readRune caller : blind (readRune caller).
Proof.
  intros [r l c s d st b o]. unfold readRune. simpl.
  destruct (ReadRune r) as [[ch err] r']. simpl.
  destruct d, err; reflexivity.
Qed.

Lemma blind_unreadRune : blind unreadRune.
Proof.
  intros [r l c s d st b o]. unfold unreadRune. simpl.
  destruct (UnreadRune r) as [err r']. destruct err; reflexivity.
Qed.

Lemma blind_peek : blind peek.
Proof.
  intros [r l c s d st b o]. unfold peek. simpl.
  destruct (Peek1 r) as [[pk err] r']. reflexivity.
Qed.

Ltac blind_step :=
  lazymatch goal with
  | |- blind (bind _ _) => apply blind_bind; [|intros ?]
  | |- blind (ret _) => apply blind_ret
  | |- blind (panic _) => apply blind_panic
  | |- blind spin => apply blind_spin
  | |- blind (gets _) => apply blind_gets; intros []; reflexivity
  | |- blind (modify _) => apply blind_modify; intros []; reflexivity
  | |- blind (readRune _) => apply blind_readRune
  | |- blind unreadRune => apply blind_unreadRune
  | |- blind peek => apply blind_peek
  | |- blind (if ?b then _ else _) => destruct b
  | |- blind (match ?x with _ => _ end) => destruct x
  end.

Ltac blind_go := wp_simpl; repeat blind_step.

Lemma blind_collectLoop bound : forall scalar, blind (collectLoop bound scalar).
Proof.
  induction bound as [|bound IH]; intros scalar; simpl; blind_go. apply IH.
Qed.

Lemma blind_collectPlainScalar scalar : blind (collectPlainScalar scalar).
Proof.
  unfold collectPlainScalar. blind_step; [blind_step|].
  blind_step; [apply blind_collectLoop|]. blind_go.
Qed.

Lemma blind_skipBlanks bound : forall ch, blind (skipBlanks bound ch).
Proof.
  induction bound as [|bound IH]; intros ch; simpl; blind_go. apply IH.
Qed.

Lemma blind_indentPop : blind indentPop.
Proof. unfold indentPop. blind_go. Qed.

Lemma blind_dedentLoop bound : blind (dedentLoop bound).
Proof.
  induction bound as [|bound IH]; simpl; [apply blind_spin|].
  blind_step; [blind_step|]. blind_step; [|blind_step].
  blind_step; [apply blind_indentPop|]. blind_go. apply IH.
Qed.

Lemma blind_pushPerStateEOF : blind pushPerStateEOF.
Proof.
  unfold pushPerStateEOF.
  do 3 (blind_step; [blind_step|]).
  blind_step; [blind_go|].
  blind_step; [blind_step|].
  blind_step; [apply blind_dedentLoop|]. blind_go.
Qed.

Lemma blind_NextTokenBody : blind NextTokenBody.
Proof.
  unfold NextTokenBody, tokenBufferShift. wp_simpl.
  repeat first
    [ apply blind_pushPerStateEOF
    | apply blind_collectPlainScalar
    | apply blind_skipBlanks
    | blind_step
    | progress wp_simpl ].
Qed.

Lemma blind_NextTokenLoop bound : blind (NextTokenLoop bound).
Proof.
  induction bound as [|bound IH]; simpl; [apply blind_spin|].
  blind_step; [apply blind_NextTokenBody|].
  blind_step; [apply IH|apply blind_ret].
Qed.

Lemma blind_NextToken : blind NextToken.
Proof.
  unfold NextToken. blind_step; [blind_step|]. apply blind_NextTokenLoop.
Qed.

Lemma calls_erase n : forall t1 t2,
  erase t1 = erase t2 -> calls n t1 = calls n t2.
Proof.
  induction n as [|n IH]; intros t1 t2 E; [reflexivity|].
  simpl. pose proof (blind_same NextToken t1 t2 blind_NextToken E) as H.
  destruct (NextToken t1) as [r1 u1| |], (NextToken t2) as [r2 u2| |];
    simpl in H; try discriminate; try reflexivity.
  apply Val_inj in H. destruct H as [<- E']. f_equal. apply IH. exact E'.
Qed.

(** C8. For every input (and whatever the source answers at its end) the
    results of the first [n] calls of [NextToken] -- token kinds, values,
    lines, columns and the error returned with each -- are the same for a
    tokenizer created with the debug flag set and for one created without
    it, for every [n]. *)
Theorem debug_flag_does_not_change_tokens :
  forall (input : list rune) (fin : source_end) (n : nat),
    calls n (NewTokenizer input fin true) = calls n (NewTokenizer input fin false).
Proof.
  intros input fin n. apply calls_erase. reflexivity.
Qed.

(** ** Exact effects of the reader methods *)

Lemma readRune_exact caller t :
  wp (readRune caller) t (fun r t' =>
    same_frame t t' /\
    match rest t with
    | c :: rs => r = (c, None) /\ rest t' = rs /\
                 column t' = int_wrap (column t + 1)
    | [] => r = (0, Some (endError (reader t))) /\ rest t' = [] /\
            column t' = column t
    end).
Proof.
  unfold wp, readRune, ReadRune, readErr, endError, rest, same_frame.
  destruct t as [[lr pd tl fs] l c s d st b o]; simpl.
  destruct pd as [|x pd]; [destruct tl|]; destruct d; simpl; tauto.
Qed.

Lemma peek_exact t :
  wp peek t (fun r t' =>
    same_frame t t' /\ rest t' = rest t /\ column t' = column t /\
    r = match rest t with
        | c :: _ => (lead_byte c, None)
        | [] => (0, Some (endError (reader t)))
        end).
Proof.
  unfold wp, peek, Peek1, readErr, endError, rest, same_frame.
  destruct t as [[lr pd tl fs] l c s d st b o]; simpl.
  destruct pd as [|x pd]; [destruct tl|]; simpl; tauto.
Qed.

(** ** Buffered tokens are handed out first *)

Lemma wp_eq {A} (m : M A) t (a0 : A) (t0 : Tokenizer) :
  wp m t (fun a t' => a = a0 /\ t' = t0) -> m t = Val a0 t0.
Proof.
  unfold wp. destruct (m t); try tauto. intros [-> ->]. reflexivity.
Qed.

Lemma NextToken_buffered t tk buf :
  tokenBuffer t = tk :: buf -> NextToken t = Val (tagEOF tk) (set_buffer buf t).
Proof.
  intros E. apply wp_eq.
  unfold NextToken. wp_go. cbn [NextTokenLoop]. wp_step.
  unfold NextTokenBody, tokenBufferShift. wp_go. rewrite E.
  cbn [List.length Nat.ltb Nat.leb]. wp_go. rewrite E. wp_go.
  unfold tagEOF. destruct (Typ tk); wp_go; auto.
Qed.

Lemma calls_buffered buf : forall t,
  tokenBuffer t = buf -> calls (List.length buf) t = map tagEOF buf.
Proof.
  induction buf as [|tk buf IH]; intros t E; [reflexivity|].
  simpl. rewrite (NextToken_buffered t tk buf E). f_equal. apply IH. reflexivity.
Qed.

Lemma calls_first n t r t' :
  NextToken t = Val r t' -> calls (S n) t = r :: calls n t'.
Proof. intros E. simpl. rewrite E. reflexivity. Qed.

(** ** End of input *)

Lemma dedentLoop_exact bound : forall t,
  (List.length (indentationLevelStack t) < bound)%nat ->
  wp (dedentLoop bound) t (fun _ t' =>
    line t' = line t /\ column t' = column t /\
    tokenBuffer t' =
      tokenBuffer t ++ repeat (mkToken TokenDedent [] (line t) (column t))
                         (List.length (indentationLevelStack t) - 1)).
Proof.
  induction bound as [|bound IH]; intros t Hb; [lia|].
  simpl. wp_go.
  destruct (1 <? List.length (indentationLevelStack t))%nat eqn:E.
  - apply Nat.ltb_lt in E.
    unfold indentPop. wp_go.
    assert (E' : (List.length (indentationLevelStack t) <=? 1)%nat = false)
      by (apply Nat.leb_gt; assumption).
    rewrite E'. wp_go.
    assert (Hne : indentationLevelStack t <> [])
      by (intros Z0; rewrite Z0 in E; simpl in E; lia).
    pose proof (removelast_shorter _ Hne) as Hlen.
    eapply wp_mono.
    + apply IH. simpl. lia.
    + intros [] t1 (Hl & Hc & Hbuf). simpl in *.
      split; [assumption|]. split; [assumption|].
      rewrite Hbuf, <- app_assoc. f_equal.
      replace (List.length (indentationLevelStack t) - 1)%nat
        with (S (List.length (removelast (indentationLevelStack t)) - 1))%nat
        by lia.
      reflexivity.
  - wp_go. apply Nat.ltb_ge in E.
    replace (List.length (indentationLevelStack t) - 1)%nat with 0%nat by lia.
    simpl. rewrite app_nil_r. auto.
Qed.

Lemma pushPerStateEOF_exact t :
  wp pushPerStateEOF t (fun _ t' =>
    tokenBuffer t' = tokenBuffer t ++ eofQueue t).
Proof.
  unfold pushPerStateEOF. wp_go.
  assert (Hfirst : wp
    (match status t with
     | statusOneDash =>
         tokenBufferPush (mkToken TokenDash (str "-") (line t) (int_wrap (column t - 1)))
     | statusTwoDashes =>
         tokenBufferPush (mkToken TokenPlainScalar (str "--") (line t) (int_wrap (column t - 2)))
     | statusThreeDashes =>
         tokenBufferPush (mkToken TokenDocStart (str "---") (line t) (int_wrap (column t - 3)))
     | statusOneDot =>
         tokenBufferPush (mkToken TokenPlainScalar (str ".") (line t) (int_wrap (column t - 1)))
     | statusTwoDots =>
         tokenBufferPush (mkToken TokenPlainScalar (str "..") (line t) (int_wrap (column t - 2)))
     | statusThreeDots =>
         tokenBufferPush (mkToken TokenDocEnd (str "...") (line t) (int_wrap (column t - 3)))
     | _ => ret tt
     end) t (fun _ t' =>
      line t' = line t /\ column t' = column t /\
      indentationLevelStack t' = indentationLevelStack t /\
      tokenBuffer t' = tokenBuffer t ++ marker (status t) (line t) (column t))).
  { destruct (status t); wp_go; simpl; rewrite ?app_nil_r; auto. }
  eapply wp_mono; [exact Hfirst|].
  intros [] t1 (Hl1 & Hc1 & Hs1 & Hb1). wp_go.
  eapply wp_mono; [apply dedentLoop_exact; lia|].
  intros [] t2 (Hl2 & Hc2 & Hb2). wp_go. simpl.
  unfold eofQueue. rewrite Hb2, Hb1, Hl2, Hc2, Hl1, Hc1, Hs1.
  rewrite <- !app_assoc. reflexivity.
Qed.

(** At the end of the input, with nothing buffered, [NextToken] queues
    [eofQueue] and hands out its first token. *)
Lemma NextToken_at_EOF t :
  tokenBuffer t = [] -> rest t = [] -> tail (reader t) = EndEOF ->
  wp NextToken t (fun r t' =>
    exists tk, r = tagEOF tk /\ eofQueue t = tk :: tokenBuffer t').
Proof.
  intros Hbuf Hrest Htail.
  unfold NextToken. wp_go. unfold rest in Hrest. rewrite Hrest.
  cbn [List.length NextTokenLoop]. wp_step.
  unfold NextTokenBody at 1. wp_go. rewrite Hbuf.
  cbn [List.length Nat.ltb Nat.leb]. wp_step.
  eapply wp_mono; [apply readRune_exact|].
  intros r t1 (Hfr & H). unfold rest in H. rewrite Hrest in H.
  destruct H as (-> & Hr1 & Hc1). unfold endError. rewrite Htail.
  destruct Hfr as (Hl & Hs & _ & Hst & Hb & _).
  wp_step. eapply wp_mono; [apply pushPerStateEOF_exact|].
  intros [] t2 Hb2. wp_step.
  assert (Hq : eofQueue t1 = eofQueue t)
    by (unfold eofQueue; rewrite Hl, Hs, Hst, Hc1; reflexivity).
  rewrite Hb, Hbuf, Hq in Hb2. simpl in Hb2.
  destruct (eofQueue t) as [|tk q] eqn:Eq.
  { unfold eofQueue in Eq.
    destruct (marker (status t) (line t) (column t)); [|discriminate].
    destruct (repeat _ _); discriminate. }
  wp_step. unfold NextTokenBody, tokenBufferShift. wp_go. rewrite Hb2.
  cbn [List.length Nat.ltb Nat.leb]. wp_go. rewrite Hb2. wp_go.
  assert (Hpost : forall e, (tk, e) = tagEOF tk ->
    exists tk0, (tk, e) = tagEOF tk0 /\ tk :: q = tk0 :: tokenBuffer (set_buffer q t2)).
  { intros e He. exists tk. auto. }
  unfold tagEOF in Hpost.
  destruct (Typ tk); wp_go; apply Hpost; reflexivity.
Qed.

Lemma runes_eqb_refl (a : list rune) : runes_eqb a a = true.
Proof.
  induction a as [|x a IH]; [reflexivity|].
  simpl. rewrite Z.eqb_refl. exact IH.
Qed.

Lemma TokenEqual_face (a b : Token) : face a = face b -> TokenEqual a b = true.
Proof.
  unfold face, TokenEqual. intros H. injection H as Ht Hv _.
  rewrite Ht, Hv. destruct (Typ b); simpl; try reflexivity.
  apply runes_eqb_refl.
Qed.

Lemma newline_transition t :
  tokenBuffer t = [] -> partial_marker (status t) = true ->
  exists tk t', NextToken (before_newline t) = Val (tk, None) t' /\
    map face (marker (status t) (line t) (column t)) = [face tk].
Proof.
  destruct t as [[lr pd tl fs] l c s d st b o]. simpl. intros -> Hs.
  destruct s; try discriminate; destruct d;
    (eexists; eexists; split; [reflexivity|]); reflexivity.
Qed.

(** C5. If the input ends (the source answers io.EOF and nothing is
    buffered) while the tokenizer is in OneDash, TwoDashes, ThreeDashes,
    OneDot, TwoDots or ThreeDots, the next calls of NextToken deliver, in
    this order: first Dash, PlainScalar("--"), DocStart, PlainScalar("."),
    PlainScalar("..") or DocEnd respectively, which has the kind, value
    and line of the token that reading a newline in that state returns
    (the two are equal tokens for TokenEqual);
    then one Dedent for every indentation level above the base; then
    EOF together with io.EOF.  In particular the input "---" yields
    DocStart and then EOF. *)
Theorem eof_resolves_partial_marker (t : Tokenizer) :
  tokenBuffer t = [] -> rest t = [] -> tail (reader t) = EndEOF ->
  partial_marker (status t) = true ->
  let levels := (List.length (indentationLevelStack t) - 1)%nat in
  exists tk,
    calls (S (levels + 1)) t
    = (tk, None)
      :: repeat (mkToken TokenDedent [] (line t) (column t), None) levels
      ++ [(mkToken TokenEOF [] (line t) (column t), Some io_EOF)]
    /\ (Typ tk, Value tk)
       = match status t with
         | statusOneDash => (TokenDash, str "-")
         | statusTwoDashes => (TokenPlainScalar, str "--")
         | statusThreeDashes => (TokenDocStart, str "---")
         | statusOneDot => (TokenPlainScalar, str ".")
         | statusTwoDots => (TokenPlainScalar, str "..")
         | statusThreeDots => (TokenDocEnd, str "...")
         | _ => (Typ tk, Value tk)
         end
    /\ (exists tk' t', NextToken (before_newline t) = Val (tk', None) t'
                       /\ face tk' = face tk /\ TokenEqual tk' tk = true)
    /\ map (fun r => (Typ (fst r), snd r))
         (calls 2 (NewTokenizer (str "---") EndEOF false))
       = [(TokenDocStart, None); (TokenEOF, Some io_EOF)].
Proof.
  intros Hbuf Hrest Htail Hpm levels.
  destruct (wp_val _ _ _ (NextToken_at_EOF t Hbuf Hrest Htail))
    as (r & t' & E & tk & -> & Hq).
  destruct (newline_transition t Hbuf Hpm) as (tk' & t'' & En & Hface).
  assert (Hm : marker (status t) (line t) (column t) = [tk] /\
               tokenBuffer t'
               = repeat (mkToken TokenDedent [] (line t) (column t)) levels
                 ++ [mkToken TokenEOF [] (line t) (column t)]).
  { unfold eofQueue in Hq. fold levels in Hq.
    destruct (status t); try discriminate; simpl in Hq;
      injection Hq as <- <-; split; reflexivity. }
  destruct Hm as [Hm Hb'].
  exists tk. split; [|split; [|split]].
  - rewrite (calls_first _ _ _ _ E).
    assert (Htag : tagEOF tk = (tk, None)).
    { unfold tagEOF. destruct (status t); try discriminate;
        simpl in Hm; injection Hm as <-; reflexivity. }
    rewrite Htag. f_equal.
    replace (levels + 1)%nat with (List.length (tokenBuffer t'))
      by (rewrite Hb', length_app, repeat_length; reflexivity).
    rewrite (calls_buffered _ t' eq_refl), Hb', map_app, map_repeat.
    reflexivity.
  - destruct (status t); try discriminate;
      simpl in Hm; injection Hm as <-; reflexivity.
  - exists tk', t''. split; [exact En|].
    rewrite Hm in Hface. simpl in Hface.
    assert (Hf : face tk' = face tk) by congruence.
    split; [exact Hf|apply TokenEqual_face; exact Hf].
  - vm_compute. reflexivity.
Qed.

Lemma eof_resolves_partial_marker_witness :
  let t := mkTokenizer (mkReader None [] EndEOF []) 1 3 statusThreeDashes
             false [0; 2] [] [] in
  exists tk,
    calls 3 t
    = [(tk, None); (mkToken TokenDedent [] 1 3, None);
       (mkToken TokenEOF [] 1 3, Some io_EOF)]
    /\ (Typ tk, Value tk) = (TokenDocStart, str "---").
Proof.
  intros t.
  destruct (eof_resolves_partial_marker t eq_refl eq_refl eq_refl eq_refl)
    as (tk & Hcalls & Hkind & _).
  exists tk. split; [exact Hcalls|exact Hkind].
Defined.

(** ** Newlines *)

Lemma NextToken_newline N t :
  at_newlines (S N) t ->
  exists t', NextToken t
             = Val (mkToken TokenNewLine (str "\n") (line t) 1, None) t' /\
             at_newlines N t' /\ line t' = int_wrap (line t + 1).
Proof.
  intros (Hs & Hb & Hc & Hst & Hr & Ht).
  assert (W : wp NextToken t (fun r t' =>
    r = (mkToken TokenNewLine (str "\n") (line t) 1, None) /\
    at_newlines N t' /\ line t' = int_wrap (line t + 1))).
  { unfold NextToken. wp_go. unfold rest in Hr. rewrite Hr.
    cbn [List.length repeat NextTokenLoop]. wp_step.
    unfold NextTokenBody. wp_go. rewrite Hb.
    cbn [List.length Nat.ltb Nat.leb]. wp_step.
    eapply wp_mono; [apply readRune_exact|].
    intros r t1 (Hfr & H). unfold rest in H. rewrite Hr in H. simpl in H.
    destruct H as (-> & Hr1 & Hc1).
    destruct Hfr as (Hl & Hs1 & _ & Hst1 & Hb1 & Ht1).
    wp_go. rewrite Hs1, Hs. change (r_nl =? r_space) with false.
    change (r_nl =? r_nl) with true. cbn iota. wp_go. simpl.
    rewrite Hc1, Hc, Hl. split; [reflexivity|]. split; [|reflexivity].
    unfold at_newlines, rest. simpl. rewrite Hs1, Hb1, Hst1, Ht1.
    repeat split; assumption. }
  destruct (wp_val _ _ _ W) as (r & t' & E & -> & H1 & H2). eauto.
Qed.

Lemma NextToken_no_more t :
  at_newlines 0 t ->
  exists t', NextToken t
             = Val (mkToken TokenEOF [] (line t) 0, Some io_EOF) t'.
Proof.
  intros (Hs & Hb & Hc & Hst & Hr & Ht).
  destruct (wp_val _ _ _ (NextToken_at_EOF t Hb Hr Ht))
    as (r & t' & E & tk & -> & Hq).
  exists t'. rewrite E. f_equal.
  unfold eofQueue in Hq. rewrite Hs, Hc in Hq.
  replace (List.length (indentationLevelStack t) - 1)%nat with 0%nat in Hq by lia.
  simpl in Hq. injection Hq as <- _. reflexivity.
Qed.

Lemma calls_newlines_kinds N : forall t,
  at_newlines N t ->
  map (fun r => (Typ (fst r), snd r)) (calls (S N) t)
  = repeat (TokenNewLine, None) N ++ [(TokenEOF, Some io_EOF)].
Proof.
  induction N as [|N IH]; intros t H.
  - destruct (NextToken_no_more t H) as (t' & E).
    rewrite (calls_first _ _ _ _ E). reflexivity.
  - destruct (NextToken_newline N t H) as (t' & E & H' & _).
    rewrite (calls_first _ _ _ _ E). cbn [map repeat app fst snd Typ].
    f_equal. apply IH. exact H'.
Qed.

Lemma after_newlines i : forall N t,
  at_newlines N t -> (i <= N)%nat -> at_newlines (N - i) (after i t).
Proof.
  induction i as [|i IH]; intros N t H Hi.
  - rewrite Nat.sub_0_r. exact H.
  - destruct N as [|N]; [lia|].
    destruct (NextToken_newline N t H) as (t' & E & H' & _).
    simpl after. rewrite E. apply IH; [exact H'|lia].
Qed.

Lemma calls_newlines_lines N : forall t,
  at_newlines N t -> - 2 ^ 63 <= line t -> line t + Z.of_nat N < 2 ^ 63 ->
  calls (S N) t
  = map (fun i => (mkToken TokenNewLine (str "\n") (line t + Z.of_nat i) 1, None))
      (seq 0 N)
    ++ [(mkToken TokenEOF [] (line t + Z.of_nat N) 0, Some io_EOF)].
Proof.
  induction N as [|N IH]; intros t H Hlo Hhi.
  - destruct (NextToken_no_more t H) as (t' & E).
    rewrite (calls_first _ _ _ _ E). simpl. rewrite Z.add_0_r. reflexivity.
  - destruct (NextToken_newline N t H) as (t' & E & H' & Hl).
    rewrite int_wrap_small in Hl by lia.
    rewrite (calls_first _ _ _ _ E).
    rewrite (IH t' H') by lia.
    cbn [seq map app]. rewrite Z.add_0_r. f_equal.
    rewrite <- seq_shift, map_map, Hl. f_equal.
    + apply map_ext. intros i. do 2 f_equal. lia.
    + do 3 f_equal. lia.
Qed.

(** C9. For every [N], an input of exactly [N] newline characters (then
    end of input) produces exactly [N] NewLine tokens followed by EOF with
    io.EOF; after each NewLine the column counter is 0; and, [N] being
    within the range of Go's int, the i-th NewLine token is on line i
    (counted from 1) at column 1 and EOF is on line N+1 at column 0. *)
Theorem newlines_only (N : nat) (dbg : bool) :
  let t0 := NewTokenizer (repeat r_nl N) EndEOF dbg in
  map (fun r => (Typ (fst r), snd r)) (calls (S N) t0)
  = repeat (TokenNewLine, None) N ++ [(TokenEOF, Some io_EOF)]
  /\ (forall i, (1 <= i <= N)%nat -> column (after i t0) = 0)
  /\ (Z.of_nat N < 2 ^ 63 - 1 ->
      calls (S N) t0
      = map (fun i => (mkToken TokenNewLine (str "\n") (1 + Z.of_nat i) 1, None))
          (seq 0 N)
        ++ [(mkToken TokenEOF [] (1 + Z.of_nat N) 0, Some io_EOF)]).
Proof.
  intros t0.
  assert (H0 : at_newlines N t0).
  { unfold at_newlines, t0, rest. simpl. repeat split; lia. }
  split; [|split].
  - apply calls_newlines_kinds. exact H0.
  - intros i Hi. destruct (after_newlines i N t0 H0) as (_ & _ & Hc & _); [lia|].
    exact Hc.
  - intros HN. apply (calls_newlines_lines N t0 H0); change (line t0) with 1; lia.
Qed.

Lemma newlines_only_witness :
  Z.of_nat 3 < 2 ^ 63 - 1 /\
  calls 4 (NewTokenizer (repeat r_nl 3) EndEOF false)
  = [(mkToken TokenNewLine (str "\n") 1 1, None);
     (mkToken TokenNewLine (str "\n") 2 1, None);
     (mkToken TokenNewLine (str "\n") 3 1, None);
     (mkToken TokenEOF [] 4 0, Some io_EOF)].
Proof.
  assert (H : Z.of_nat 3 < 2 ^ 63 - 1) by (simpl; lia).
  split; [exact H|].
  destruct (newlines_only 3 false) as (_ & _ & Hlines).
  exact (Hlines H).
Defined.

(** ** Plain scalars begun in the Blank state *)

Lemma collectLoop_run bound : forall scalar t,
  (List.length (rest t) < bound)%nat ->
  (unterminated (rest t) = true -> tail (reader t) = EndEOF) ->
  wp (collectLoop bound scalar) t (fun res t' =>
    res = inl (scalar ++ raw_run (rest t))).
Proof.
  induction bound as [|bound IH]; intros scalar t Hb Hend; [lia|].
  simpl. wp_step.
  eapply wp_mono; [apply peek_exact|].
  intros r t1 (Hfr & Hr1 & _ & ->).
  destruct (rest t) as [|c rs] eqn:Er.
  - unfold endError. rewrite (Hend eq_refl). wp_go. rewrite app_nil_r. reflexivity.
  - rewrite peek_stops. simpl raw_run. simpl in Hend. unfold stops in *.
    destruct ((c =? r_nl) || (c =? r_hash)) eqn:Estop.
    + wp_go. rewrite app_nil_r. reflexivity.
    + wp_step. eapply wp_mono; [apply readRune_exact|].
      intros r t2 (Hfr2 & H2). rewrite Hr1 in H2.
      destruct H2 as (-> & Hr2 & _).
      eapply wp_mono.
      * apply IH.
        -- rewrite Hr2. simpl in Hb. lia.
        -- rewrite Hr2. intros Hu.
           destruct Hfr2 as (_ & _ & _ & _ & _ & ->).
           destruct Hfr as (_ & _ & _ & _ & _ & ->). auto.
      * intros res t3 ->. rewrite Hr2, <- app_assoc. reflexivity.
Qed.

Lemma collectPlainScalar_run scalar t :
  (unterminated (rest t) = true -> tail (reader t) = EndEOF) ->
  wp (collectPlainScalar scalar) t (fun r t' =>
    Typ (fst r) = TokenPlainScalar /\
    Value (fst r) = string_of_runes (scalar ++ raw_run (rest t)) /\
    snd r = None).
Proof.
  intros Hend. unfold collectPlainScalar. wp_go.
  eapply wp_mono; [apply collectLoop_run; [unfold rest; lia|exact Hend]|].
  intros res t1 ->. wp_go. simpl. auto.
Qed.

Lemma NextTokenLoop_blank_scalar c more spaces : forall bound t,
  status t = statusBlank -> tokenBuffer t = [] ->
  rest t = spaces ++ c :: more ->
  Forall (fun s => s = r_space) spaces ->
  c <> r_space -> c <> r_nl ->
  (c = r_dash \/ c = r_dot -> advance (S (List.length spaces)) (column t) <> 1) ->
  (unterminated more = true -> tail (reader t) = EndEOF) ->
  (List.length spaces < bound)%nat ->
  wp (NextTokenLoop bound) t (fun r t' =>
    Typ (fst r) = TokenPlainScalar /\
    Value (fst r) = string_of_runes (c :: raw_run more) /\
    snd r = None).
Proof.
  induction spaces as [|s spaces IH]; intros bound t Hs Hb Hr Hsp Hc1 Hc2 Hcol Hend Hbound;
    (destruct bound as [|bound]; [simpl in Hbound; lia|]);
    cbn [NextTokenLoop]; wp_step;
    unfold NextTokenBody; wp_go; rewrite Hb;
    cbn [List.length Nat.ltb Nat.leb]; wp_step;
    (eapply wp_mono; [apply readRune_exact|]);
    intros r t1 (Hfr & H); rewrite Hr in H; simpl in H;
    destruct H as (-> & Hr1 & Hcol1);
    destruct Hfr as (Hl & Hs1 & _ & Hst1 & Hb1 & Ht1);
    wp_go; rewrite Hs1, Hs.
  - apply Z.eqb_neq in Hc1, Hc2. rewrite Hc1, Hc2.
    assert (Hrun : wp (returning (collectPlainScalar [c])) t1 (fun f t' =>
      wp match f with
         | Continue => NextTokenLoop bound
         | Return r => ret r
         end t' (fun r _ =>
           Typ (fst r) = TokenPlainScalar /\
           Value (fst r) = string_of_runes (c :: raw_run more) /\
           snd r = None))).
    { unfold returning. wp_step. eapply wp_mono.
      - apply collectPlainScalar_run. rewrite Hr1, Ht1. exact Hend.
      - intros r t2 H. rewrite Hr1 in H. wp_go. exact H. }
    simpl in Hcol. rewrite <- Hcol1 in Hcol.
    destruct (c =? r_dash) eqn:Ed; [|destruct (c =? r_dot) eqn:Edot].
    + apply Z.eqb_eq in Ed. wp_go.
      destruct (column t1 =? 1) eqn:E1; [|exact Hrun].
      apply Z.eqb_eq in E1. tauto.
    + apply Z.eqb_eq in Edot. wp_go.
      destruct (column t1 =? 1) eqn:E1; [|exact Hrun].
      apply Z.eqb_eq in E1. tauto.
    + exact Hrun.
  - inversion Hsp as [|? ? Hs0 Hsp']; subst.
    change (r_space =? r_space) with true. cbn iota. wp_go.
    apply IH; try assumption.
    + congruence.
    + congruence.
    + rewrite Hcol1. exact Hcol.
    + rewrite Ht1. exact Hend.
    + simpl in Hbound. lia.
Qed.

(** C3, as the code has it.  A plain scalar begun directly from the Blank
    state is emitted verbatim: the spaces in front of it are skipped in
    Blank and are not part of the run, and the value is the first other
    character followed by every character up to the next newline, '#' or
    end of input -- tabs, inner and trailing whitespace included. *)
Theorem blank_scalar_is_verbatim
  (t : Tokenizer) (spaces : list rune) (c : rune) (more : list rune) :
  status t = statusBlank -> tokenBuffer t = [] ->
  rest t = spaces ++ c :: more ->
  Forall (fun s => s = r_space) spaces ->
  c <> r_space -> c <> r_nl ->
  (c = r_dash \/ c = r_dot -> advance (S (List.length spaces)) (column t) <> 1) ->
  (unterminated more = true -> tail (reader t) = EndEOF) ->
  exists tk t', NextToken t = Val (tk, None) t' /\
    Typ tk = TokenPlainScalar /\
    Value tk = string_of_runes (c :: raw_run more).
Proof.
  intros Hs Hb Hr Hsp Hc1 Hc2 Hcol Hend.
  assert (W : wp NextToken t (fun r t' =>
    Typ (fst r) = TokenPlainScalar /\
    Value (fst r) = string_of_runes (c :: raw_run more) /\ snd r = None)).
  { unfold NextToken. wp_go.
    apply (NextTokenLoop_blank_scalar c more spaces); try assumption.
    unfold rest in Hr. rewrite Hr, length_app. simpl. lia. }
  destruct (wp_val _ _ _ W) as ([tk e] & t' & E & H1 & H2 & H3).
  simpl in *. subst e. eauto.
Qed.

Lemma blank_scalar_is_verbatim_witness :
  exists tk t',
    NextToken (NewTokenizer (str "  a b " ++ [r_nl]) EndEOF false) = Val (tk, None) t' /\
    Typ tk = TokenPlainScalar /\ Value tk = str "a b ".
Proof.
  apply (blank_scalar_is_verbatim
           (NewTokenizer (str "  a b " ++ [r_nl]) EndEOF false)
           (str "  ") 97 (str " b " ++ [r_nl])).
  - reflexivity.
  - reflexivity.
  - reflexivity.
  - repeat constructor.
  - discriminate.
  - discriminate.
  - intros [H|H]; discriminate H.
  - intros H. discriminate H.
Defined.

(** C3, as stated, fails: on the input "a " the scalar begins in Blank,
    its raw run is "a " and trimming it gives "a", yet the value emitted
    is "a " with the trailing space. *)
Lemma blank_scalar_not_trimmed :
  let t := NewTokenizer (str "a ") EndEOF false in
  status t = statusBlank /\
  exists tk t',
    NextToken t = Val (tk, None) t' /\ Typ tk = TokenPlainScalar /\
    Value tk = str "a " /\
    TrimSpace (raw_run (rest t)) = str "a" /\
    Value tk <> TrimSpace (raw_run (rest t)).
Proof.
  split; [reflexivity|].
  eexists; eexists. split; [vm_compute; reflexivity|].
  split; [reflexivity|]. split; [reflexivity|]. split; [reflexivity|].
  vm_compute. discriminate.
Qed.

(** ** Read failures *)

(** C7. Every call of NextToken returns, and a read of the underlying
    source that fails with an error other than io.EOF during the call makes
    that very call return a token of kind Error paired with the failing
    read's error: either no read failed during the call, or exactly one
    did and the result is (Error, that error).  In particular, when
    nothing is buffered and the source fails at once, the call returns the
    Error token at the current position with the source's error. *)
Theorem read_failure_is_reported (t : Tokenizer) :
  (exists r t', NextToken t = Val r t' /\
     (faultsOf t' = faultsOf t \/
      exists msg, faultsOf t' = faultsOf t ++ [ErrSource msg] /\
                  Typ (fst r) = TokenError /\ snd r = Some (ErrSource msg)))
  /\ (forall msg,
        tokenBuffer t = [] -> rest t = [] -> tail (reader t) = EndFail msg ->
        exists t', NextToken t
                   = Val (mkToken TokenError [] (line t) (column t),
                          Some (ErrSource msg)) t'
                   /\ faultsOf t' = faultsOf t ++ [ErrSource msg]).
Proof.
  split.
  - destruct (wp_val _ _ _ (NextToken_spec t)) as (r & t' & E & _ & Hs).
    exists r, t'. split; [exact E|exact Hs].
  - intros msg Hb Hr Ht.
    destruct t as [[lr pd tl fs] l c s d st b o].
    unfold rest in Hr. simpl in Hb, Hr, Ht. subst b pd tl.
    destruct d; eexists; split; reflexivity.
Qed.

Lemma read_failure_is_reported_witness :
  let t := NewTokenizer [] (EndFail "read error") false in
  exists t', NextToken t
             = Val (mkToken TokenError [] 1 0, Some (ErrSource "read error")) t'
             /\ faultsOf t' = [ErrSource "read error"].
Proof.
  intros t.
  destruct (read_failure_is_reported t) as [_ H].
  exact (H "read error"%string eq_refl eq_refl eq_refl).
Defined.

(** ** Newlines never enter a scalar *)

Lemma calls_clean n : forall t,
  cleanB t -> Forall (fun r => clean (fst r)) (calls n t).
Proof.
  induction n as [|n IH]; intros t Hc; [constructor|].
  destruct (wp_val _ _ _ (NextToken_spec t)) as (r & t' & E & H & _).
  rewrite (calls_first _ _ _ _ E).
  destruct (H Hc) as [Hc' Hr]. constructor; [exact Hr|]. apply IH. exact Hc'.
Qed.

(** C10. For every input, every source ending and every number of calls,
    a token of kind PlainScalar returned by NextToken has no newline
    character in its value. *)
Theorem plain_scalar_has_no_newline
  (input : list rune) (fin : source_end) (dbg : bool) (n : nat)
  (tk : Token) (err : option error) :
  In (tk, err) (calls n (NewTokenizer input fin dbg)) ->
  Typ tk = TokenPlainScalar ->
  ~ In r_nl (Value tk).
Proof.
  intros Hin Hty.
  assert (Hc : cleanB (NewTokenizer input fin dbg)) by constructor.
  pose proof (calls_clean n _ Hc) as Hall.
  rewrite Forall_forall in Hall.
  exact (Hall (tk, err) Hin Hty).
Qed.

Lemma plain_scalar_has_no_newline_witness :
  let input := str "- apple" ++ [r_nl] ++ str "- banana" ++ [r_nl] in
  let tk := mkToken TokenPlainScalar (str "apple") 1 2 in
  In (tk, None) (calls 2 (NewTokenizer input EndEOF false)) /\
  ~ In r_nl (Value tk).
Proof.
  intros input tk.
  assert (Hin : In (tk, None) (calls 2 (NewTokenizer input EndEOF false)))
    by (vm_compute; right; left; reflexivity).
  split; [exact Hin|].
  exact (plain_scalar_has_no_newline input EndEOF false 2 tk None Hin eq_refl).
Defined.

(** ** Misuse of the stack and of the buffer *)

(** C6, as stated, fails: popping the base indentation level and
    shifting an empty token buffer panic; no Error token is produced. *)
Lemma misuse_panics :
  indentPop (NewTokenizer [] EndEOF false) = Panic "cannot pop indentation level"
  /\ tokenBufferShift (NewTokenizer [] EndEOF false)
     = Panic "slice bounds out of range [1:0]".
Proof. split; reflexivity. Qed.

(** C6, as the code has it.  Popping when only the base level is left
    panics, and so does shifting an empty token buffer; a rejected unread
    is returned as an Error token with the reader's error, by
    unreadAndReturnDash and by every inline unread; and NextToken
    itself returns from every state without reaching either panic (it
    shifts only a non-empty buffer and pops only above the base). *)
Theorem invariant_violations (t : Tokenizer) :
  ((List.length (indentationLevelStack t) <= 1)%nat ->
     indentPop t = Panic "cannot pop indentation level")
  /\ (tokenBuffer t = [] ->
     tokenBufferShift t = Panic "slice bounds out of range [1:0]")
  /\ (lastRune (reader t) = None ->
     unreadAndReturnDash t
     = Val (mkToken TokenError [] (line t) (column t), Some ErrInvalidUnreadRune) t
     /\ forall m, unreadThen m t
        = Val (Return (mkToken TokenError [] (line t) (column t),
                       Some ErrInvalidUnreadRune)) t)
  /\ (exists r t', NextToken t = Val r t').
Proof.
  split; [|split; [|split]].
  - intros H. unfold indentPop, bind, gets.
    apply Nat.leb_le in H. rewrite H. reflexivity.
  - intros H. unfold tokenBufferShift, bind, gets. rewrite H. reflexivity.
  - intros H. destruct t as [[lr pd tl fs] l c s d st b o].
    simpl in H. subst lr. split; reflexivity.
  - apply NextToken_returns.
Qed.

Lemma invariant_violations_witness :
  let t := NewTokenizer (str "-") EndEOF false in
  indentPop t = Panic "cannot pop indentation level"
  /\ tokenBufferShift t = Panic "slice bounds out of range [1:0]"
  /\ unreadAndReturnDash t
     = Val (mkToken TokenError [] 1 0, Some ErrInvalidUnreadRune) t
  /\ exists r t', NextToken t = Val r t'.
Proof.
  intros t.
  destruct (invariant_violations t) as (H1 & H2 & H3 & H4).
  split; [apply H1; simpl; lia|].
  split; [apply H2; reflexivity|].
  split; [apply H3; reflexivity|exact H4].
Defined.

(** ** After the end of the input *)

(** Outside the partial-marker states the end of the input is final:
    every further call returns EOF with io.EOF at the same position. *)
Lemma NextToken_at_end t :
  at_end t ->
  exists t', NextToken t
             = Val (mkToken TokenEOF [] (line t) (column t), Some io_EOF) t'
             /\ at_end t' /\ line t' = line t /\ column t' = column t.
Proof.
  destruct t as [[lr pd tl fs] l c s d st b o].
  unfold at_end, rest. simpl. intros (Hs & -> & Hst & -> & ->).
  destruct st as [|x [|y st]]; [| |simpl in Hst; lia];
    destruct s; try discriminate; destruct d;
    (eexists; split; [reflexivity|]); simpl; repeat split; lia.
Qed.

Lemma EOF_repeats_outside_markers n : forall t,
  at_end t ->
  calls n t = repeat (mkToken TokenEOF [] (line t) (column t), Some io_EOF) n.
Proof.
  induction n as [|n IH]; intros t H; [reflexivity|].
  destruct (NextToken_at_end t H) as (t' & E & H' & Hl & Hc).
  rewrite (calls_first _ _ _ _ E). simpl. f_equal.
  rewrite <- Hl, <- Hc. apply IH. exact H'.
Qed.

(** ** The code where it departs from the specification *)

(** C1: on the input "-" the second call returns EOF with io.EOF, and
    the third returns Dash again, without error: the state OneDash is not
    left when the end of the input is resolved (compare
    [EOF_repeats_outside_markers]). *)
Theorem lone_dash_after_EOF :
  map (fun r => (Typ (fst r), Column (fst r), snd r))
    (calls 4 (NewTokenizer (str "-") EndEOF false))
  = [(TokenDash, 0, None); (TokenEOF, 1, Some io_EOF);
     (TokenDash, 0, None); (TokenEOF, 1, Some io_EOF)].
Proof. vm_compute. reflexivity. Qed.

(** C2: the input " -" yields PlainScalar("-") and then EOF; no Indent,
    Dash or Dedent is produced, the indentation stack is never pushed,
    and the table of [TestIndent], which expects Indent, Dash, Dedent,
    fails. *)
Theorem indented_dash_tokens :
  drain 8 (NewTokenizer (str " -") EndEOF false)
  = ([mkToken TokenPlainScalar (str "-") 1 1], AtEOF)
  /\ indentationLevelStack (after 2 (NewTokenizer (str " -") EndEOF false)) = [0]
  /\ forallb runTest indentTestTable = false.
Proof. repeat split; vm_compute; reflexivity. Qed.

(** C4: the input "  ---" yields PlainScalar("---") with Column 2, while
    its first character is in column 3; likewise "---" yields DocStart
    with Column 0 and "- x" yields Dash with Column 2. *)
Theorem false_doc_start_indented_column :
  drain 8 (NewTokenizer (str "  ---") EndEOF false)
  = ([mkToken TokenPlainScalar (str "---") 1 2], AtEOF)
  /\ drain 8 (NewTokenizer (str "---") EndEOF false)
     = ([mkToken TokenDocStart (str "---") 1 0], AtEOF)
  /\ drain 8 (NewTokenizer (str "- x") EndEOF false)
     = ([mkToken TokenDash (str "-") 1 2; mkToken TokenPlainScalar (str "x") 1 2],
        AtEOF).
Proof. repeat split; vm_compute; reflexivity. Qed.

(** * Further properties *)

(** ** Rendering *)

Lemma TokenType_eqb_eq (a b : TokenType) : TokenType_eqb a b = true <-> a = b.
Proof. destruct a, b; simpl; split; intros H; try reflexivity; discriminate. Qed.

Lemma runes_eqb_eq (a : list rune) : forall b, runes_eqb a b = true <-> a = b.
Proof.
  induction a as [|x a IH]; intros [|y b]; simpl; split; intros H;
    try reflexivity; try discriminate.
  - apply andb_true_iff in H. destruct H as [H1 H2].
    apply Z.eqb_eq in H1. apply IH in H2. congruence.
  - injection H as -> ->. rewrite Z.eqb_refl. apply IH. reflexivity.
Qed.

Lemma TokenEqual_iff (a b : Token) :
  TokenEqual a b = true <->
  Typ a = Typ b /\ (Typ a = TokenPlainScalar -> Value a = Value b).
Proof.
  unfold TokenEqual.
  destruct (TokenType_eqb (Typ a) (Typ b)) eqn:E; simpl.
  - apply TokenType_eqb_eq in E. split.
    + intros H. split; [exact E|]. intros Hs. rewrite Hs in H.
      apply runes_eqb_eq. exact H.
    + intros [_ H]. destruct (Typ a); try reflexivity.
      apply runes_eqb_eq. apply H. reflexivity.
  - split; [discriminate|]. intros [H _]. apply TokenType_eqb_eq in H.
    congruence.
Qed.

(** X1. [TokenEqual] compares the type and, for plain scalars only, the
    value, and nothing else: two tokens are equal exactly when they have
    the same type and, if that type is PlainScalar, the same value.  So
    tokens of different types are not equal, nor are plain scalars with
    different values, while tokens that differ in line and column -- and,
    when they are not plain scalars, in value -- are equal; and the
    relation is reflexive, symmetric and transitive. *)
Theorem TokenEqual_equivalence :
  (forall a b, TokenEqual a b = true <->
               Typ a = Typ b /\ (Typ a = TokenPlainScalar -> Value a = Value b))
  /\ (forall a b, Typ a <> Typ b -> TokenEqual a b = false)
  /\ (forall v v' l c l' c', v <> v' ->
        TokenEqual (mkToken TokenPlainScalar v l c)
                   (mkToken TokenPlainScalar v' l' c') = false)
  /\ (forall a, TokenEqual a a = true)
  /\ (forall a b, TokenEqual a b = TokenEqual b a)
  /\ (forall a b c, TokenEqual a b = true -> TokenEqual b c = true ->
                    TokenEqual a c = true)
  /\ (forall ty v l c l' c',
        TokenEqual (mkToken ty v l c) (mkToken ty v l' c') = true)
  /\ (forall ty v v' l c l' c', ty <> TokenPlainScalar ->
        TokenEqual (mkToken ty v l c) (mkToken ty v' l' c') = true).
Proof.
  split; [|split; [|split; [|split; [|split; [|split; [|split]]]]]].
  - intros a b. apply TokenEqual_iff.
  - intros a b H. destruct (TokenEqual a b) eqn:E; [|reflexivity].
    apply TokenEqual_iff in E. destruct E as [E _]. contradiction.
  - intros v v' l c l' c' H.
    destruct (TokenEqual (mkToken TokenPlainScalar v l c)
                         (mkToken TokenPlainScalar v' l' c')) eqn:E;
      [|reflexivity].
    apply TokenEqual_iff in E. destruct E as [_ E]. simpl in E.
    exfalso. apply H. apply E. reflexivity.
  - intros a. apply TokenEqual_iff. auto.
  - intros a b.
    destruct (TokenEqual a b) eqn:E1, (TokenEqual b a) eqn:E2; try reflexivity.
    + apply TokenEqual_iff in E1. destruct E1 as [H1 H2].
      assert (TokenEqual b a = true).
      { apply TokenEqual_iff. split; [congruence|].
        intros Hs. symmetry. apply H2. congruence. }
      congruence.
    + apply TokenEqual_iff in E2. destruct E2 as [H1 H2].
      assert (TokenEqual a b = true).
      { apply TokenEqual_iff. split; [congruence|].
        intros Hs. symmetry. apply H2. congruence. }
      congruence.
  - intros a b c H1 H2. apply TokenEqual_iff in H1, H2. apply TokenEqual_iff.
    destruct H1 as [T1 V1], H2 as [T2 V2]. split; [congruence|].
    intros Hs. rewrite (V1 Hs). apply V2. congruence.
  - intros. apply TokenEqual_iff. simpl. auto.
  - intros ty v v' l c l' c' H. apply TokenEqual_iff. simpl.
    split; [reflexivity|]. intros; contradiction.
Qed.

Lemma TokenEqual_equivalence_witness :
  TokenEqual (mkToken TokenDash (str "-") 1 2) (mkToken TokenDash [] 0 0) = true
  /\ TokenEqual (mkToken TokenDash (str "-") 1 2)
                (mkToken TokenPlainScalar (str "-") 1 2) = false
  /\ TokenEqual (mkToken TokenPlainScalar (str "a") 1 1)
                (mkToken TokenPlainScalar (str "b") 1 1) = false.
Proof.
  destruct TokenEqual_equivalence as (_ & Htype & Hvalue & _ & _ & _ & _ & Hrest).
  split; [apply Hrest; discriminate|].
  split; [apply Htype; discriminate|apply Hvalue; discriminate].
Defined.

(** X2. Two tokens are rendered alike by [String] exactly when
    [TokenEqual] holds of them: the rendering shows the type, and the
    value of a plain scalar, and nothing else. *)
Theorem String_agrees_with_TokenEqual (a b : Token) :
  Token_String a = Token_String b <-> TokenEqual a b = true.
Proof.
  rewrite TokenEqual_iff. unfold Token_String. split.
  - intros H.
    destruct (Typ a) eqn:Ea, (Typ b) eqn:Eb;
      try (split; [reflexivity|intros; try discriminate]);
      try (exfalso; revert H; cbn; discriminate).
    cbn in H. repeat (injection H as H).
    apply app_inv_tail in H. exact H.
  - intros [Ht Hv]. rewrite <- Ht.
    destruct (Typ a) eqn:Ea; try reflexivity.
    rewrite (Hv eq_refl). reflexivity.
Qed.

Lemma set_stack_same t : set_stack (indentationLevelStack t) t = t.
Proof. destruct t. reflexivity. Qed.

Lemma set_buffer_same t : set_buffer (tokenBuffer t) t = t.
Proof. destruct t. reflexivity. Qed.

Lemma pushLevels_run ls : forall t,
  pushLevels ls t = Val tt (set_stack (indentationLevelStack t ++ ls) t).
Proof.
  induction ls as [|l ls IH]; intros t; simpl.
  - unfold ret. rewrite app_nil_r, set_stack_same. reflexivity.
  - unfold bind, indentPush, modify. rewrite IH. simpl.
    rewrite <- app_assoc. reflexivity.
Qed.

Lemma popN_run ls : forall t s,
  s <> [] -> indentationLevelStack t = s ++ ls ->
  popN (List.length ls) t = Val (rev ls) (set_stack s t).
Proof.
  induction ls as [|l ls IH] using rev_ind; intros t s Hs E.
  - simpl. unfold ret. rewrite app_nil_r in E. rewrite <- E, set_stack_same.
    reflexivity.
  - rewrite length_app, Nat.add_comm. simpl.
    unfold bind at 1. unfold indentPop, bind, gets. rewrite E.
    assert (Hlen : (List.length (s ++ ls ++ [l]) <=? 1)%nat = false).
    { apply Nat.leb_gt. rewrite !length_app. simpl.
      destruct s; [contradiction|]. simpl. lia. }
    rewrite Hlen. unfold modify, ret.
    rewrite app_assoc, removelast_last, last_last.
    unfold bind. rewrite (IH (set_stack (s ++ ls) t) s Hs eq_refl). simpl.
    rewrite rev_app_distr. reflexivity.
Qed.

(** X3. The indentation stack is a stack: on a stack that is not empty,
    pushing a list of levels and popping as many gives them back last
    pushed first and leaves the tokenizer as it was; the pops never reach
    the panic. *)
Theorem indent_push_pop (t : Tokenizer) (ls : list Z) :
  indentationLevelStack t <> [] ->
  (pushLevels ls ;; popN (List.length ls)) t = Val (rev ls) t.
Proof.
  intros Hne. unfold bind. rewrite pushLevels_run.
  rewrite (popN_run ls (set_stack (indentationLevelStack t ++ ls) t)
             (indentationLevelStack t) Hne eq_refl).
  simpl. destruct t. reflexivity.
Qed.

Lemma indent_push_pop_witness :
  (pushLevels [2; 4] ;; popN 2) (NewTokenizer [] EndEOF false)
  = Val [4; 2] (NewTokenizer [] EndEOF false).
Proof.
  apply (indent_push_pop (NewTokenizer [] EndEOF false) [2; 4]).
  discriminate.
Defined.

Lemma pushAll_run ts : forall t,
  pushAll ts t = Val tt (set_buffer (tokenBuffer t ++ ts) t).
Proof.
  induction ts as [|tk ts IH]; intros t; simpl.
  - unfold ret. rewrite app_nil_r, set_buffer_same. reflexivity.
  - unfold bind, tokenBufferPush, modify. rewrite IH. simpl.
    rewrite <- app_assoc. reflexivity.
Qed.

Lemma shiftN_run ts : forall t rest0,
  tokenBuffer t = ts ++ rest0 ->
  shiftN (List.length ts) t = Val ts (set_buffer rest0 t).
Proof.
  induction ts as [|tk ts IH]; intros t rest0 E; simpl.
  - unfold ret. simpl in E. rewrite <- E, set_buffer_same. reflexivity.
  - unfold bind at 1. unfold tokenBufferShift, bind, gets. rewrite E. simpl.
    unfold modify, ret. unfold bind.
    rewrite (IH (set_buffer (ts ++ rest0) t) rest0 eq_refl). reflexivity.
Qed.

(** X4. The token buffer is a queue: pushing a list of tokens behind the
    tokens already buffered and shifting as many tokens as are then in the
    buffer gives the old ones first and the pushed ones after them, each
    group in its order, and leaves the buffer empty, where one more shift
    panics. *)
Theorem token_buffer_is_fifo (t : Tokenizer) (ts : list Token) :
  (pushAll ts ;; shiftN (List.length (tokenBuffer t ++ ts))) t
  = Val (tokenBuffer t ++ ts) (set_buffer [] t)
  /\ (pushAll ts ;; shiftN (List.length (tokenBuffer t ++ ts)) ;; tokenBufferShift) t
     = Panic "slice bounds out of range [1:0]".
Proof.
  assert (E : (pushAll ts ;; shiftN (List.length (tokenBuffer t ++ ts))) t
              = Val (tokenBuffer t ++ ts) (set_buffer [] t)).
  { unfold bind. rewrite pushAll_run.
    rewrite (shiftN_run (tokenBuffer t ++ ts)
               (set_buffer (tokenBuffer t ++ ts) t) []).
    - reflexivity.
    - simpl. rewrite app_nil_r. reflexivity. }
  split; [exact E|].
  unfold bind in *. rewrite pushAll_run in *.
  destruct (shiftN _ _) as [a t'| |]; try discriminate.
  injection E as _ ->. reflexivity.
Qed.

(** ** What every call keeps, and how far it gets *)

Lemma quiet_refl t : quiet t t.
Proof. unfold quiet. auto. Qed.

Lemma quiet_trans t1 t2 t3 : quiet t1 t2 -> quiet t2 t3 -> quiet t1 t3.
Proof.
  unfold quiet. intros (D1 & T1 & O1 & S1 & B1) (D2 & T2 & O2 & S2 & B2).
  repeat split; congruence.
Qed.

Lemma readRune_full caller t :
  wp (readRune caller) t (fun r t' =>
    quiet t t' /\ line t' = line t /\ status t' = status t /\
    match rest t with
    | c :: rs => r = (c, None) /\ rest t' = rs /\ lastRune (reader t') = Some c
    | [] => r = (0, Some (endError (reader t))) /\ rest t' = []
    end).
Proof.
  unfold wp, readRune, ReadRune, readErr, endError, rest, quiet, printed.
  destruct t as [[lr pd tl fs] l c s d st b o]; simpl.
  destruct pd as [|x pd]; [destruct tl|]; destruct d; simpl;
    repeat split; auto.
Qed.

Lemma unreadRune_full t c :
  lastRune (reader t) = Some c ->
  wp unreadRune t (fun err t' =>
    err = None /\ quiet t t' /\ line t' = line t /\ status t' = status t /\
    rest t' = c :: rest t).
Proof.
  unfold wp, unreadRune, UnreadRune, rest, quiet, printed.
  destruct t as [[lr pd tl fs] l c0 s d st b o]; simpl. intros ->. simpl.
  repeat split; auto.
Qed.

Lemma peek_full t :
  wp peek t (fun r t' =>
    quiet t t' /\ line t' = line t /\ status t' = status t /\
    rest t' = rest t /\
    r = match rest t with
        | c :: _ => (lead_byte c, None)
        | [] => (0, Some (endError (reader t)))
        end).
Proof.
  unfold wp, peek, Peek1, readErr, endError, rest, quiet, printed.
  destruct t as [[lr pd tl fs] l c s d st b o]; simpl.
  destruct pd as [|x pd]; [destruct tl|]; simpl; repeat split; auto.
Qed.

Lemma source_failed_intro t c msg :
  tail (reader t) = EndFail msg ->
  source_failed t (mkToken TokenError [] (line t) c, Some (ErrSource msg)).
Proof.
  intros H. unfold source_failed. simpl.
  split; [reflexivity|]. split; [reflexivity|]. exists msg. auto.
Qed.

Lemma source_failed_from t0 t r :
  line t = line t0 -> tail (reader t) = tail (reader t0) ->
  source_failed t r -> source_failed t0 r.
Proof.
  unfold source_failed. intros Hl Ht (A & B & msg & C & D).
  split; [assumption|]. split; [congruence|]. exists msg. split; congruence.
Qed.

Lemma collectLoop_full bound : forall scalar t,
  (List.length (rest t) < bound)%nat ->
  wp (collectLoop bound scalar) t (fun res t' =>
    quiet t t' /\ line t' = line t /\ status t' = status t /\
    (List.length (rest t') <= List.length (rest t))%nat /\
    match res with
    | inl _ => True
    | inr r => source_failed t r
    end).
Proof.
  induction bound as [|bound IH]; intros scalar t Hb; [lia|].
  simpl. wp_step.
  eapply wp_mono; [apply peek_full|].
  intros r t1 (Hq & Hl & Hs & Hr & ->).
  destruct (rest t) as [|c rs] eqn:Er.
  - unfold endError. destruct (tail (reader t)) eqn:Et.
    + wp_go. rewrite Hr. auto.
    + wp_go. rewrite Hr. do 4 (split; [auto|]).
      destruct Hq as (_ & Ht & _).
      apply (source_failed_from t t1); [assumption|assumption|].
      apply source_failed_intro. congruence.
  - destruct ((lead_byte c =? r_nl) || (lead_byte c =? r_hash)).
    + wp_go. rewrite Hr. auto.
    + wp_step. eapply wp_mono; [apply readRune_full|].
      intros r t2 (Hq2 & Hl2 & Hs2 & H2). rewrite Hr in H2.
      destruct H2 as (-> & Hr2 & _).
      eapply wp_mono.
      * apply IH. rewrite Hr2. simpl in Hb. lia.
      * intros res t3 (Hq3 & Hl3 & Hs3 & Hr3 & H3).
        split; [eapply quiet_trans; [|exact Hq3]; eapply quiet_trans; eassumption|].
        split; [congruence|]. split; [congruence|].
        split; [rewrite Hr2 in Hr3; simpl; lia|].
        destruct res as [s|r]; [exact I|].
        destruct Hq as (_ & Ht1 & _), Hq2 as (_ & Ht2 & _).
        eapply source_failed_from; [| |exact H3]; congruence.
Qed.

Lemma collectPlainScalar_full scalar t :
  wp (collectPlainScalar scalar) t (fun r t' =>
    quiet t t' /\ line t' = line t /\ status t' = status t /\
    (List.length (rest t') <= List.length (rest t))%nat /\
    Line (fst r) = line t /\
    ((Typ (fst r) = TokenPlainScalar /\ snd r = None) \/ source_failed t r)).
Proof.
  unfold collectPlainScalar. wp_go.
  eapply wp_mono; [apply collectLoop_full; unfold rest; lia|].
  intros [s|r] t1 (Hq & Hl & Hs & Hr & H).
  - wp_go. simpl. auto 10.
  - wp_go. destruct H as (H1 & H2 & H3). unfold source_failed. auto 10.
Qed.

Lemma skipBlanks_full bound : forall ch t,
  (List.length (rest t) < bound)%nat ->
  wp (skipBlanks bound ch) t (fun res t' =>
    quiet t t' /\ status t' = status t /\
    (List.length (rest t') <= List.length (rest t))%nat /\
    match res with
    | inl _ => line t' = line t
    | inr r =>
        Line (fst r) = line t /\
        ((Typ (fst r) = TokenNewLine /\ snd r = None /\
          line t' = int_wrap (line t + 1))
         \/ (Typ (fst r) = TokenEOF /\ snd r = Some io_EOF /\ line t' = line t
             /\ tail (reader t) = EndEOF)
         \/ (source_failed t r /\ line t' = line t))
    end).
Proof.
  induction bound as [|bound IH]; intros ch t Hb; [lia|].
  simpl. destruct (ch =? r_nl).
  - wp_go. simpl. unfold quiet, printed. simpl. auto 12.
  - destruct (ch =? r_space); simpl.
    + wp_step. eapply wp_mono; [apply readRune_full|].
      intros r t1 (Hq & Hl & Hs & H).
      destruct (rest t) as [|c rs] eqn:Er.
      * destruct H as (-> & Hr1). unfold endError.
        destruct (tail (reader t)) eqn:Et; wp_go; simpl; rewrite Hr1;
          (split; [assumption|]); (split; [assumption|]);
          (split; [simpl; lia|]); (split; [assumption|]).
        -- right; left. auto.
        -- right; right. split; [|assumption].
           destruct Hq as (_ & Ht & _).
           apply (source_failed_from t t1); [assumption|assumption|].
           apply source_failed_intro. congruence.
      * destruct H as (-> & Hr1 & _).
        eapply wp_mono.
        -- apply (IH c t1). rewrite Hr1. simpl in Hb. lia.
        -- intros res t2 (Hq2 & Hs2 & Hr2 & H2).
           split; [eapply quiet_trans; eassumption|].
           split; [congruence|]. split; [rewrite Hr1 in Hr2; simpl; lia|].
           destruct res as [s|r]; [congruence|].
           destruct H2 as (H21 & H22). split; [congruence|].
           destruct H22 as [(A & B & C)|[(A & B & C & C')|((A & B & msg & C & D) & E)]].
           ++ left. repeat split; congruence.
           ++ right; left. destruct Hq as (_ & Ht & _). repeat split; congruence.
           ++ right; right. destruct Hq as (_ & Ht & _).
              split; [|congruence].
              apply (source_failed_from t t1); try assumption.
              unfold source_failed. split; [assumption|].
              split; [assumption|]. exists msg. auto.
    + wp_go. split; [apply quiet_refl|]. auto.
Qed.

Lemma firstn_1_removelast {A} (s : list A) :
  (1 < List.length s)%nat -> firstn 1 (removelast s) = firstn 1 s.
Proof.
  destruct s as [|a [|b s]]; simpl; intros H; try lia. reflexivity.
Qed.

Lemma dedentLoop_full bound : forall t,
  (List.length (indentationLevelStack t) < bound)%nat ->
  wp (dedentLoop bound) t (fun _ t' =>
    reader t' = reader t /\ line t' = line t /\ column t' = column t /\
    status t' = status t /\ debug t' = debug t /\ stdout t' = stdout t /\
    indentationLevelStack t' = firstn 1 (indentationLevelStack t) /\
    tokenBuffer t' =
      tokenBuffer t ++ repeat (mkToken TokenDedent [] (line t) (column t))
                         (List.length (indentationLevelStack t) - 1)).
Proof.
  induction bound as [|bound IH]; intros t Hb; [lia|].
  simpl. wp_go.
  destruct (1 <? List.length (indentationLevelStack t))%nat eqn:E.
  - apply Nat.ltb_lt in E.
    unfold indentPop. wp_go.
    assert (E' : (List.length (indentationLevelStack t) <=? 1)%nat = false)
      by (apply Nat.leb_gt; assumption).
    rewrite E'. wp_go.
    assert (Hne : indentationLevelStack t <> [])
      by (intros Z0; rewrite Z0 in E; simpl in E; lia).
    pose proof (removelast_shorter _ Hne) as Hlen.
    eapply wp_mono.
    + apply IH. simpl. lia.
    + intros [] t1 (H1 & H2 & H3 & H4 & H5 & H6 & H7 & H8). simpl in *.
      repeat (split; [assumption|]).
      split; [rewrite H7; apply firstn_1_removelast; exact E|].
      rewrite H8, <- app_assoc. f_equal.
      replace (List.length (indentationLevelStack t) - 1)%nat
        with (S (List.length (removelast (indentationLevelStack t)) - 1))%nat
        by lia.
      reflexivity.
  - wp_go. apply Nat.ltb_ge in E.
    replace (List.length (indentationLevelStack t) - 1)%nat with 0%nat by lia.
    simpl. rewrite app_nil_r. repeat (split; [reflexivity|]).
    split; [|reflexivity].
    destruct (indentationLevelStack t) as [|a [|b s]]; simpl in *; try reflexivity; lia.
Qed.

Lemma pushPerStateEOF_full t :
  wp pushPerStateEOF t (fun _ t' =>
    reader t' = reader t /\ line t' = line t /\ column t' = column t /\
    status t' = status t /\ debug t' = debug t /\ stdout t' = stdout t /\
    indentationLevelStack t' = firstn 1 (indentationLevelStack t) /\
    tokenBuffer t' = tokenBuffer t ++ eofQueue t).
Proof.
  unfold pushPerStateEOF. wp_go.
  assert (Hfirst : wp
    (match status t with
     | statusOneDash =>
         tokenBufferPush (mkToken TokenDash (str "-") (line t) (int_wrap (column t - 1)))
     | statusTwoDashes =>
         tokenBufferPush (mkToken TokenPlainScalar (str "--") (line t) (int_wrap (column t - 2)))
     | statusThreeDashes =>
         tokenBufferPush (mkToken TokenDocStart (str "---") (line t) (int_wrap (column t - 3)))
     | statusOneDot =>
         tokenBufferPush (mkToken TokenPlainScalar (str ".") (line t) (int_wrap (column t - 1)))
     | statusTwoDots =>
         tokenBufferPush (mkToken TokenPlainScalar (str "..") (line t) (int_wrap (column t - 2)))
     | statusThreeDots =>
         tokenBufferPush (mkToken TokenDocEnd (str "...") (line t) (int_wrap (column t - 3)))
     | _ => ret tt
     end) t (fun _ t' =>
      reader t' = reader t /\ line t' = line t /\ column t' = column t /\
      status t' = status t /\ debug t' = debug t /\ stdout t' = stdout t /\
      indentationLevelStack t' = indentationLevelStack t /\
      tokenBuffer t' = tokenBuffer t ++ marker (status t) (line t) (column t))).
  { destruct (status t) eqn:Est; wp_go; simpl; repeat split; rewrite ?app_nil_r; auto. }
  eapply wp_mono; [exact Hfirst|].
  intros [] t1 (A1 & A2 & A3 & A4 & A5 & A6 & A7 & A8). wp_go.
  eapply wp_mono; [apply dedentLoop_full; lia|].
  intros [] t2 (B1 & B2 & B3 & B4 & B5 & B6 & B7 & B8). wp_go. simpl.
  repeat (split; [congruence|]).
  split; [rewrite B7, A7; reflexivity|].
  unfold eofQueue. rewrite B8, A8, B2, B3, A2, A3, A7.
  rewrite <- !app_assoc. reflexivity.
Qed.

Ltac break_hyps :=
  repeat match goal with
    | H : _ /\ _ |- _ => destruct H
    | H : exists _, _ |- _ => destruct H
    end.

Ltac split_cases :=
  repeat match goal with
    | H : _ \/ _ |- _ => destruct H
    end.

Ltac full_auto :=
  repeat first
    [ wp_step
    | lazymatch goal with
      | |- wp (if ?b then _ else _) _ _ => destruct b eqn:?
      | |- wp (collectPlainScalar _) _ _ =>
          eapply wp_mono;
          [apply collectPlainScalar_full | intros ? ? (? & ? & ? & ? & ? & ?)]
      | |- wp (skipBlanks _ _) _ _ =>
          eapply wp_mono;
          [apply skipBlanks_full; unfold rest; simpl; lia
          | intros [?|?] ? (? & ? & ? & ?)]
      | |- wp unreadRune _ _ =>
          eapply wp_mono;
          [eapply unreadRune_full; simpl; eassumption
          | intros ? ? (-> & ? & ? & ? & ?); cbv iota beta]
      end ].

Ltac solve_quiet :=
  unfold quiet, printed in *; break_hyps; simpl in *; repeat split; congruence.

Ltac solve_nu :=
  unfold nu, rest in *; break_hyps; simpl in *;
  repeat match goal with
    | H : pending (reader ?x) = _ |- _ => rewrite H in *
    end;
  repeat match goal with
    | |- context [weight (status ?x)] =>
        let E := fresh "E" in destruct (status x) eqn:E; try congruence
    end;
  simpl in *; try congruence; lia.

Ltac solve_failed :=
  eapply source_failed_from; [| |eassumption];
  unfold quiet in *; break_hyps; simpl in *; congruence.

Ltac solve_progress :=
  right; unfold progress;
  split; [assumption|];
  split; [solve_quiet|];
  split; [simpl in *; congruence|];
  first
    [ solve [left; repeat split; simpl in *; try congruence; solve_nu]
    | solve [right; left; split; [simpl in *; congruence|];
             split; [simpl;
                     try match goal with H : Typ _ = _ |- _ => rewrite H end;
                     simpl; tauto
                    |split; [simpl in *; congruence|solve_nu]]]
    | solve [right; right; left; unfold quiet in *; break_hyps;
             repeat split; simpl in *; congruence]
    | solve [right; right; right; split; [solve_failed|simpl in *; congruence]] ].

Ltac solve_continue :=
  split; [assumption|]; split; [simpl in *; congruence|];
  left; split; [solve_quiet|]; split; [solve_nu|];
  unfold rest in *; simpl in *;
  repeat match goal with
    | H : pending (reader ?x) = _ |- _ => rewrite H in *
    end;
  simpl; lia.

Lemma NextTokenBody_full t : wp NextTokenBody t (body_full t).
Proof.
  unfold NextTokenBody. wp_go.
  destruct (tokenBuffer t) as [|tk buf] eqn:Ebuf;
    cbn [List.length Nat.ltb Nat.leb].
  - wp_step. eapply wp_mono; [apply readRune_full|].
    intros r t1 (Hq & Hl & Hs & H).
    destruct (rest t) as [|c rs] eqn:Er.
    + destruct H as (-> & Hr1). unfold endError.
      destruct (tail (reader t)) eqn:Et.
      * wp_step. eapply wp_mono; [apply pushPerStateEOF_full|].
        intros [] t2 (B1 & B2 & B3 & B4 & B5 & B6 & B7 & B8). wp_step.
        unfold body_full. split; [assumption|]. split; [congruence|]. right.
        unfold quiet, printed in *. destruct Hq as (Q1 & Q2 & Q3 & Q4 & Q5).
        split; [assumption|]. split; [rewrite B1; congruence|].
        split; [unfold rest; rewrite B1; exact Hr1|].
        split; [congruence|]. split; [rewrite B5, B6; exact Q3|].
        split; [rewrite B7, Q4; reflexivity|].
        exists (column t1). rewrite B8, Q5, Ebuf. unfold eofQueue, queueOf.
        rewrite Hl, <- Hs, Q4. reflexivity.
      * wp_go. unfold body_full. right. unfold progress.
        split; [assumption|]. split; [assumption|].
        split; [simpl; congruence|]. right; right; right.
        split; [|assumption].
        apply (source_failed_from t t1); [assumption|apply Hq|].
        apply source_failed_intro. destruct Hq as (_ & Ht & _). congruence.
    + destruct H as (-> & Hr1 & Hlast). wp_step. wp_step.
      destruct (status t1) eqn:Est; wp_simpl; full_auto; unfold body_full;
        cbv beta iota in *; break_hyps; split_cases; break_hyps;
        first [ solve_continue | solve_progress ].
  - unfold tokenBufferShift. wp_go. rewrite Ebuf. wp_go.
    assert (Hpost : body_full t (Return (tagEOF tk)) (set_buffer buf t)).
    { left. exists buf. auto. }
    unfold tagEOF in Hpost. destruct (Typ tk); wp_go; exact Hpost.
Qed.

Lemma progress_from t t1 r t' :
  tokenBuffer t = [] -> line t1 = line t -> quiet t t1 ->
  (nu t1 < nu t)%nat -> progress t1 r t' -> progress t r t'.
Proof.
  intros Hb Hl Hq Hn (P1 & P2 & P3 & P4).
  split; [assumption|]. split; [eapply quiet_trans; eassumption|].
  split; [congruence|].
  destruct P4 as [(A & B & C & D)|[(A & B & C & D)|[(A & B & C & D)|(A & B)]]].
  - left. repeat split; try congruence. lia.
  - right; left. repeat split; try congruence. lia.
  - right; right; left. destruct Hq as (_ & Ht & _). repeat split; congruence.
  - right; right; right. split; [|congruence].
    apply (source_failed_from t t1); [assumption|apply Hq|assumption].
Qed.

(** What one call of [NextToken] does: it hands out a buffered token, or
    makes a token from the input, or meets the end of the input and
    starts its queue. *)
Lemma NextTokenLoop_full bound : forall t,
  (fuelOf t <= bound)%nat ->
  wp (NextTokenLoop bound) t (NextToken_does t).
Proof.
  induction bound as [|bound IH]; intros t Hb.
  - unfold fuelOf in Hb. destruct (tokenBuffer t); lia.
  - simpl. wp_step. eapply wp_mono; [apply NextTokenBody_full|].
    intros [|r] t1 H; simpl in H.
    + destruct H as (Hbuf & Hl & [(Hq & Hn & Hlen)|(E1 & E2 & E3 & E4 & E5 & E6 & c & E7)]).
      * assert (Hb1 : tokenBuffer t1 = []) by (destruct Hq as (_ & _ & _ & _ & ->); exact Hbuf).
        eapply wp_mono.
        -- apply IH. unfold fuelOf in *. rewrite Hb1. rewrite Hbuf in Hb. lia.
        -- intros r t2 [(buf & F1 & _)|[P|Q]].
           ++ rewrite Hb1 in F1. discriminate.
           ++ right; left. eapply progress_from; eassumption.
           ++ right; right. destruct Hq as (Q1 & Q2 & Q3 & Q4 & Q5).
              destruct Q as (A1 & A2 & A3 & A4 & A5 & A6 & A7 & A8 & A9 & st & c & A10).
              unfold queue_started.
              split; [assumption|]. split; [congruence|]. split; [assumption|].
              split; [assumption|]. split; [congruence|]. split; [congruence|].
              split; [congruence|]. split; [congruence|]. split; [assumption|].
              exists st, c. rewrite <- Hl, <- Q4. exact A10.
      * assert (Hne : tokenBuffer t1 <> []).
        { rewrite E7. unfold queueOf.
          destruct (marker _ _ _); [|discriminate].
          destruct (repeat _ _); discriminate. }
        eapply wp_mono.
        -- apply IH. unfold fuelOf in *. rewrite Hbuf in Hb.
           destruct (tokenBuffer t1); [contradiction|]. lia.
        -- intros r t2 [(buf & F1 & -> & F3)|[P|Q]].
           ++ right; right. unfold queue_started. simpl.
              split; [assumption|]. split; [assumption|]. split; [assumption|].
              split; [assumption|]. split; [assumption|]. split; [assumption|].
              split; [assumption|]. split; [assumption|]. split; [assumption|].
              exists (status t), c. rewrite <- F1. exact E7.
           ++ destruct P as (P1 & _). contradiction.
           ++ destruct Q as (Q1 & _). contradiction.
    + wp_go. destruct H as [H|H]; [left|right; left]; exact H.
Qed.

Lemma NextToken_full t : wp NextToken t (NextToken_does t).
Proof.
  unfold NextToken. wp_go. apply NextTokenLoop_full.
  unfold fuelOf, rest. destruct (tokenBuffer t); lia.
Qed.

(** ** The loop of [main] ends *)

Lemma eofIndex_queueOf st l c n :
  eofIndex (queueOf st l c n) = Some (List.length (marker st l c) + n)%nat.
Proof.
  unfold queueOf.
  assert (H : forall k, eofIndex (repeat (mkToken TokenDedent [] l c) k
                                  ++ [mkToken TokenEOF [] l c]) = Some k).
  { induction k as [|k IH]; simpl; [reflexivity|]. rewrite IH. reflexivity. }
  destruct st; simpl; rewrite H; reflexivity.
Qed.

Lemma marker_short st l c : (List.length (marker st l c) <= 1)%nat.
Proof. destruct st; simpl; lia. Qed.

Lemma tagEOF_None tk : snd (tagEOF tk) = None -> Typ tk <> TokenEOF.
Proof. unfold tagEOF. simpl. destruct (Typ tk); congruence. Qed.

Lemma mu_step t r t' :
  NextToken_does t r t' -> snd r = None -> (mu t' < mu t)%nat.
Proof.
  intros [(buf & F1 & -> & F3)|[(P1 & P2 & P3 & P4)|Q]] Hr.
  - rewrite F3 in Hr. apply tagEOF_None in Hr.
    unfold mu, nu, rest. simpl. rewrite F1. simpl.
    destruct (Typ (fst r)); try contradiction;
      destruct (eofIndex buf); simpl; lia.
  - destruct P2 as (_ & _ & _ & Hst & Hb).
    unfold mu. rewrite Hb, P1, Hst. simpl.
    destruct P4 as [(A & B & C & D)|[(A & B & C & D)|[(A & _)|((_ & _ & m & A & _) & _)]]];
      try congruence; lia.
  - destruct Q as (A1 & A2 & A3 & A4 & A5 & A6 & A7 & A8 & A9 & st & c & A10).
    rewrite A9 in Hr. apply tagEOF_None in Hr.
    pose proof (eofIndex_queueOf st (line t) c
                  (List.length (indentationLevelStack t) - 1)) as Hi.
    rewrite <- A10 in Hi. simpl in Hi.
    pose proof (marker_short st (line t) c).
    unfold mu. rewrite A1. simpl.
    destruct (Typ (fst r)); try contradiction;
      destruct (eofIndex (tokenBuffer t')); simpl in Hi; try discriminate;
      injection Hi as Hi; lia.
Qed.

(** How a call that returns an error ends the loop. *)
Lemma stop_kind t r t' e :
  NextToken_does t r t' -> snd r = Some e ->
  (e = io_EOF /\ Typ (fst r) = TokenEOF /\
   (eofIndex (tokenBuffer t) = Some O \/ tail (reader t) = EndEOF))
  \/ (exists msg, e = ErrSource msg /\ tail (reader t) = EndFail msg).
Proof.
  intros [(buf & F1 & -> & F3)|[(P1 & P2 & P3 & P4)|Q]] Hr.
  - left. rewrite F3 in Hr. unfold tagEOF in Hr. simpl in Hr.
    rewrite F1. simpl.
    destruct (Typ (fst r)); try discriminate. injection Hr as <-. auto.
  - destruct P4 as [(A & _)|[(A & _)|[(A & B & C & D)|((_ & _ & m & A & B) & _)]]];
      try congruence.
    + left. split; [congruence|]. auto.
    + right. exists m. split; congruence.
  - destruct Q as (A1 & A2 & A3 & A4 & A5 & A6 & A7 & A8 & A9 & _).
    left. rewrite A9 in Hr. unfold tagEOF in Hr. simpl in Hr.
    destruct (Typ (fst r)); try discriminate. injection Hr as <-. auto.
Qed.

Lemma tail_kept t r t' :
  NextToken_does t r t' -> tail (reader t') = tail (reader t).
Proof.
  intros [(buf & F1 & -> & F3)|[(P1 & P2 & P3 & P4)|Q]].
  - reflexivity.
  - apply P2.
  - destruct Q as (A1 & A2 & A3 & _). congruence.
Qed.

(** No EOF token waits in the buffer of a tokenizer whose source fails. *)
Lemma no_EOF_kept t r t' :
  NextToken_does t r t' ->
  (exists msg, tail (reader t) = EndFail msg) ->
  eofIndex (tokenBuffer t) = None -> snd r = None ->
  eofIndex (tokenBuffer t') = None.
Proof.
  intros [(buf & F1 & -> & F3)|[(P1 & P2 & P3 & P4)|Q]] (msg & Hm) Hi Hr.
  - rewrite F1 in Hi. simpl in *.
    destruct (Typ (fst r)); try discriminate;
      destruct (eofIndex buf); try discriminate; reflexivity.
  - destruct P2 as (_ & _ & _ & _ & ->). rewrite P1. reflexivity.
  - destruct Q as (_ & A2 & _). congruence.
Qed.

Lemma drain_ends n : forall t,
  (mu t < n)%nat ->
  exists tks,
    (List.length tks <= mu t)%nat /\
    (drain n t = (tks, AtEOF) /\
     (eofIndex (tokenBuffer t) <> None \/ tail (reader t) = EndEOF)
     \/ exists msg, drain n t = (tks, Failed (ErrSource msg)) /\
                    tail (reader t) = EndFail msg).
Proof.
  induction n as [|n IH]; intros t Hn; [lia|].
  destruct (wp_val _ _ _ (NextToken_full t)) as ([tk err] & t' & E & H).
  simpl drain. rewrite E. destruct err as [e|].
  - destruct (stop_kind _ _ _ e H eq_refl) as [(-> & Ht & Hw)|(msg & -> & Hm)];
      simpl in *.
    + rewrite Ht. exists []. split; [simpl; lia|]. left. split; [reflexivity|].
      destruct Hw as [Hw|Hw]; [left; congruence|right; exact Hw].
    + exists []. split; [simpl; lia|]. right. exists msg. auto.
  - pose proof (mu_step _ _ _ H eq_refl) as Hmu.
    destruct (IH t') as (tks & Hlen & Hend); [lia|].
    assert (Hshape : forall s, drain n t' = (tks, s) ->
              match None (A:=error), Typ tk with
              | Some io_EOF, TokenEOF => ([], AtEOF)
              | Some e, _ => ([], Failed e)
              | None, _ => let '(tks0, s0) := drain n t' in (tk :: tks0, s0)
              end = (tk :: tks, s)).
    { intros s ->. reflexivity. }
    exists (tk :: tks). split; [simpl; lia|].
    pose proof (tail_kept _ _ _ H) as Ht.
    destruct Hend as [(Hd & Hw)|(msg & Hd & Hm)].
    + left. split; [apply Hshape; exact Hd|].
      destruct (tail (reader t)) eqn:Etl; [right; reflexivity|].
      left. destruct Hw as [Hw|Hw]; [|congruence].
      intros Hnone. apply Hw.
      apply (no_EOF_kept _ _ _ H); eauto.
    + right. exists msg. split; [apply Hshape; exact Hd|congruence].
Qed.

(** X7. The loop of [main] ends on every input: with more calls allowed
    than three times the length of the input plus three, it stops at EOF
    when the source ends with io.EOF -- no input makes the tokenizer
    return an error or panic -- and it stops at the source's error when
    the source fails; either way after at most that many tokens. *)
Theorem main_loop_ends
  (input : list rune) (fin : source_end) (dbg : bool) (n : nat) :
  (3 * List.length input + 3 < n)%nat ->
  exists tks,
    (List.length tks <= 3 * List.length input + 3)%nat /\
    drain n (NewTokenizer input fin dbg)
    = (tks, match fin with
            | EndEOF => AtEOF
            | EndFail msg => Failed (ErrSource msg)
            end).
Proof.
  intros Hn.
  assert (Hmu : mu (NewTokenizer input fin dbg) = (3 * List.length input + 3)%nat).
  { unfold mu, nu, rest. simpl. lia. }
  destruct (drain_ends n (NewTokenizer input fin dbg)) as (tks & Hlen & Hend);
    [lia|].
  exists tks. split; [lia|].
  destruct Hend as [(Hd & Hw)|(msg & Hd & Hm)].
  - simpl in Hw. destruct Hw as [Hw|Hw]; [contradiction|].
    subst fin. exact Hd.
  - simpl in Hm. subst fin. exact Hd.
Qed.

Lemma main_loop_ends_witness :
  exists tks,
    (List.length tks <= 12)%nat /\
    drain 13 (NewTokenizer (str "- a") EndEOF false) = (tks, AtEOF).
Proof.
  apply (main_loop_ends (str "- a") EndEOF false 13). simpl. lia.
Defined.

(** ** Lines, kinds and the trace over a run *)

Lemma queueOf_on_line st l c n : Forall (on_line l) (queueOf st l c n).
Proof.
  unfold queueOf. apply Forall_app. split; [|apply Forall_app; split].
  - destruct st; simpl; repeat constructor; simpl; discriminate.
  - apply Forall_forall. intros tk H. apply repeat_spec in H. subst tk.
    split; [reflexivity|discriminate].
  - repeat constructor. discriminate.
Qed.

Lemma queueOf_flat st l c : Forall flat (queueOf st l c 0).
Proof.
  unfold queueOf. simpl. apply Forall_app. split.
  - destruct st; simpl; repeat constructor; simpl; discriminate.
  - repeat constructor; discriminate.
Qed.

Lemma line_step t r t' :
  NextToken_does t r t' -> Forall (on_line (line t)) (tokenBuffer t) ->
  Line (fst r) = line t /\
  line t' = (if isNewLine r then int_wrap (line t + 1) else line t) /\
  Forall (on_line (line t')) (tokenBuffer t').
Proof.
  unfold isNewLine.
  intros [(buf & F1 & -> & F3)|[(P1 & P2 & P3 & P4)|Q]] Hinv.
  - rewrite F1 in Hinv. inversion Hinv as [|? ? [Hl Hk] Hrest]; subst.
    simpl. split; [exact Hl|]. split; [|exact Hrest].
    destruct (Typ (fst r)); try reflexivity. contradiction.
  - split; [exact P3|].
    assert (Hb : tokenBuffer t' = []) by (destruct P2 as (_ & _ & _ & _ & ->); exact P1).
    rewrite Hb. split; [|constructor].
    destruct P4 as [(A & B & C & D)|[(A & B & C & D)|[(A & B & C & D)|((B & _) & C)]]].
    + rewrite B. exact C.
    + simpl in B. destruct B as [<-|[<-|[<-|[<-|[]]]]]; exact C.
    + rewrite B. exact C.
    + rewrite B. exact C.
  - destruct Q as (A1 & A2 & A3 & A4 & A5 & A6 & A7 & A8 & A9 & st & c & A10).
    pose proof (queueOf_on_line st (line t) c
                  (List.length (indentationLevelStack t) - 1)) as Hq.
    rewrite <- A10 in Hq. inversion Hq as [|? ? [Hl Hk] Hrest]; subst.
    split; [exact Hl|]. rewrite A5. split; [|exact Hrest].
    destruct (Typ (fst r)); try reflexivity. contradiction.
Qed.

Lemma calls_lines n : forall t pre r post,
  calls n t = pre ++ r :: post ->
  Forall (on_line (line t)) (tokenBuffer t) ->
  - 2 ^ 63 <= line t -> line t + Z.of_nat (newlines pre) < 2 ^ 63 ->
  Line (fst r) = line t + Z.of_nat (newlines pre).
Proof.
  induction n as [|n IH]; intros t pre r post E Hinv Hlo Hhi.
  - destruct pre; discriminate.
  - destruct (wp_val _ _ _ (NextToken_full t)) as (r0 & t' & E0 & H).
    rewrite (calls_first _ _ _ _ E0) in E.
    destruct (line_step _ _ _ H Hinv) as (Hl & Hl' & Hinv').
    destruct pre as [|p pre]; simpl in E; injection E as E1 E; subst r0.
    + unfold newlines. simpl. lia.
    + unfold newlines in *. simpl in *.
      destruct (isNewLine p) eqn:Enl; simpl in *.
      * rewrite int_wrap_small in Hl' by lia.
        rewrite (IH t' pre r post E Hinv') by lia. lia.
      * rewrite (IH t' pre r post E Hinv') by lia. lia.
Qed.

(** X8. In the results of the calls on any input, a token's line is one
    more than the number of NewLine tokens returned before it (as long as
    that number is within Go's int). *)
Theorem line_counts_newlines
  (input : list rune) (fin : source_end) (dbg : bool) (n : nat)
  (pre post : list TokErr) (tk : Token) (err : option error) :
  calls n (NewTokenizer input fin dbg) = pre ++ (tk, err) :: post ->
  Z.of_nat (newlines pre) < 2 ^ 63 - 1 ->
  Line tk = 1 + Z.of_nat (newlines pre).
Proof.
  intros E Hn.
  apply (calls_lines n (NewTokenizer input fin dbg) pre (tk, err) post E).
  - constructor.
  - change (line (NewTokenizer input fin dbg)) with 1. lia.
  - change (line (NewTokenizer input fin dbg)) with 1. lia.
Qed.

Lemma line_counts_newlines_witness :
  let input := lit "-\n- b\n" in
  let pre := [(mkToken TokenDash (str "-") 1 1, None);
              (mkToken TokenNewLine (str "\n") 1 2, None);
              (mkToken TokenDash (str "-") 2 2, None)] in
  let tk := mkToken TokenPlainScalar (str "b") 2 2 in
  calls 4 (NewTokenizer input EndEOF false) = pre ++ [(tk, None)] /\
  Line tk = 1 + Z.of_nat (newlines pre).
Proof.
  intros input pre tk.
  assert (E : calls 4 (NewTokenizer input EndEOF false) = pre ++ [(tk, None)])
    by (vm_compute; reflexivity).
  split; [exact E|].
  apply (line_counts_newlines input EndEOF false 4 pre [] tk None E).
  vm_compute. reflexivity.
Defined.

Lemma flat_step t r t' :
  NextToken_does t r t' ->
  (List.length (indentationLevelStack t) <= 1)%nat ->
  Forall flat (tokenBuffer t) ->
  flat (fst r) /\ indentationLevelStack t' = indentationLevelStack t /\
  Forall flat (tokenBuffer t').
Proof.
  intros [(buf & F1 & -> & F3)|[(P1 & P2 & P3 & P4)|Q]] Hst Hinv.
  - rewrite F1 in Hinv. inversion Hinv; subst. simpl. auto.
  - destruct P2 as (_ & _ & _ & Hs & Hb). rewrite Hb, Hs, P1.
    split; [|split; [reflexivity|constructor]].
    unfold flat.
    destruct P4 as [(A & B & C & D)|[(A & B & C & D)|[(A & B & C & D)|((B & _) & C)]]].
    + rewrite B. split; discriminate.
    + simpl in B. destruct B as [<-|[<-|[<-|[<-|[]]]]]; split; discriminate.
    + rewrite B. split; discriminate.
    + rewrite B. split; discriminate.
  - destruct Q as (A1 & A2 & A3 & A4 & A5 & A6 & A7 & A8 & A9 & st & c & A10).
    replace (List.length (indentationLevelStack t) - 1)%nat with 0%nat in A10 by lia.
    pose proof (queueOf_flat st (line t) c) as Hq.
    rewrite <- A10 in Hq. inversion Hq; subst.
    split; [assumption|]. split; [|assumption].
    rewrite A8. destruct (indentationLevelStack t) as [|a [|b s]];
      simpl in *; try reflexivity; lia.
Qed.

Lemma calls_flat n : forall t,
  (List.length (indentationLevelStack t) <= 1)%nat ->
  Forall flat (tokenBuffer t) ->
  Forall (fun r => flat (fst r)) (calls n t) /\
  indentationLevelStack (after n t) = indentationLevelStack t.
Proof.
  induction n as [|n IH]; intros t Hst Hinv; [split; [constructor|reflexivity]|].
  destruct (wp_val _ _ _ (NextToken_full t)) as (r0 & t' & E0 & H).
  destruct (flat_step _ _ _ H Hst Hinv) as (Hf & Hs & Hinv').
  rewrite (calls_first _ _ _ _ E0). simpl after. rewrite E0.
  destruct (IH t') as (H1 & H2); [rewrite Hs; exact Hst|exact Hinv'|].
  split; [constructor; assumption|congruence].
Qed.

(** X9. On no input does [NextToken] return an Indent or a Dedent token,
    and the indentation stack holds the base level alone after every
    call: the levels are never pushed. *)
Theorem never_indent_nor_dedent
  (input : list rune) (fin : source_end) (dbg : bool) (n : nat) :
  (forall tk err, In (tk, err) (calls n (NewTokenizer input fin dbg)) ->
                  Typ tk <> TokenIndent /\ Typ tk <> TokenDedent)
  /\ indentationLevelStack (after n (NewTokenizer input fin dbg)) = [0].
Proof.
  destruct (calls_flat n (NewTokenizer input fin dbg)) as (H1 & H2).
  - simpl. lia.
  - constructor.
  - split; [|exact H2].
    intros tk err Hin. rewrite Forall_forall in H1. exact (H1 (tk, err) Hin).
Qed.

Lemma never_indent_nor_dedent_witness :
  let tk := mkToken TokenPlainScalar (str "-") 1 1 in
  In (tk, None) (calls 2 (NewTokenizer (str " -") EndEOF false)) /\
  Typ tk <> TokenIndent /\ Typ tk <> TokenDedent.
Proof.
  intros tk.
  assert (Hin : In (tk, None) (calls 2 (NewTokenizer (str " -") EndEOF false)))
    by (vm_compute; left; reflexivity).
  split; [exact Hin|].
  destruct (never_indent_nor_dedent (str " -") EndEOF false 2) as [H _].
  exact (H tk None Hin).
Defined.

Lemma trace_step t r t' :
  NextToken_does t r t' -> debug t' = debug t /\ printed t' = printed t.
Proof.
  intros [(buf & F1 & -> & F3)|[(P1 & P2 & P3 & P4)|Q]].
  - split; reflexivity.
  - destruct P2 as (A & _ & B & _). auto.
  - destruct Q as (A1 & A2 & A3 & A4 & A5 & A6 & A7 & _). auto.
Qed.

Lemma after_trace n : forall t,
  debug (after n t) = debug t /\ printed (after n t) = printed t.
Proof.
  induction n as [|n IH]; intros t; [split; reflexivity|].
  destruct (wp_val _ _ _ (NextToken_full t)) as (r0 & t' & E0 & H).
  simpl. rewrite E0. destruct (trace_step _ _ _ H) as (H1 & H2).
  destruct (IH t') as (H3 & H4). split; congruence.
Qed.

(** X10. A tokenizer created with the debug flag off never prints: after
    any number of calls on any input the trace is empty (and the flag is
    still off). *)
Theorem no_trace_without_debug
  (input : list rune) (fin : source_end) (n : nat) :
  stdout (after n (NewTokenizer input fin false)) = []
  /\ debug (after n (NewTokenizer input fin false)) = false.
Proof.
  destruct (after_trace n (NewTokenizer input fin false)) as (H1 & H2).
  simpl in H1. split; [|exact H1].
  unfold printed in H2. rewrite H1 in H2. exact H2.
Qed.

(** ** One rune of push-back *)

Lemma int_wrap_add (a b : Z) : int_wrap (int_wrap a + b) = int_wrap (a + b).
Proof.
  unfold int_wrap. f_equal.
  replace ((a + 2 ^ 63) mod 2 ^ 64 - 2 ^ 63 + b + 2 ^ 63)
    with ((a + 2 ^ 63) mod 2 ^ 64 + b) by ring.
  replace (a + b + 2 ^ 63) with ((a + 2 ^ 63) + b) by ring.
  apply Z.add_mod_idemp_l. lia.
Qed.

(** X5. Reading a rune and unreading it leaves the input, the line and
    the column (a column within Go's int) as they were, with no error;
    a second unread in a row is refused with the reader's error and
    changes nothing: there is one rune of push-back. *)
Theorem read_then_unread (caller : string) (t : Tokenizer) (c : rune) (rs : list rune) :
  rest t = c :: rs -> - 2 ^ 63 <= column t < 2 ^ 63 ->
  exists t',
    (readRune caller ;; unreadRune) t = Val None t' /\
    rest t' = rest t /\ column t' = column t /\ line t' = line t /\
    status t' = status t /\ tokenBuffer t' = tokenBuffer t /\
    indentationLevelStack t' = indentationLevelStack t /\
    unreadRune t' = Val (Some ErrInvalidUnreadRune) t'.
Proof.
  destruct t as [[lr pd tl fs] l col s d st b o]. unfold rest. simpl.
  intros -> Hcol.
  assert (Hc : int_wrap (int_wrap (col + 1) - 1) = col).
  { replace (int_wrap (col + 1) - 1) with (int_wrap (col + 1) + -1) by ring.
    rewrite int_wrap_add. rewrite int_wrap_small; lia. }
  destruct d; (eexists; split; [reflexivity|]); simpl;
    rewrite Hc; repeat split; reflexivity.
Qed.

Lemma read_then_unread_witness :
  exists t',
    (readRune "NextToken" ;; unreadRune) (NewTokenizer (str "ab") EndEOF false)
    = Val None t' /\
    rest t' = str "ab" /\ column t' = 0 /\
    unreadRune t' = Val (Some ErrInvalidUnreadRune) t'.
Proof.
  destruct (read_then_unread "NextToken" (NewTokenizer (str "ab") EndEOF false)
              97 [98] eq_refl) as (t' & H1 & H2 & H3 & _ & _ & _ & _ & H4).
  - simpl. lia.
  - exists t'. auto.
Defined.

(** ** Pushed levels are retired at the end of the input *)

Lemma NextToken_at_EOF_full t :
  tokenBuffer t = [] -> rest t = [] -> tail (reader t) = EndEOF ->
  wp NextToken t (fun r t' =>
    exists tk, r = tagEOF tk /\ eofQueue t = tk :: tokenBuffer t' /\
    indentationLevelStack t' = firstn 1 (indentationLevelStack t) /\
    status t' = status t /\ line t' = line t /\ column t' = column t /\
    rest t' = [] /\ tail (reader t') = EndEOF).
Proof.
  intros Hbuf Hrest Htail.
  unfold NextToken. wp_go. unfold rest in Hrest. rewrite Hrest.
  cbn [List.length NextTokenLoop]. wp_step.
  unfold NextTokenBody at 1. wp_go. rewrite Hbuf.
  cbn [List.length Nat.ltb Nat.leb]. wp_step.
  eapply wp_mono; [apply readRune_exact|].
  intros r t1 (Hfr & H). unfold rest in H. rewrite Hrest in H.
  destruct H as (-> & Hr1 & Hc1). unfold endError. rewrite Htail.
  destruct Hfr as (Hl & Hs & _ & Hst & Hb & Ht).
  wp_step. eapply wp_mono; [apply pushPerStateEOF_full|].
  intros [] t2 (B1 & B2 & B3 & B4 & B5 & B6 & B7 & B8). wp_step.
  assert (Hq : eofQueue t1 = eofQueue t)
    by (unfold eofQueue; rewrite Hl, Hs, Hst, Hc1; reflexivity).
  rewrite Hb, Hbuf, Hq in B8. simpl in B8.
  destruct (eofQueue t) as [|tk q] eqn:Eq.
  { unfold eofQueue in Eq.
    destruct (marker (status t) (line t) (column t)); [|discriminate].
    destruct (repeat _ _); discriminate. }
  wp_step. unfold NextTokenBody, tokenBufferShift. wp_go. rewrite B8.
  cbn [List.length Nat.ltb Nat.leb]. wp_go. rewrite B8. wp_go.
  assert (Hpost : forall e, (tk, e) = tagEOF tk ->
    exists tk0, (tk, e) = tagEOF tk0 /\
      tk :: q = tk0 :: tokenBuffer (set_buffer q t2) /\
      indentationLevelStack (set_buffer q t2)
      = firstn 1 (indentationLevelStack t) /\
      status (set_buffer q t2) = status t /\ line (set_buffer q t2) = line t /\
      column (set_buffer q t2) = column t /\
      rest (set_buffer q t2) = [] /\ tail (reader (set_buffer q t2)) = EndEOF).
  { intros e He. exists tk. unfold rest in *. simpl.
    rewrite B7, Hst, B4, B2, B3, B1, Hr1, Ht, Htail. auto 10. }
  unfold tagEOF in Hpost.
  destruct (Typ tk); wp_go; apply Hpost; reflexivity.
Qed.

(** X6. Levels pushed on the indentation stack are retired at the end of
    the input, in any state: with nothing buffered and the input at its
    end, after pushing the levels [ls] above a stack that holds its base
    alone, the calls of [NextToken] deliver the marker token of the state
    if it has one, then exactly one Dedent for each pushed level, then EOF
    with io.EOF; and the first of these calls leaves the base alone on
    the stack. *)
Theorem pushed_levels_are_retired (t : Tokenizer) (base : Z) (ls : list Z) :
  tokenBuffer t = [] -> rest t = [] -> tail (reader t) = EndEOF ->
  indentationLevelStack t = [base] ->
  exists t1,
    pushLevels ls t = Val tt t1 /\
    calls (List.length (marker (status t) (line t) (column t))
           + List.length ls + 1) t1
    = map tagEOF
        (marker (status t) (line t) (column t)
         ++ repeat (mkToken TokenDedent [] (line t) (column t)) (List.length ls)
         ++ [mkToken TokenEOF [] (line t) (column t)])
    /\ indentationLevelStack (after 1 t1) = [base].
Proof.
  intros Hbuf Hrest Htail Hst.
  exists (set_stack (indentationLevelStack t ++ ls) t).
  split; [apply pushLevels_run|].
  set (t1 := set_stack (indentationLevelStack t ++ ls) t).
  assert (Hq : eofQueue t1
               = marker (status t) (line t) (column t)
                 ++ repeat (mkToken TokenDedent [] (line t) (column t)) (List.length ls)
                 ++ [mkToken TokenEOF [] (line t) (column t)]).
  { unfold eofQueue, t1. simpl. rewrite Hst. simpl.
    rewrite Nat.sub_0_r. reflexivity. }
  destruct (wp_val _ _ _ (NextToken_at_EOF_full t1 Hbuf Hrest Htail))
    as (r & t' & E & tk & -> & Hqueue & Hstack & _).
  split.
  - rewrite <- Hq, Hqueue.
    replace (List.length (marker (status t) (line t) (column t))
             + List.length ls + 1)%nat
      with (S (List.length (tokenBuffer t'))).
    + rewrite (calls_first _ _ _ _ E). simpl. f_equal.
      apply calls_buffered. reflexivity.
    + assert (Hlen : List.length (eofQueue t1)
                     = S (List.length (tokenBuffer t')))
        by (rewrite Hqueue; reflexivity).
      rewrite <- Hlen, Hq, !length_app, repeat_length. simpl. lia.
  - simpl after. rewrite E. rewrite Hstack. unfold t1. simpl.
    rewrite Hst. reflexivity.
Qed.

Lemma pushed_levels_are_retired_witness :
  exists t1,
    pushLevels [2; 4] (NewTokenizer [] EndEOF false) = Val tt t1 /\
    calls 3 t1
    = [(mkToken TokenDedent [] 1 0, None); (mkToken TokenDedent [] 1 0, None);
       (mkToken TokenEOF [] 1 0, Some io_EOF)]
    /\ indentationLevelStack (after 1 t1) = [0].
Proof.
  exact (pushed_levels_are_retired (NewTokenizer [] EndEOF false) 0 [2; 4]
           eq_refl eq_refl eq_refl eq_refl).
Defined.

(** ** Lines of a block sequence, and comments *)

Lemma raw_run_plain text : forall more,
  plain text ->
  raw_run (text ++ more) = text ++ raw_run more /\
  run_rest (text ++ more) = run_rest more.
Proof.
  induction text as [|c text IH]; intros more H; [split; reflexivity|].
  inversion H as [|? ? Hc Ht]; subst. simpl. rewrite Hc.
  destruct (IH more Ht) as [-> ->]. split; reflexivity.
Qed.

Lemma collectLoop_rest bound : forall scalar t,
  (List.length (rest t) < bound)%nat ->
  wp (collectLoop bound scalar) t (fun _ t' => rest t' = run_rest (rest t)).
Proof.
  induction bound as [|bound IH]; intros scalar t Hb; [lia|].
  simpl. wp_step.
  eapply wp_mono; [apply peek_full|].
  intros r t1 (_ & _ & _ & Hr & ->).
  destruct (rest t) as [|c rs] eqn:Er.
  - unfold endError. destruct (tail (reader t)); wp_go; exact Hr.
  - rewrite peek_stops. simpl. unfold stops.
    destruct ((c =? r_nl) || (c =? r_hash)).
    + wp_go. exact Hr.
    + wp_step. eapply wp_mono; [apply readRune_full|].
      intros r t2 (_ & _ & _ & H2). rewrite Hr in H2.
      destruct H2 as (-> & Hr2 & _).
      eapply wp_mono.
      * apply IH. rewrite Hr2. simpl in Hb. lia.
      * intros res t3 H3. rewrite H3, Hr2. reflexivity.
Qed.

Lemma wp_and {A} (m : M A) t (Q1 Q2 : A -> Tokenizer -> Prop) :
  wp m t Q1 -> wp m t Q2 -> wp m t (fun a t' => Q1 a t' /\ Q2 a t').
Proof. unfold wp. destruct (m t); tauto. Qed.

(** What [collectPlainScalar] returns and leaves when the source does not
    fail. *)
Lemma collectPlainScalar_exact scalar t :
  (unterminated (rest t) = true -> tail (reader t) = EndEOF) ->
  wp (collectPlainScalar scalar) t (fun r t' =>
    Typ (fst r) = TokenPlainScalar /\
    Value (fst r) = string_of_runes (scalar ++ raw_run (rest t)) /\
    snd r = None /\ Line (fst r) = line t /\
    rest t' = run_rest (rest t) /\ quiet t t' /\
    line t' = line t /\ status t' = status t).
Proof.
  intros Hend.
  assert (Hrest : wp (collectPlainScalar scalar) t
                    (fun _ t' => rest t' = run_rest (rest t))).
  { unfold collectPlainScalar. wp_go.
    eapply wp_mono; [apply collectLoop_rest; unfold rest; lia|].
    intros [s|r] t1 H; wp_go; exact H. }
  eapply wp_mono.
  - apply wp_and; [apply wp_and|].
    + apply (collectPlainScalar_run scalar t Hend).
    + apply (collectPlainScalar_full scalar t).
    + exact Hrest.
  - intros r t' (((A1 & A2 & A3) & (B1 & B2 & B3 & B4 & B5 & B6)) & C).
    auto 10.
Qed.

(** A scalar begun in the Blank state away from the markers. *)
Lemma NextToken_blank_scalar t c more :
  status t = statusBlank -> tokenBuffer t = [] ->
  rest t = c :: more -> tail (reader t) = EndEOF ->
  c <> r_space -> c <> r_nl -> c <> r_dash -> c <> r_dot ->
  wp NextToken t (fun r t' =>
    kind_value r = (TokenPlainScalar, string_of_runes (c :: raw_run more)) /\
    snd r = None /\
    status t' = statusBlank /\ tokenBuffer t' = [] /\
    rest t' = run_rest more /\ tail (reader t') = EndEOF).
Proof.
  intros Hs Hb Hr Ht H1 H2 H3 H4.
  unfold NextToken. wp_go. unfold rest in Hr. rewrite Hr.
  cbn [List.length NextTokenLoop]. wp_step.
  unfold NextTokenBody. wp_go. rewrite Hb.
  cbn [List.length Nat.ltb Nat.leb]. wp_step.
  eapply wp_mono; [apply readRune_full|].
  intros r t1 (Hq & Hl & Hs1 & H). unfold rest in H. rewrite Hr in H.
  destruct H as (-> & Hr1 & _).
  wp_go. rewrite Hs1, Hs.
  apply Z.eqb_neq in H1, H2, H3, H4. rewrite H1, H2, H3, H4.
  unfold returning. wp_step.
  eapply wp_mono.
  - apply collectPlainScalar_exact. intros _.
    destruct Hq as (_ & -> & _). exact Ht.
  - intros r t2 (A1 & A2 & A3 & A4 & A5 & A6 & A7 & A8). wp_go.
    unfold kind_value. simpl. rewrite A1, A2, A3, A5, A8, Hs1, Hs.
    unfold rest in *. rewrite Hr1.
    destruct Hq as (_ & Q2 & _ & _ & Q5), A6 as (_ & R2 & _ & _ & R5).
    repeat split; congruence.
Qed.

(** X12. A '#' ends the scalar before it and is not dropped: when a line
    holds a text, a '#' and a comment, the text comes back as one plain
    scalar and the '#' with the comment as the next plain scalar. *)
Theorem comment_is_a_scalar
  (t : Tokenizer) (c : rune) (text comment more : list rune) :
  status t = statusBlank -> tokenBuffer t = [] ->
  rest t = c :: text ++ r_hash :: comment ++ r_nl :: more ->
  tail (reader t) = EndEOF ->
  c <> r_space -> c <> r_nl -> c <> r_dash -> c <> r_dot ->
  plain text -> plain comment ->
  map (fun r => (kind_value r, snd r)) (calls 2 t)
  = [((TokenPlainScalar, string_of_runes (c :: text)), None);
     ((TokenPlainScalar, string_of_runes (r_hash :: comment)), None)].
Proof.
  intros Hs Hb Hr Ht H1 H2 H3 H4 Htext Hcomment.
  destruct (wp_val _ _ _ (NextToken_blank_scalar t c _ Hs Hb Hr Ht H1 H2 H3 H4))
    as (r1 & t1 & E1 & K1 & N1 & S1 & B1 & R1 & T1).
  destruct (raw_run_plain text (r_hash :: comment ++ r_nl :: more) Htext)
    as [Hraw Hrun].
  simpl in Hraw, Hrun. rewrite Hraw in K1. rewrite Hrun in R1.
  rewrite app_nil_r in K1.
  assert (W : wp NextToken t1 (fun r t' =>
    kind_value r = (TokenPlainScalar,
                    string_of_runes (r_hash :: raw_run (comment ++ r_nl :: more))) /\
    snd r = None /\ status t' = statusBlank /\ tokenBuffer t' = [] /\
    rest t' = run_rest (comment ++ r_nl :: more) /\ tail (reader t') = EndEOF)).
  { apply NextToken_blank_scalar; try assumption; discriminate. }
  destruct (wp_val _ _ _ W) as (r2 & t2 & E2 & K2 & N2 & _).
  destruct (raw_run_plain comment (r_nl :: more) Hcomment) as [Hraw2 _].
  simpl in Hraw2. rewrite Hraw2, app_nil_r in K2.
  rewrite (calls_first _ _ _ _ E1), (calls_first _ _ _ _ E2). simpl.
  rewrite K1, K2, N1, N2. reflexivity.
Qed.

Lemma comment_is_a_scalar_witness :
  map (fun r => (kind_value r, snd r))
    (calls 2 (NewTokenizer (lit "a b # c\nd") EndEOF false))
  = [((TokenPlainScalar, str "a b "), None);
     ((TokenPlainScalar, str "# c"), None)].
Proof.
  apply (comment_is_a_scalar (NewTokenizer (lit "a b # c\nd") EndEOF false)
           97 (str " b ") (str " c") (str "d"));
    try reflexivity; try discriminate; repeat constructor.
Defined.

(** The dash that opens an item: "- " at the start of a line. *)
Lemma NextToken_item_dash t more :
  at_line_start (r_dash :: r_space :: more) t ->
  wp NextToken t (fun r t' =>
    kind_value r = (TokenDash, str "-") /\ snd r = None /\
    status t' = statusScalar /\ tokenBuffer t' = [] /\
    indentationLevelStack t' = indentationLevelStack t /\
    rest t' = more /\ tail (reader t') = EndEOF).
Proof.
  intros (Hs & Hb & Hc & _ & Hr & Ht).
  unfold NextToken. wp_go. unfold rest in Hr. rewrite Hr.
  cbn [List.length NextTokenLoop]. wp_step.
  unfold NextTokenBody at 1. wp_go. rewrite Hb.
  cbn [List.length Nat.ltb Nat.leb]. wp_step.
  eapply wp_mono; [apply readRune_exact|].
  intros r t1 (Hfr & H). unfold rest in H. rewrite Hr in H.
  destruct H as (-> & Hr1 & Hc1).
  destruct Hfr as (Hl1 & Hs1 & _ & Hst1 & Hb1 & Ht1).
  wp_go. rewrite Hs1, Hs.
  change (r_dash =? r_space) with false. change (r_dash =? r_nl) with false.
  change (r_dash =? r_dash) with true. cbn iota. wp_go.
  rewrite Hc1, Hc. change (int_wrap (0 + 1) =? 1) with true. cbn iota.
  unfold set. wp_go.
  unfold NextTokenBody. wp_go. simpl tokenBuffer. rewrite Hb1, Hb.
  cbn [List.length Nat.ltb Nat.leb]. wp_step.
  eapply wp_mono; [apply readRune_exact|].
  intros r t2 (Hfr2 & H2). unfold rest in H2. simpl in H2. rewrite Hr1 in H2.
  destruct H2 as (-> & Hr2 & _).
  destruct Hfr2 as (_ & Hs2 & _ & Hst2 & Hb2 & Ht2). simpl in *.
  wp_go. rewrite Hs2.
  change (r_space =? r_space) with true. cbn iota. wp_go.
  unfold kind_value, rest. simpl.
  rewrite Hb2, Hb1, Hb, Hst2, Hst1, Hr2, Ht2, Ht1, Ht. auto 10.
Qed.

(** The scalar after a marker and its blank: the rest of the line. *)
Lemma NextToken_after_marker t ch more :
  status t = statusScalar -> tokenBuffer t = [] ->
  rest t = ch :: more -> tail (reader t) = EndEOF -> ch <> r_hash ->
  wp NextToken t (fun r t' =>
    kind_value r = (TokenPlainScalar, string_of_runes (raw_run (ch :: more))) /\
    snd r = None /\
    status t' = statusBlank /\ tokenBuffer t' = [] /\
    indentationLevelStack t' = indentationLevelStack t /\
    rest t' = run_rest (ch :: more) /\ tail (reader t') = EndEOF).
Proof.
  intros Hs Hb Hr Ht Hh.
  unfold NextToken. wp_go. unfold rest in Hr. rewrite Hr.
  cbn [List.length NextTokenLoop]. wp_step.
  unfold NextTokenBody. wp_go. rewrite Hb.
  cbn [List.length Nat.ltb Nat.leb]. wp_step.
  eapply wp_mono; [apply readRune_full|].
  intros r t1 (Hq & Hl & Hs1 & H). unfold rest in H. rewrite Hr in H.
  destruct H as (-> & Hr1 & Hlast).
  destruct Hq as (_ & Q2 & _ & Q4 & Q5).
  wp_go. rewrite Hs1, Hs. unfold set. wp_go.
  simpl raw_run. simpl run_rest. unfold stops.
  apply Z.eqb_neq in Hh. rewrite Hh, orb_false_r.
  destruct (ch =? r_nl) eqn:Enl.
  - apply Z.eqb_eq in Enl. subst ch.
    unfold unreadThen. wp_step.
    eapply wp_mono; [apply (unreadRune_full _ r_nl); exact Hlast|].
    intros err t2 (-> & R & Rl & Rs & Rr). unfold returning. wp_step.
    eapply wp_mono.
    + apply collectPlainScalar_exact. intros _.
      destruct R as (_ & -> & _). simpl. congruence.
    + intros r t3 (A1 & A2 & A3 & A4 & A5 & A6 & A7 & A8). wp_go.
      unfold kind_value. simpl. unfold rest in *. simpl in *.
      rewrite Rr, Hr1 in A2, A5. simpl in A2, A5.
      change (r_nl =? r_nl) with true in A2, A5. simpl in A2, A5.
      destruct R as (_ & R2 & _ & R4 & R5), A6 as (_ & S2 & _ & S4 & S5).
      simpl in *. rewrite A1, A2, A3, A5, A8, Rs.
      repeat split; congruence.
  - unfold returning. wp_step.
    eapply wp_mono.
    + apply collectPlainScalar_exact. intros _. simpl. congruence.
    + intros r t3 (A1 & A2 & A3 & A4 & A5 & A6 & A7 & A8). wp_go.
      unfold kind_value. simpl. unfold rest in *. simpl in *.
      rewrite Hr1 in A2, A5.
      destruct A6 as (_ & S2 & _ & S4 & S5). simpl in *.
      rewrite A1, A2, A3, A5, A8.
      repeat split; congruence.
Qed.

(** The newline that ends a line. *)
Lemma NextToken_line_end t more :
  status t = statusBlank -> tokenBuffer t = [] ->
  (List.length (indentationLevelStack t) <= 1)%nat ->
  rest t = r_nl :: more -> tail (reader t) = EndEOF ->
  wp NextToken t (fun r t' =>
    kind_value r = (TokenNewLine, str "\n") /\ snd r = None /\
    at_line_start more t').
Proof.
  intros Hs Hb Hst Hr Ht.
  unfold NextToken. wp_go. unfold rest in Hr. rewrite Hr.
  cbn [List.length NextTokenLoop]. wp_step.
  unfold NextTokenBody. wp_go. rewrite Hb.
  cbn [List.length Nat.ltb Nat.leb]. wp_step.
  eapply wp_mono; [apply readRune_exact|].
  intros r t1 (Hfr & H). unfold rest in H. rewrite Hr in H.
  destruct H as (-> & Hr1 & Hc1).
  destruct Hfr as (Hl & Hs1 & _ & Hst1 & Hb1 & Ht1).
  wp_go. rewrite Hs1, Hs. change (r_nl =? r_space) with false.
  change (r_nl =? r_nl) with true. cbn iota. wp_go.
  unfold kind_value, at_line_start, rest. simpl.
  rewrite Hs1, Hb1, Hst1, Ht1. auto 10.
Qed.

Lemma calls_add n : forall m t,
  calls (n + m) t = calls n t ++ calls m (after n t).
Proof.
  induction n as [|n IH]; intros m t; [reflexivity|].
  destruct (NextToken_returns t) as (r & t' & E).
  simpl. rewrite E. rewrite IH. reflexivity.
Qed.

Lemma sequence_line_tokens t item more :
  at_line_start (sequence_line item ++ more) t -> plain item ->
  map (fun r => (kind_value r, snd r)) (calls 3 t)
  = [((TokenDash, str "-"), None);
     ((TokenPlainScalar, string_of_runes item), None);
     ((TokenNewLine, str "\n"), None)]
  /\ at_line_start more (after 3 t).
Proof.
  intros Hstart Hplain.
  assert (Hst : (List.length (indentationLevelStack t) <= 1)%nat) by apply Hstart.
  unfold sequence_line in Hstart. rewrite <- !app_assoc in Hstart.
  change (str "- " ++ item ++ [r_nl] ++ more)
    with (r_dash :: r_space :: item ++ r_nl :: more) in Hstart.
  destruct (wp_val _ _ _ (NextToken_item_dash t _ Hstart))
    as (r1 & t1 & E1 & K1 & N1 & S1 & B1 & St1 & R1 & T1).
  destruct (raw_run_plain item (r_nl :: more) Hplain) as [Hraw Hrun].
  simpl in Hraw, Hrun. rewrite app_nil_r in Hraw.
  assert (W2 : wp NextToken t1 (fun r t' =>
    kind_value r = (TokenPlainScalar, string_of_runes item) /\ snd r = None /\
    status t' = statusBlank /\ tokenBuffer t' = [] /\
    indentationLevelStack t' = indentationLevelStack t1 /\
    rest t' = r_nl :: more /\ tail (reader t') = EndEOF)).
  { destruct item as [|ch item].
    - simpl in R1.
      eapply wp_mono; [apply (NextToken_after_marker t1 r_nl more); try assumption; discriminate|].
      intros r t' H. exact H.
    - simpl in R1. inversion Hplain as [|? ? Hch _]; subst.
      unfold stops in Hch. apply orb_false_iff in Hch. destruct Hch as [_ Hch].
      apply Z.eqb_neq in Hch.
      eapply wp_mono; [apply (NextToken_after_marker t1 ch (item ++ r_nl :: more)); assumption|].
      intros r t' H. cbv beta in H.
      change (ch :: item ++ r_nl :: more)
        with ((ch :: item) ++ r_nl :: more) in H.
      rewrite Hraw, Hrun in H. exact H. }
  destruct (wp_val _ _ _ W2) as (r2 & t2 & E2 & K2 & N2 & S2 & B2 & St2 & R2 & T2).
  assert (Hst2 : (List.length (indentationLevelStack t2) <= 1)%nat) by congruence.
  destruct (wp_val _ _ _ (NextToken_line_end t2 more S2 B2 Hst2 R2 T2))
    as (r3 & t3 & E3 & K3 & N3 & H3).
  split.
  - rewrite (calls_first _ _ _ _ E1), (calls_first _ _ _ _ E2),
      (calls_first _ _ _ _ E3). simpl.
    rewrite K1, K2, K3, N1, N2, N3. reflexivity.
  - simpl after. rewrite E1, E2, E3. exact H3.
Qed.

Lemma calls_sequence items : forall t,
  at_line_start (concat (map sequence_line items)) t ->
  Forall plain items ->
  map (fun r => (kind_value r, snd r)) (calls (3 * List.length items + 1) t)
  = flat_map sequence_tokens items ++ [((TokenEOF, []), Some io_EOF)].
Proof.
  induction items as [|item items IH]; intros t Hstart Hplain.
  - simpl in Hstart. destruct Hstart as (Hs & Hb & Hc & Hst & Hr & Ht).
    destruct (wp_val _ _ _ (NextToken_at_EOF t Hb Hr Ht))
      as (r & t' & E & tk & -> & Hq).
    simpl. rewrite E. simpl.
    unfold eofQueue in Hq. rewrite Hs in Hq.
    replace (List.length (indentationLevelStack t) - 1)%nat with 0%nat in Hq by lia.
    simpl in Hq. injection Hq as <- _. reflexivity.
  - inversion Hplain as [|? ? Hi Hrest]; subst.
    simpl in Hstart.
    destruct (sequence_line_tokens t item _ Hstart Hi) as (H3 & Hnext).
    replace (3 * List.length (item :: items) + 1)%nat
      with (3 + (3 * List.length items + 1))%nat by (simpl; lia).
    rewrite calls_add, map_app, H3, (IH _ Hnext Hrest). reflexivity.
Qed.

(** X11. A block sequence is tokenized item by item: for any list of
    items that hold no newline and no '#', the input made of the lines
    "- item" (each ended by a newline) yields, for each item in turn, Dash,
    PlainScalar with the item as its value -- blanks included, the empty
    item giving the empty scalar -- and NewLine, and then EOF with
    io.EOF. *)
Theorem block_sequence_tokens (items : list (list rune)) (dbg : bool) :
  Forall plain items ->
  map (fun r => (kind_value r, snd r))
    (calls (3 * List.length items + 1)
       (NewTokenizer (concat (map sequence_line items)) EndEOF dbg))
  = flat_map sequence_tokens items ++ [((TokenEOF, []), Some io_EOF)].
Proof.
  intros H. apply calls_sequence; [|exact H].
  unfold at_line_start, rest. simpl. repeat split; lia.
Qed.

Lemma block_sequence_tokens_witness :
  map (fun r => (kind_value r, snd r))
    (calls 7 (NewTokenizer (lit "- apple\n- \n") EndEOF false))
  = [((TokenDash, str "-"), None); ((TokenPlainScalar, str "apple"), None);
     ((TokenNewLine, str "\n"), None);
     ((TokenDash, str "-"), None); ((TokenPlainScalar, []), None);
     ((TokenNewLine, str "\n"), None);
     ((TokenEOF, []), Some io_EOF)].
Proof.
  apply (block_sequence_tokens [str "apple"; []] false).
  repeat constructor.
Defined.

(** ** Markers and what only looks like one *)

Lemma NextTokenLoop_enough n : forall m t,
  (fuelOf t <= n)%nat -> (fuelOf t <= m)%nat ->
  NextTokenLoop n t = NextTokenLoop m t.
Proof.
  induction n as [|n IH]; intros m t Hn Hm.
  - unfold fuelOf in Hn. destruct (tokenBuffer t); lia.
  - destruct m as [|m]; [unfold fuelOf in Hm; destruct (tokenBuffer t); lia|].
    simpl. unfold bind.
    pose proof (NextTokenBody_spec t) as H. unfold wp in H.
    destruct (NextTokenBody t) as [[|r] t1| |]; try reflexivity.
    simpl in H. destruct H as (_ & _ & Hlt). apply IH; lia.
Qed.

(** When a pass through the loop goes round again, the call returns what
    a call from the state it has reached returns. *)
Lemma NextToken_resumes t t1 :
  NextTokenBody t = Val Continue t1 -> NextToken t = NextToken t1.
Proof.
  intros E. unfold NextToken, bind, gets.
  change (NextTokenLoop (S (S (List.length (pending (reader t))))) t)
    with (bind NextTokenBody
            (fun f => match f with
                      | Continue => NextTokenLoop (S (List.length (pending (reader t))))
                      | Return r => ret r
                      end) t).
  unfold bind. rewrite E.
  pose proof (NextTokenBody_spec t) as H. unfold wp in H. rewrite E in H.
  simpl in H. destruct H as (_ & _ & Hlt).
  apply NextTokenLoop_enough.
  - unfold fuelOf in *. destruct (tokenBuffer t); unfold rest in *; lia.
  - unfold fuelOf, rest. destruct (tokenBuffer t1); lia.
Qed.

(** A partial marker followed by a character that neither lengthens nor
    ends it. *)
Lemma NextToken_broken_marker t ch more :
  partial_marker (status t) = true -> continues (status t) ch = false ->
  tokenBuffer t = [] -> rest t = ch :: more -> tail (reader t) = EndEOF ->
  wp NextToken t (fun r t' =>
    kind_value r
    = (TokenPlainScalar,
       string_of_runes (marker_text (status t) ++ ch :: raw_run more)) /\
    snd r = None /\
    status t' = after_text (status t) /\ tokenBuffer t' = [] /\
    rest t' = run_rest more /\ tail (reader t') = EndEOF).
Proof.
  intros Hpm Hc Hb Hr Ht.
  unfold NextToken. wp_go. unfold rest in Hr. rewrite Hr.
  cbn [List.length NextTokenLoop]. wp_step.
  unfold NextTokenBody. wp_go. rewrite Hb.
  cbn [List.length Nat.ltb Nat.leb]. wp_step.
  eapply wp_mono; [apply readRune_full|].
  intros r t1 (Hq & Hl & Hs1 & H). unfold rest in H. rewrite Hr in H.
  destruct H as (-> & Hr1 & _).
  destruct Hq as (_ & Q2 & _ & _ & Q5).
  wp_go. rewrite Hs1.
  assert (Hcollect : forall scalar st (K : Flow -> M TokErr),
    (forall r, K (Return r) = ret r) ->
    wp (modify (set_status st) ;; r <- collectPlainScalar scalar ;; ret (Return r))
      t1
      (fun f t' =>
         wp (K f) t'
           (fun r t'0 =>
              kind_value r
              = (TokenPlainScalar, string_of_runes (scalar ++ raw_run more)) /\
              snd r = None /\ status t'0 = st /\ tokenBuffer t'0 = [] /\
              rest t'0 = run_rest more /\ tail (reader t'0) = EndEOF))).
  { intros scalar st K HK. wp_go.
    eapply wp_mono.
    - apply collectPlainScalar_exact. intros _. simpl. congruence.
    - intros r t2 (A1 & A2 & A3 & A4 & A5 & A6 & A7 & A8). wp_go.
      rewrite HK. wp_go.
      unfold kind_value, rest in *. simpl in *.
      destruct A6 as (_ & S2 & _ & _ & S5). simpl in *.
      rewrite A1, A2, A3, A5, A8, Hr1.
      repeat split; congruence. }
  destruct (status t) eqn:Est; try discriminate; simpl in Hc;
    repeat (apply orb_false_iff in Hc; destruct Hc as [Hc ?]);
    repeat match goal with H : (_ =? _) = false |- _ => rewrite H; clear H end;
    wp_step; (apply Hcollect || idtac).
  all: try (intros; reflexivity).
Qed.

Lemma at_line_start_shape more t :
  at_line_start more t ->
  exists lr fs l d st o,
    t = mkTokenizer (mkReader lr more EndEOF fs) l 0 statusBlank d st [] o /\
    (List.length st <= 1)%nat.
Proof.
  destruct t as [[lr pd tl fs] l c s d st b o]. unfold at_line_start, rest.
  simpl. intros (-> & -> & -> & Hst & -> & ->). eauto 10.
Qed.

(** One pass of the loop of [NextToken] that goes round again, on a state
    whose next character is known. *)
Ltac loop_pass :=
  lazymatch goal with
  | |- NextToken ?t0 = _ =>
      let p := eval cbv in (pending (reader t0)) in
      lazymatch p with
      | _ :: _ =>
          let r := eval vm_compute in (NextTokenBody t0) in
          lazymatch r with
          | Val Continue ?t1 =>
              transitivity (NextToken t1);
              [apply NextToken_resumes; vm_compute; reflexivity|]
          end
      end
  end.

(** The state reached from the start of a line by reading the text of a
    partial marker. *)
Lemma marker_text_read st more t :
  partial_marker st = true -> at_line_start (marker_text st ++ more) t ->
  exists t1,
    NextToken t = NextToken t1 /\ status t1 = st /\ tokenBuffer t1 = [] /\
    rest t1 = more /\ tail (reader t1) = EndEOF /\
    indentationLevelStack t1 = indentationLevelStack t /\ line t1 = line t.
Proof.
  intros Hpm Hstart.
  destruct (at_line_start_shape _ _ Hstart) as (lr & fs & l & d & stk & o & -> & _).
  destruct st; try discriminate; destruct d; simpl marker_text;
    eexists; (split; [repeat loop_pass; reflexivity | repeat split]).
Qed.

(** X14. A marker that is not followed by what completes it is plain
    text: at the start of a line the text "-", "--", "---", ".", ".." or
    "..." followed by a character that neither lengthens nor ends the
    marker comes back, with that character and the rest of the line up to
    a newline or '#', as a single plain scalar; after a text that begins
    with dots the tokenizer is left in the Scalar state, after one that
    begins with dashes in the Blank state. *)
Theorem broken_marker_is_text
  (st : tokenStatus) (t : Tokenizer) (ch : rune) (more : list rune) :
  partial_marker st = true -> continues st ch = false ->
  at_line_start (marker_text st ++ ch :: more) t ->
  exists r t',
    NextToken t = Val r t' /\
    kind_value r
    = (TokenPlainScalar, string_of_runes (marker_text st ++ ch :: raw_run more)) /\
    snd r = None /\
    status t' = after_text st /\ rest t' = run_rest more.
Proof.
  intros Hpm Hc Hstart.
  destruct (marker_text_read st _ t Hpm Hstart)
    as (t1 & E & Hs & Hb & Hr & Ht & _).
  subst st.
  destruct (wp_val _ _ _ (NextToken_broken_marker t1 ch more Hpm Hc Hb Hr Ht))
    as (r & t' & E' & K & N & S & _ & R & _).
  exists r, t'. rewrite E. auto.
Qed.

Lemma broken_marker_is_text_witness :
  exists r t',
    NextToken (NewTokenizer (lit "...value\n") EndEOF false) = Val r t' /\
    kind_value r = (TokenPlainScalar, str "...value") /\ snd r = None /\
    status t' = statusScalar /\ rest t' = [r_nl].
Proof.
  apply (broken_marker_is_text statusThreeDots
           (NewTokenizer (lit "...value\n") EndEOF false) 118 (lit "alue\n")).
  - reflexivity.
  - reflexivity.
  - unfold at_line_start, rest. simpl. repeat split; lia.
Defined.

(** ** Document markers *)

(** "---" or "..." followed by a blank or a newline: the marker; the
    blank is consumed, the newline is put back. *)
Lemma NextToken_doc_marker t ch more :
  status t = statusThreeDashes \/ status t = statusThreeDots ->
  tokenBuffer t = [] -> rest t = ch :: more -> tail (reader t) = EndEOF ->
  ch = r_space \/ ch = r_nl ->
  wp NextToken t (fun r t' =>
    kind_value r = (doc_marker (status t), marker_text (status t)) /\
    snd r = None /\
    status t' = (if ch =? r_space then statusScalar else statusBlank) /\
    tokenBuffer t' = [] /\
    indentationLevelStack t' = indentationLevelStack t /\
    rest t' = (if ch =? r_space then more else ch :: more) /\
    tail (reader t') = EndEOF).
Proof.
  intros Hst Hb Hr Ht Hch.
  unfold NextToken. wp_go. unfold rest in Hr. rewrite Hr.
  cbn [List.length NextTokenLoop]. wp_step.
  unfold NextTokenBody. wp_go. rewrite Hb.
  cbn [List.length Nat.ltb Nat.leb]. wp_step.
  eapply wp_mono; [apply readRune_full|].
  intros r t1 (Hq & Hl & Hs1 & H). unfold rest in H. rewrite Hr in H.
  destruct H as (-> & Hr1 & Hlast).
  destruct Hq as (_ & Q2 & _ & Q4 & Q5).
  wp_go. rewrite Hs1.
  destruct Hst as [Est|Est]; rewrite Est; destruct Hch as [->| ->];
    cbn [Z.eqb r_space r_nl Pos.eqb]; unfold unreadThen; wp_go.
  1, 3: unfold kind_value, rest; simpl; repeat split; congruence.
  all: eapply wp_mono; [apply (unreadRune_full _ r_nl); exact Hlast|];
    intros err t2 (-> & (_ & R2 & _ & R4 & R5) & _ & Rs & Rr);
    wp_go; unfold kind_value, rest in *; simpl in *;
    repeat split; congruence.
Qed.

(** The rest of a line after a marker and its blank: the text as a
    scalar, then the newline. *)
Lemma text_line_tokens t text more :
  status t = statusScalar -> tokenBuffer t = [] ->
  (List.length (indentationLevelStack t) <= 1)%nat ->
  rest t = text ++ r_nl :: more -> tail (reader t) = EndEOF -> plain text ->
  map (fun r => (kind_value r, snd r)) (calls 2 t)
  = [((TokenPlainScalar, string_of_runes text), None);
     ((TokenNewLine, str "\n"), None)]
  /\ at_line_start more (after 2 t).
Proof.
  intros S1 B1 Hst R1 T1 Hplain.
  destruct (raw_run_plain text (r_nl :: more) Hplain) as [Hraw Hrun].
  simpl in Hraw, Hrun. rewrite app_nil_r in Hraw.
  assert (W2 : wp NextToken t (fun r t' =>
    kind_value r = (TokenPlainScalar, string_of_runes text) /\ snd r = None /\
    status t' = statusBlank /\ tokenBuffer t' = [] /\
    indentationLevelStack t' = indentationLevelStack t /\
    rest t' = r_nl :: more /\ tail (reader t') = EndEOF)).
  { destruct text as [|ch text].
    - simpl in R1.
      eapply wp_mono;
        [apply (NextToken_after_marker t r_nl more); try assumption; discriminate|].
      intros r t' H. exact H.
    - simpl in R1. inversion Hplain as [|? ? Hch _]; subst.
      unfold stops in Hch. apply orb_false_iff in Hch. destruct Hch as [_ Hch].
      apply Z.eqb_neq in Hch.
      eapply wp_mono;
        [apply (NextToken_after_marker t ch (text ++ r_nl :: more)); assumption|].
      intros r t' H. cbv beta in H.
      change (ch :: text ++ r_nl :: more)
        with ((ch :: text) ++ r_nl :: more) in H.
      rewrite Hraw, Hrun in H. exact H. }
  destruct (wp_val _ _ _ W2) as (r2 & t2 & E2 & K2 & N2 & S2 & B2 & St2 & R2 & T2).
  assert (Hst2 : (List.length (indentationLevelStack t2) <= 1)%nat) by congruence.
  destruct (wp_val _ _ _ (NextToken_line_end t2 more S2 B2 Hst2 R2 T2))
    as (r3 & t3 & E3 & K3 & N3 & H3).
  split.
  - rewrite (calls_first _ _ _ _ E2), (calls_first _ _ _ _ E3). simpl.
    rewrite K2, K3, N2, N3. reflexivity.
  - simpl after. rewrite E2, E3. exact H3.
Qed.

(** X13. Document markers: a line that starts with "---" or "..." and
    goes on with a newline yields DocStart, respectively DocEnd, and
    NewLine; when the marker is followed by one blank and a text without
    newline or '#', the text comes between the two as a PlainScalar (its
    further blanks kept, the empty text as the empty scalar).  After the
    line the tokenizer is at the start of the next one. *)
Theorem document_marker_line
  (st : tokenStatus) (body : option (list rune)) (more : list rune) (t : Tokenizer) :
  st = statusThreeDashes \/ st = statusThreeDots ->
  match body with Some text => plain text | None => True end ->
  at_line_start (marker_line st body ++ more) t ->
  let n := List.length (marker_line_tokens st body) in
  map (fun r => (kind_value r, snd r)) (calls n t) = marker_line_tokens st body
  /\ at_line_start more (after n t).
Proof.
  intros Hst Hbody Hstart.
  assert (Hpm : partial_marker st = true) by (destruct Hst; subst; reflexivity).
  assert (Hlen : (List.length (indentationLevelStack t) <= 1)%nat) by apply Hstart.
  unfold marker_line in Hstart. rewrite <- !app_assoc in Hstart.
  destruct (marker_text_read st _ t Hpm Hstart)
    as (t1 & E & Hs & Hb & Hr & Ht & Hstk & _).
  assert (Hst1 : status t1 = statusThreeDashes \/ status t1 = statusThreeDots)
    by (rewrite Hs; exact Hst).
  destruct body as [text|]; simpl in Hr.
  - destruct (wp_val _ _ _
                (NextToken_doc_marker t1 r_space _ Hst1 Hb Hr Ht (or_introl eq_refl)))
      as (r1 & t2 & E1 & K1 & N1 & S2 & B2 & St2 & R2 & T2).
    rewrite <- E in E1. simpl in S2, R2.
    assert (Hlen2 : (List.length (indentationLevelStack t2) <= 1)%nat) by congruence.
    destruct (text_line_tokens t2 text more S2 B2 Hlen2 R2 T2 Hbody) as (C2 & A2).
    split.
    + change (List.length (marker_line_tokens st (Some text))) with (S 2).
      rewrite (calls_first _ _ _ _ E1). rewrite map_cons, C2, K1, N1, Hs.
      reflexivity.
    + change (List.length (marker_line_tokens st (Some text))) with (S 2).
      cbn [after]. rewrite E1. exact A2.
  - destruct (wp_val _ _ _
                (NextToken_doc_marker t1 r_nl _ Hst1 Hb Hr Ht (or_intror eq_refl)))
      as (r1 & t2 & E1 & K1 & N1 & S2 & B2 & St2 & R2 & T2).
    rewrite <- E in E1. simpl in S2, R2.
    assert (Hlen2 : (List.length (indentationLevelStack t2) <= 1)%nat) by congruence.
    destruct (wp_val _ _ _ (NextToken_line_end t2 more S2 B2 Hlen2 R2 T2))
      as (r3 & t3 & E3 & K3 & N3 & H3).
    split.
    + change (List.length (marker_line_tokens st None)) with 2%nat.
      rewrite (calls_first _ _ _ _ E1), (calls_first _ _ _ _ E3). simpl.
      rewrite K1, K3, N1, N3, Hs. reflexivity.
    + change (List.length (marker_line_tokens st None)) with 2%nat.
      simpl after. rewrite E1, E3. exact H3.
Qed.

Lemma document_marker_line_witness :
  map (fun r => (kind_value r, snd r))
    (calls 3 (NewTokenizer (lit "--- a b\n...\n") EndEOF false))
  = [((TokenDocStart, str "---"), None);
     ((TokenPlainScalar, str "a b"), None);
     ((TokenNewLine, str "\n"), None)]
  /\ at_line_start (lit "...\n")
       (after 3 (NewTokenizer (lit "--- a b\n...\n") EndEOF false)).
Proof.
  apply (document_marker_line statusThreeDashes (Some (str "a b")) (lit "...\n")
           (NewTokenizer (lit "--- a b\n...\n") EndEOF false)).
  - left. reflexivity.
  - repeat constructor.
  - unfold at_line_start, rest. simpl. repeat split; lia.
Defined.

(** ** The state after a dash and a tab *)

Lemma NextTokenBody_tab t :
  tab_ahead t -> wp NextTokenBody t (fun _ t' => tab_ahead t').
Proof.
  intros Hinv. unfold NextTokenBody. wp_go.
  destruct (tokenBuffer t) as [|tk buf] eqn:Ebuf;
    cbn [List.length Nat.ltb Nat.leb].
  - wp_step. eapply wp_mono; [apply readRune_full|].
    intros r t1 (Hq & Hl & Hs & H).
    destruct (rest t) as [|c rs] eqn:Er.
    + assert (Hno : status t <> statusAfterDash).
      { intros E. destruct (Hinv E) as (more & Hm). congruence. }
      destruct H as (-> & Hr1). unfold endError.
      destruct (tail (reader t)) eqn:Et.
      * wp_step. eapply wp_mono; [apply pushPerStateEOF_full|].
        intros [] t2 (B1 & B2 & B3 & B4 & B5 & B6 & B7 & B8). wp_step.
        intros E. exfalso. apply Hno. congruence.
      * wp_go. intros E. simpl in E. exfalso. apply Hno. congruence.
    + destruct H as (-> & Hr1 & Hlast). wp_step. wp_step.
      destruct (status t1) eqn:Est; wp_simpl; full_auto;
        unfold tab_ahead; intros Hst';
        first
          [ exfalso; break_hyps; simpl in *; congruence
          | break_hyps; unfold rest in *; simpl in *;
            match goal with
            | H : (c =? r_tab) = true |- _ => apply Z.eqb_eq in H; subst c
            end;
            eexists; eassumption ].
  - unfold tokenBufferShift. wp_go. rewrite Ebuf. wp_go.
    assert (Hpost : tab_ahead (set_buffer buf t)) by exact Hinv.
    destruct (Typ tk); wp_go; exact Hpost.
Qed.

Lemma NextTokenLoop_tab bound : forall t r t',
  tab_ahead t -> NextTokenLoop bound t = Val r t' -> tab_ahead t'.
Proof.
  induction bound as [|bound IH]; intros t r t' Hinv E; [discriminate|].
  simpl in E. unfold bind in E.
  pose proof (NextTokenBody_tab t Hinv) as H. unfold wp in H.
  destruct (NextTokenBody t) as [[|r1] t1| |]; try discriminate.
  - exact (IH _ _ _ H E).
  - unfold ret in E. injection E as <- <-. exact H.
Qed.

Lemma after_tab n : forall t, tab_ahead t -> tab_ahead (after n t).
Proof.
  induction n as [|n IH]; intros t Hinv; [exact Hinv|].
  simpl. destruct (NextToken t) as [r t'| |] eqn:E; try exact Hinv.
  apply IH. unfold NextToken, bind, gets in E.
  exact (NextTokenLoop_tab _ _ _ _ Hinv E).
Qed.

(** X15. The AfterDash state is only ever entered with the tab that
    followed the dash put back: whatever the input, the ending of the
    source and the number of calls made, a tokenizer that rests in
    AfterDash has a tab as its next character (so the loop of that state
    that skips blanks finds a character that is neither a newline nor a
    blank at once). *)
Theorem after_dash_tab_is_ahead
  (input : list rune) (fin : source_end) (dbg : bool) (n : nat) :
  let t := after n (NewTokenizer input fin dbg) in
  status t = statusAfterDash -> exists more, rest t = r_tab :: more.
Proof.
  intros t Hst.
  assert (Hinv : tab_ahead t).
  { apply after_tab. intros E. discriminate. }
  exact (Hinv Hst).
Qed.

Lemma after_dash_tab_is_ahead_witness :
  exists more,
    rest (after 1 (NewTokenizer (lit "-\tx\n") EndEOF false)) = r_tab :: more.
Proof.
  apply (after_dash_tab_is_ahead (lit "-\tx\n") EndEOF false 1).
  reflexivity.
Defined.

(** ** A dash followed by a tab or a newline *)

(** "-" followed by a tab or a newline: the dash, and the character is
    put back. *)
Lemma NextToken_dash_unread t ch more :
  status t = statusOneDash ->
  tokenBuffer t = [] -> rest t = ch :: more -> tail (reader t) = EndEOF ->
  ch = r_tab \/ ch = r_nl ->
  wp NextToken t (fun r t' =>
    kind_value r = (TokenDash, str "-") /\ snd r = None /\
    status t' = (if ch =? r_tab then statusAfterDash else statusBlank) /\
    tokenBuffer t' = [] /\
    indentationLevelStack t' = indentationLevelStack t /\
    rest t' = ch :: more /\ tail (reader t') = EndEOF).
Proof.
  intros Est Hb Hr Ht Hch.
  unfold NextToken. wp_go. unfold rest in Hr. rewrite Hr.
  cbn [List.length NextTokenLoop]. wp_step.
  unfold NextTokenBody. wp_go. rewrite Hb.
  cbn [List.length Nat.ltb Nat.leb]. wp_step.
  eapply wp_mono; [apply readRune_full|].
  intros r t1 (Hq & Hl & Hs1 & H). unfold rest in H. rewrite Hr in H.
  destruct H as (-> & Hr1 & Hlast).
  destruct Hq as (_ & Q2 & _ & Q4 & Q5).
  wp_go. rewrite Hs1, Est.
  destruct Hch as [->| ->];
    cbn [Z.eqb r_space r_nl r_tab Pos.eqb]; wp_go;
    (eapply wp_mono;
     [ first [apply (unreadRune_full _ r_tab); exact Hlast
             |apply (unreadRune_full _ r_nl); exact Hlast]
     | intros err t2 (-> & (_ & R2 & _ & R4 & R5) & _ & Rs & Rr);
       wp_go; unfold kind_value, rest in *; simpl in *;
       repeat split; congruence ]).
Qed.

(** The scalar of the AfterDash state: the tab and the rest of the
    line. *)
Lemma NextToken_after_dash t more :
  status t = statusAfterDash ->
  tokenBuffer t = [] -> rest t = r_tab :: more -> tail (reader t) = EndEOF ->
  wp NextToken t (fun r t' =>
    kind_value r = (TokenPlainScalar, string_of_runes (r_tab :: raw_run more)) /\
    snd r = None /\
    status t' = statusBlank /\ tokenBuffer t' = [] /\
    indentationLevelStack t' = indentationLevelStack t /\
    rest t' = run_rest more /\ tail (reader t') = EndEOF).
Proof.
  intros Est Hb Hr Ht.
  unfold NextToken. wp_go. unfold rest in Hr. rewrite Hr.
  cbn [List.length NextTokenLoop]. wp_step.
  unfold NextTokenBody. wp_go. rewrite Hb.
  cbn [List.length Nat.ltb Nat.leb]. wp_step.
  eapply wp_mono; [apply readRune_full|].
  intros r t1 (Hq & Hl & Hs1 & H). unfold rest in H. rewrite Hr in H.
  destruct H as (-> & Hr1 & Hlast).
  destruct Hq as (_ & Q2 & _ & Q4 & Q5).
  wp_go. rewrite Hs1, Est. wp_go.
  cbn [skipBlanks Z.eqb r_space r_nl r_tab Pos.eqb negb]. wp_go.
  eapply wp_mono.
  - apply collectPlainScalar_exact. intros _. simpl. congruence.
  - intros r t3 (A1 & A2 & A3 & A4 & A5 & A6 & A7 & A8). wp_go.
    unfold kind_value, rest in *. simpl in *.
    destruct A6 as (_ & S2 & _ & S4 & S5). simpl in *.
    rewrite A1, A2, A3, A5, A8, Hr1.
    repeat split; congruence.
Qed.

(** X16. A dash at the start of a line that is followed by a newline
    yields Dash and NewLine; followed by a tab and a text without newline
    or '#', it yields Dash, a PlainScalar whose value is the tab and the
    text, and NewLine: the tab is not skipped as the blank after a dash
    is.  After the line the tokenizer is at the start of the next one. *)
Theorem dash_line_without_blank
  (body : option (list rune)) (more : list rune) (t : Tokenizer) :
  match body with Some text => plain text | None => True end ->
  at_line_start (dash_line body ++ more) t ->
  let n := List.length (dash_line_tokens body) in
  map (fun r => (kind_value r, snd r)) (calls n t) = dash_line_tokens body
  /\ at_line_start more (after n t).
Proof.
  intros Hbody Hstart.
  assert (Hlen : (List.length (indentationLevelStack t) <= 1)%nat) by apply Hstart.
  unfold dash_line in Hstart.
  change (at_line_start
            (marker_text statusOneDash
             ++ (match body with Some text => r_tab :: text | None => [] end
                 ++ [r_nl]) ++ more) t) in Hstart.
  rewrite <- app_assoc in Hstart.
  destruct (marker_text_read statusOneDash _ t eq_refl Hstart)
    as (t1 & E & Hs & Hb & Hr & Ht & Hstk & _).
  destruct body as [text|]; simpl in Hr.
  - destruct (wp_val _ _ _
                (NextToken_dash_unread t1 r_tab _ Hs Hb Hr Ht (or_introl eq_refl)))
      as (r1 & t2 & E1 & K1 & N1 & S2 & B2 & St2 & R2 & T2).
    rewrite <- E in E1. simpl in S2.
    assert (Hraw : raw_run (text ++ r_nl :: more) = text
                   /\ run_rest (text ++ r_nl :: more) = r_nl :: more).
    { destruct (raw_run_plain text (r_nl :: more) Hbody) as [Hraw Hrun].
      simpl in Hraw, Hrun. rewrite app_nil_r in Hraw. auto. }
    destruct Hraw as [Hraw Hrun].
    destruct (wp_val _ _ _ (NextToken_after_dash t2 _ S2 B2 R2 T2))
      as (r2 & t3 & E2 & K2 & N2 & S3 & B3 & St3 & R3 & T3).
    rewrite Hraw in K2. rewrite Hrun in R3.
    assert (Hlen3 : (List.length (indentationLevelStack t3) <= 1)%nat) by congruence.
    destruct (wp_val _ _ _ (NextToken_line_end t3 more S3 B3 Hlen3 R3 T3))
      as (r3 & t4 & E3 & K3 & N3 & H3).
    change (List.length (dash_line_tokens (Some text))) with 3%nat.
    split.
    + rewrite (calls_first _ _ _ _ E1), (calls_first _ _ _ _ E2),
        (calls_first _ _ _ _ E3). simpl.
      rewrite K1, K2, K3, N1, N2, N3. reflexivity.
    + simpl after. rewrite E1, E2, E3. exact H3.
  - destruct (wp_val _ _ _
                (NextToken_dash_unread t1 r_nl _ Hs Hb Hr Ht (or_intror eq_refl)))
      as (r1 & t2 & E1 & K1 & N1 & S2 & B2 & St2 & R2 & T2).
    rewrite <- E in E1. simpl in S2.
    assert (Hlen2 : (List.length (indentationLevelStack t2) <= 1)%nat) by congruence.
    destruct (wp_val _ _ _ (NextToken_line_end t2 more S2 B2 Hlen2 R2 T2))
      as (r3 & t3 & E3 & K3 & N3 & H3).
    change (List.length (dash_line_tokens None)) with 2%nat.
    split.
    + rewrite (calls_first _ _ _ _ E1), (calls_first _ _ _ _ E3). simpl.
      rewrite K1, K3, N1, N3. reflexivity.
    + simpl after. rewrite E1, E3. exact H3.
Qed.

Lemma dash_line_without_blank_witness :
  map (fun r => (kind_value r, snd r))
    (calls 3 (NewTokenizer (lit "-\ta\n-\n") EndEOF false))
  = [((TokenDash, str "-"), None);
     ((TokenPlainScalar, lit "\ta"), None);
     ((TokenNewLine, str "\n"), None)]
  /\ at_line_start (lit "-\n")
       (after 3 (NewTokenizer (lit "-\ta\n-\n") EndEOF false)).
Proof.
  apply (dash_line_without_blank (Some (str "a")) (lit "-\n")
           (NewTokenizer (lit "-\ta\n-\n") EndEOF false)).
  - repeat constructor.
  - unfold at_line_start, rest. simpl. repeat split; lia.
Defined.

(** ** The column of a collected scalar *)

Lemma len_app (a b : list rune) : len (a ++ b) = len a + len b.
Proof.
  induction a as [|x a IH]; simpl; [reflexivity|]. unfold len in *. simpl.
  rewrite IH. ring.
Qed.

Lemma len_one_byte (s : list rune) :
  Forall one_byte s -> len (string_of_runes s) = Z.of_nat (List.length s).
Proof.
  induction 1 as [|x s Hx _ IH]; [reflexivity|].
  unfold len, string_of_runes in *. cbn [map fold_right List.length].
  rewrite IH. unfold one_byte in Hx.
  assert (Hs : sanitize x = x).
  { unfold sanitize, valid_rune.
    replace (0 <=? x) with true by (symmetry; apply Z.leb_le; lia).
    replace (x <? 55296) with true by (symmetry; apply Z.ltb_lt; lia).
    reflexivity. }
  unfold RuneLen. rewrite !Hs.
  replace (x <? 128) with true by (symmetry; apply Z.ltb_lt; lia).
  lia.
Qed.

(** The column counter after the loop of [collectPlainScalar]: one more
    for each character of the run. *)
Lemma collectLoop_column bound : forall scalar t,
  (List.length (rest t) < bound)%nat ->
  wp (collectLoop bound scalar) t (fun res t' =>
    match res with
    | inl _ =>
        forall k, int_wrap (column t' + k)
                  = int_wrap (column t + Z.of_nat (List.length (raw_run (rest t))) + k)
    | inr _ => True
    end).
Proof.
  induction bound as [|bound IH]; intros scalar t Hb; [lia|].
  simpl. wp_step.
  eapply wp_mono; [apply peek_exact|].
  intros r t1 (_ & Hr1 & Hc1 & ->).
  destruct (rest t) as [|c rs] eqn:Er.
  - unfold endError. destruct (tail (reader t)); wp_go; [|exact I].
    intros k. rewrite Hc1. simpl. f_equal. ring.
  - rewrite peek_stops. simpl raw_run. unfold stops.
    destruct ((c =? r_nl) || (c =? r_hash)).
    + wp_go. intros k. rewrite Hc1. simpl. f_equal. ring.
    + wp_step. eapply wp_mono; [apply readRune_exact|].
      intros r t2 (_ & H2). rewrite Hr1 in H2.
      destruct H2 as (-> & Hr2 & Hc2).
      eapply wp_mono.
      * apply IH. rewrite Hr2. simpl in Hb. lia.
      * intros [s|e] t3 H3; [|exact I]. intros k.
        rewrite H3, Hr2, Hc2, Hc1.
        replace (int_wrap (column t + 1) + Z.of_nat (List.length (raw_run rs)) + k)
          with (int_wrap (column t + 1) + (Z.of_nat (List.length (raw_run rs)) + k))
          by ring.
        rewrite int_wrap_add. f_equal.
        cbn [List.length]. lia.
Qed.

Lemma collectPlainScalar_column scalar t :
  (unterminated (rest t) = true -> tail (reader t) = EndEOF) ->
  wp (collectPlainScalar scalar) t (fun r t' =>
    Typ (fst r) = TokenPlainScalar /\
    Value (fst r) = string_of_runes (scalar ++ raw_run (rest t)) /\
    snd r = None /\
    Column (fst r)
    = int_wrap (column t + Z.of_nat (List.length (raw_run (rest t)))
                - len (string_of_runes (scalar ++ raw_run (rest t))))).
Proof.
  intros Hend. unfold collectPlainScalar. wp_go.
  eapply wp_mono.
  - apply wp_and.
    + apply collectLoop_run; [unfold rest; lia|exact Hend].
    + apply (collectLoop_column _ scalar); unfold rest; lia.
  - intros res t1 (-> & Hcol). wp_go. simpl.
    repeat split. unfold Z.sub. apply Hcol.
Qed.

Lemma NextTokenLoop_scalar_column c more spaces : forall bound t,
  status t = statusBlank -> tokenBuffer t = [] ->
  rest t = spaces ++ c :: more ->
  Forall (fun s => s = r_space) spaces ->
  c <> r_space -> c <> r_nl -> c <> r_dash -> c <> r_dot ->
  (unterminated more = true -> tail (reader t) = EndEOF) ->
  (List.length spaces < bound)%nat ->
  wp (NextTokenLoop bound) t (fun r t' =>
    Typ (fst r) = TokenPlainScalar /\
    Value (fst r) = string_of_runes (c :: raw_run more) /\
    snd r = None /\
    Column (fst r)
    = int_wrap (column t
                + Z.of_nat (List.length spaces + List.length (c :: raw_run more))
                - len (string_of_runes (c :: raw_run more)))).
Proof.
  induction spaces as [|s spaces IH];
    intros bound t Hs Hb Hr Hsp Hc1 Hc2 Hc3 Hc4 Hend Hbound;
    (destruct bound as [|bound]; [simpl in Hbound; lia|]);
    cbn [NextTokenLoop]; wp_step;
    unfold NextTokenBody; wp_go; rewrite Hb;
    cbn [List.length Nat.ltb Nat.leb]; wp_step;
    (eapply wp_mono; [apply readRune_exact|]);
    intros r t1 (Hfr & H); rewrite Hr in H; simpl in H;
    destruct H as (-> & Hr1 & Hcol1);
    destruct Hfr as (Hl & Hs1 & _ & Hst1 & Hb1 & Ht1);
    wp_go; rewrite Hs1, Hs.
  - apply Z.eqb_neq in Hc1, Hc2, Hc3, Hc4. rewrite Hc1, Hc2, Hc3, Hc4.
    unfold returning. wp_step. eapply wp_mono.
    + apply collectPlainScalar_column. rewrite Hr1, Ht1. exact Hend.
    + intros r t2 (A1 & A2 & A3 & A4). rewrite Hr1 in A2, A4. wp_go.
      repeat split; try assumption.
      rewrite A4, Hcol1. unfold Z.sub.
      replace (int_wrap (column t + 1) + Z.of_nat (List.length (raw_run more))
               + - len (string_of_runes ([c] ++ raw_run more)))
        with (int_wrap (column t + 1)
              + (Z.of_nat (List.length (raw_run more))
                 + - len (string_of_runes ([c] ++ raw_run more)))) by ring.
      rewrite int_wrap_add. f_equal. cbn [List.length app]. lia.
  - inversion Hsp as [|? ? Hs0 Hsp']; subst.
    change (r_space =? r_space) with true. cbn iota. wp_go.
    eapply wp_mono.
    + apply (IH bound t1); try assumption; try congruence.
      * rewrite Ht1. exact Hend.
      * simpl in Hbound. lia.
    + intros r t2 (A1 & A2 & A3 & A4). repeat split; try assumption.
      rewrite A4, Hcol1. unfold Z.sub.
      set (n := Z.of_nat (List.length spaces + List.length (c :: raw_run more))).
      set (L := len (string_of_runes (c :: raw_run more))).
      replace (int_wrap (column t + 1) + n + - L)
        with (int_wrap (column t + 1) + (n + - L)) by ring.
      rewrite int_wrap_add. f_equal. subst n. cbn [List.length]. lia.
Qed.

(** X17. The column of a plain scalar is a count of characters minus a
    count of bytes: for a scalar that starts a line after some blanks,
    Column is the number of characters read up to the end of the scalar
    less the length in bytes of its value (in Go's int).  When every
    character of the scalar takes one byte this is the number of blanks in
    front of it, the offset of its first character counted from 0; each
    further byte of a character lowers it by one. *)
Theorem scalar_column
  (t : Tokenizer) (spaces : list rune) (c : rune) (more : list rune) :
  at_line_start (spaces ++ c :: more) t ->
  Forall (fun s => s = r_space) spaces ->
  c <> r_space -> c <> r_nl -> c <> r_dash -> c <> r_dot ->
  let run := c :: raw_run more in
  exists r t',
    NextToken t = Val r t' /\
    kind_value r = (TokenPlainScalar, string_of_runes run) /\
    Column (fst r)
    = int_wrap (Z.of_nat (List.length spaces + List.length run)
                - len (string_of_runes run)) /\
    (Forall one_byte run ->
     Column (fst r) = int_wrap (Z.of_nat (List.length spaces))).
Proof.
  intros (Hs & Hb & Hc & _ & Hr & Ht) Hsp H1 H2 H3 H4 run.
  assert (W : wp NextToken t (fun r t' =>
    Typ (fst r) = TokenPlainScalar /\
    Value (fst r) = string_of_runes run /\
    snd r = None /\
    Column (fst r)
    = int_wrap (column t + Z.of_nat (List.length spaces + List.length run)
                - len (string_of_runes run)))).
  { unfold NextToken. wp_go.
    apply (NextTokenLoop_scalar_column c more spaces); try assumption.
    - intros _. exact Ht.
    - unfold rest in Hr. rewrite Hr, length_app. simpl. lia. }
  destruct (wp_val _ _ _ W) as (r & t' & E & A1 & A2 & _ & A4).
  rewrite Hc in A4. simpl (0 + _) in A4.
  exists r, t'. split; [exact E|]. split; [|split].
  - unfold kind_value. rewrite A1, A2. reflexivity.
  - exact A4.
  - intros Hascii. rewrite A4, (len_one_byte _ Hascii), Nat2Z.inj_add.
    f_equal. subst run. cbn [List.length]. lia.
Qed.

Lemma scalar_column_witness :
  exists r t',
    NextToken (NewTokenizer [r_space; 233; 116; 233] EndEOF false) = Val r t' /\
    kind_value r = (TokenPlainScalar, [233; 116; 233]) /\
    Column (fst r) = -1 /\
    (Forall one_byte [233; 116; 233] -> Column (fst r) = 1).
Proof.
  apply (scalar_column (NewTokenizer [r_space; 233; 116; 233] EndEOF false)
           [r_space] 233 [116; 233]).
  - unfold at_line_start, rest. simpl. repeat split; lia.
  - repeat constructor.
  - discriminate.
  - discriminate.
  - discriminate.
  - discriminate.
Defined.
